(** * GeneratoreTurniVVF: the shift scheduler of [vvf_scheduler/core.py]

    A shallow embedding of the assignment engine (class [Scheduler] with its
    load tracker [Conteggi]) together with the rule table of
    [vvf_scheduler/rules.py], the configuration records of [database.py] and
    the month parser of the command line ([turnivvf.py]).

    Conventions of the embedding.
    - A Python [int] is a [Z]; a [str] is a [string]; [Optional[str]] is an
      [option string], and Python truthiness of such a value is [truthy].
    - A [datetime.date] is represented by its proleptic Gregorian ordinal
      ([date.toordinal()]), on which [weekday], [month] and [isocalendar] are
      computed with the algorithms of the standard [datetime] module.
    - Dictionaries and sets that are only looked up are [gmap]s and [gset]s;
      dictionaries whose insertion order is observed are association lists.
    - The scheduler's mutable attributes form the record [Stato], threaded
      through the state monad [M].
    - [random.random()] reads the next draw of a stream fixed by the seed;
      iterating a Python [set] of names follows an order [iter_set] that the
      interpreter process fixes. *)

From stdpp Require Import gmap strings list fin_maps sorting.
From Stdlib Require Import ZArith Lia.

Open Scope Z_scope.

(** ** Calendar dates ([datetime.date]) *)

Abbreviation date := Z.

Definition _is_leap (year : Z) : bool :=
  (year mod 4 =? 0) && (negb (year mod 100 =? 0) || (year mod 400 =? 0)).

Definition _days_before_year (year : Z) : Z :=
  let y := year - 1 in y * 365 + y / 4 - y / 100 + y / 400.

Definition _DAYS_IN_MONTH (month : Z) : Z :=
  match month with
  | 1 => 31 | 2 => 28 | 3 => 31 | 4 => 30 | 5 => 31 | 6 => 30
  | 7 => 31 | 8 => 31 | 9 => 30 | 10 => 31 | 11 => 30 | 12 => 31
  | _ => -1
  end.

Definition _DAYS_BEFORE_MONTH (month : Z) : Z :=
  match month with
  | 1 => 0 | 2 => 31 | 3 => 59 | 4 => 90 | 5 => 120 | 6 => 151
  | 7 => 181 | 8 => 212 | 9 => 243 | 10 => 273 | 11 => 304 | 12 => 334
  | _ => -1
  end.

Definition _days_before_month (year month : Z) : Z :=
  _DAYS_BEFORE_MONTH month + (if (2 <? month) && _is_leap year then 1 else 0).

Definition _ymd2ord (year month day : Z) : date :=
  _days_before_year year + _days_before_month year month + day.

Definition _DI400Y : Z := 146097.
Definition _DI100Y : Z := 36524.
Definition _DI4Y : Z := 1461.

(** [_ord2ymd]: ordinal to (year, month, day). *)
Definition _ord2ymd (n0 : Z) : Z * Z * Z :=
  let n := n0 - 1 in
  let n400 := n / _DI400Y in
  let n := n mod _DI400Y in
  let year := n400 * 400 + 1 in
  let n100 := n / _DI100Y in
  let n := n mod _DI100Y in
  let n4 := n / _DI4Y in
  let n := n mod _DI4Y in
  let n1 := n / 365 in
  let n := n mod 365 in
  let year := year + n100 * 100 + n4 * 4 + n1 in
  if (n1 =? 4) || (n100 =? 4) then (year - 1, 12, 31)
  else
    let leapyear := (n1 =? 3) && (negb (n4 =? 24) || (n100 =? 3)) in
    let month := Z.shiftr (n + 50) 5 in
    let preceding :=
      _DAYS_BEFORE_MONTH month + (if (2 <? month) && leapyear then 1 else 0) in
    if n <? preceding then
      let month := month - 1 in
      let preceding :=
        preceding - (_DAYS_IN_MONTH month
                     + (if (month =? 2) && leapyear then 1 else 0)) in
      (year, month, n - preceding + 1)
    else (year, month, n - preceding + 1).

Definition date_year (d : date) : Z := (_ord2ymd d).1.1.
Definition date_month (d : date) : Z := (_ord2ymd d).1.2.
Definition date_day (d : date) : Z := (_ord2ymd d).2.

(** [date.weekday()]: Monday is 0, Sunday is 6. *)
Definition weekday (d : date) : Z := (d + 6) mod 7.

Definition _isoweek1monday (year : Z) : date :=
  let firstday := _ymd2ord year 1 1 in
  let firstweekday := (firstday + 6) mod 7 in
  let week1monday := firstday - firstweekday in
  if 3 <? firstweekday then week1monday + 7 else week1monday.

(** [date.isocalendar()], restricted to its (year, week) components. *)
Definition isocalendar (d : date) : Z * Z :=
  let year := date_year d in
  let week1monday := _isoweek1monday year in
  let week := (d - week1monday) / 7 in
  if week <? 0 then
    let year := year - 1 in
    let week1monday := _isoweek1monday year in
    (year, (d - week1monday) / 7 + 1)
  else if (52 <=? week) && (_isoweek1monday (year + 1) <=? d) then
    (year + 1, 1)
  else (year, week + 1).

(** ** Python built-ins used by the scheduler *)

(** Truthiness of an [Optional[str]]: [None] and the empty string are falsy. *)
Definition truthy (o : option string) : bool :=
  match o with
  | Some s => negb (String.eqb s "")
  | None => false
  end.

(** [sorted] / [list.sort]: a stable sort, here by insertion. *)
Fixpoint inserisci {A : Type} (leb : A → A → bool) (x : A) (l : list A) : list A :=
  match l with
  | [] => [x]
  | y :: l' => if leb x y then x :: l else y :: inserisci leb x l'
  end.

Definition sorted_py {A : Type} (leb : A → A → bool) (l : list A) : list A :=
  foldr (inserisci leb) [] l.

(** Comparison of tuples of numbers, component by component. *)
Fixpoint tuple_leb (a b : list Z) : bool :=
  match a, b with
  | [], _ => true
  | _ :: _, [] => false
  | x :: a', y :: b' => (x <? y) || ((x =? y) && tuple_leb a' b')
  end.

Definition week_key_leb (a b : Z * Z) : bool := tuple_leb [a.1; a.2] [b.1; b.2].

(** [itertools.combinations(l, k)], in the order Python yields them. *)
Fixpoint combinations {A : Type} (l : list A) (k : nat) : list (list A) :=
  match k with
  | O => [[]]
  | S k' =>
      match l with
      | [] => []
      | x :: l' => map (cons x) (combinations l' k') ++ combinations l' (S k')
      end
  end.

(** [itertools.combinations(team, 2)]. *)
Fixpoint coppie {A : Type} (l : list A) : list (A * A) :=
  match l with
  | [] => []
  | x :: l' => map (pair x) l' ++ coppie l'
  end.

Definition frozenset_pair (p : string * string) : gset string := {[p.1; p.2]}.

Definition conta {A : Type} (f : A → bool) (l : list A) : Z :=
  Z.of_nat (length (filter (λ x, f x = true) l)).

Definition somma {A : Type} (f : A → Z) (l : list A) : Z :=
  foldr (λ x acc, f x + acc) 0 l.

Definition bool_Z (b : bool) : Z := if b then 1 else 0.

Definition in_list (x : string) (l : list string) : bool := bool_decide (x ∈ l).

(** ** Rules ([vvf_scheduler/rules.py]) *)

Inductive RuleMode := HARD | SOFT | OFF.

Global Instance RuleMode_eq_dec : EqDecision RuleMode.
Proof. solve_decision. Defined.

Record RuleDefinition := {
  key : string;
  default_mode : RuleMode;
  has_value : bool;
  default_value : option Z;
}.

Record GenerationRuleConfig := {
  mode : RuleMode;
  value : option Z;
}.

Global Instance GenerationRuleConfig_inhabited : Inhabited GenerationRuleConfig :=
  populate {| mode := HARD; value := None |}.

Definition RULE_DEFINITIONS : list RuleDefinition :=
  [ {| key := "min_senior"; default_mode := HARD; has_value := true;
       default_value := Some 1 |};
    {| key := "weekly_cap"; default_mode := HARD; has_value := false;
       default_value := None |};
    {| key := "summer_exclusion"; default_mode := HARD; has_value := false;
       default_value := None |};
    {| key := "varchi_rotation"; default_mode := HARD; has_value := false;
       default_value := None |} ].

Definition build_default_rules : gmap string GenerationRuleConfig :=
  list_to_map
    (map (λ definition,
            (key definition,
             {| mode := default_mode definition;
                value := if has_value definition
                         then default_value definition else None |}))
         RULE_DEFINITIONS).

Definition merge_with_defaults (custom : gmap string GenerationRuleConfig)
  : gmap string GenerationRuleConfig :=
  let base := build_default_rules in
  if bool_decide (size custom = 0%nat) then base
  else
    list_to_map
      (map (λ definition,
              match custom !! key definition with
              | None => (key definition, base !!! key definition)
              | Some cfg =>
                  let value := if has_value definition then value cfg else None in
                  let value :=
                    if has_value definition && bool_decide (value = None)
                    then default_value definition else value in
                  (key definition, {| mode := mode cfg; value := value |})
              end)
           RULE_DEFINITIONS).

(** ** Configuration records ([database.py]) *)

Definition DEFAULT_ACTIVE_WEEKDAYS : gset Z := {[4; 5; 6]}.
Definition DEFAULT_WEEKLY_CAP : Z := 1.

Record Vacation := {
  start : date;
  end_ : date;
}.

Record ConstraintRule := {
  primo : string;
  secondo : string;
  cr_is_hard : bool;
}.

Definition as_sorted_tuple (rule : ConstraintRule) : string * string :=
  if String.leb (primo rule) (secondo rule)
  then (primo rule, secondo rule) else (secondo rule, primo rule).

Record PreferredRule := {
  pr_autista : string;
  pr_vigile : string;
  pr_is_hard : bool;
}.

Record ProgramConfig := {
  cfg_autisti : list string;
  cfg_vigili : list string;
  cfg_esperienza_vigili : gmap string string;
  cfg_weekly_cap : gmap string Z;
  cfg_coppie_vietate : list ConstraintRule;
  cfg_coppie_preferite : list PreferredRule;
  cfg_autista_varchi : option string;
  cfg_autista_pogliani : option string;
  cfg_vigile_escluso_estate : option string;
  cfg_min_esperti : Z;
  cfg_ferie : gmap string (list Vacation);
  cfg_active_weekdays : gset Z;
  cfg_enable_varchi_rule : bool;
  cfg_generation_rules : gmap string GenerationRuleConfig;
}.

(** ** Constants of [vvf_scheduler/constants.py] *)

(** Modelled from the spec: [constants.py] is not part of the sources; the
    seniority levels are the two levels junior and senior of the data model
    (the administration screen defines [LIV_JUNIOR = "JUNIOR"]). *)
Definition LIV_JUNIOR : string := "JUNIOR".
Definition LIV_SENIOR : string := "SENIOR".

(** Modelled from the spec: [constants.py] is not part of the sources; the
    summer exclusion covers the months July and August. *)
Definition SUMMER_EXCLUDED_MONTHS : gset Z := {[7; 8]}.

(** ** Calendar generation *)

(** The [while giorno <= fine] loop of [date_attive_anno], with the number of
    days still to visit as the decreasing measure. *)
Fixpoint date_attive_loop (giorni_attivi mesi_attivi : gset Z)
    (giorno : date) (restanti : nat) : list date :=
  match restanti with
  | O => []
  | S k =>
      (if bool_decide (weekday giorno ∈ giorni_attivi)
          && bool_decide (date_month giorno ∈ mesi_attivi)
       then [giorno] else [])
      ++ date_attive_loop giorni_attivi mesi_attivi (giorno + 1) k
  end.

Definition range_1_13 : gset Z := list_to_set (seqZ 1 12).

(** [date_attive_anno]. Python builds [date(anno, 1, 1)], which raises
    [ValueError] unless [anno] is between 1 and 9999, and in the year 9999
    the last [giorno += one_day] of the loop steps past [date.max] and raises
    [OverflowError]. The function returns a list for the years 1 to 9998,
    and for these years this definition is that list. *)
Definition date_attive_anno (anno : Z) (weekdays : gset Z)
    (months : option (gset Z)) : list date :=
  let giorni_attivi := filter (λ g, 0 ≤ g ≤ 6) weekdays in
  let giorni_attivi :=
    if bool_decide (giorni_attivi = ∅) then DEFAULT_ACTIVE_WEEKDAYS
    else giorni_attivi in
  let mesi_attivi :=
    match months with
    | Some ms =>
        if bool_decide (ms = ∅) then range_1_13
        else
          let mesi := filter (λ m, 1 ≤ m ≤ 12) ms in
          if bool_decide (mesi = ∅) then range_1_13 else mesi
    | None => range_1_13
    end in
  let giorno := _ymd2ord anno 1 1 in
  let fine := _ymd2ord anno 12 31 in
  date_attive_loop giorni_attivi mesi_attivi giorno (Z.to_nat (fine - giorno + 1)).

(** ** The load tracker [Conteggi] *)

Record Conteggi := {
  annuale : gmap string Z;
  per_mese : gmap string (gmap Z Z);
  per_mese_giorno : gmap string (gmap Z (gmap Z Z));
  per_giorno_anno : gmap string (gmap Z Z);
  per_settimana : gmap string (gmap (Z * Z) Z);
  ultimo_giorno : gmap string (option Z);
}.

Definition Conteggi_vuoto : Conteggi :=
  {| annuale := ∅; per_mese := ∅; per_mese_giorno := ∅;
     per_giorno_anno := ∅; per_settimana := ∅; ultimo_giorno := ∅ |}.

(** [if nome not in d: d[nome] = v]. *)
Definition se_assente {V : Type} (nome : string) (v : V) (d : gmap string V)
  : gmap string V :=
  match d !! nome with
  | Some _ => d
  | None => <[nome := v]> d
  end.

Definition zeri (chiavi : list Z) : gmap Z Z :=
  list_to_map (map (λ k, (k, 0)) chiavi).

Definition assicura_persona (nome : string) (c : Conteggi) : Conteggi :=
  {| annuale := se_assente nome 0 (annuale c);
     per_mese := se_assente nome (zeri (seqZ 1 12)) (per_mese c);
     per_mese_giorno :=
       se_assente nome
         (list_to_map (map (λ mese, (mese, zeri (seqZ 0 7))) (seqZ 1 12)))
         (per_mese_giorno c);
     per_giorno_anno := se_assente nome (zeri (seqZ 0 7)) (per_giorno_anno c);
     per_settimana := se_assente nome ∅ (per_settimana c);
     ultimo_giorno := se_assente nome None (ultimo_giorno c) |}.

Definition _week_key (giorno : date) : Z * Z := isocalendar giorno.

Definition aggiungi (nome : string) (giorno : date) (c0 : Conteggi) : Conteggi :=
  let c := assicura_persona nome c0 in
  let mese := date_month giorno in
  let dow := weekday giorno in
  let week_key := _week_key giorno in
  {| annuale := <[nome := annuale c !!! nome + 1]> (annuale c);
     per_mese :=
       <[nome := <[mese := (per_mese c !!! nome) !!! mese + 1]> (per_mese c !!! nome)]>
         (per_mese c);
     per_mese_giorno :=
       <[nome :=
           <[mese :=
               <[dow := ((per_mese_giorno c !!! nome) !!! mese) !!! dow + 1]>
                 ((per_mese_giorno c !!! nome) !!! mese)]>
             (per_mese_giorno c !!! nome)]>
         (per_mese_giorno c);
     per_giorno_anno :=
       <[nome := <[dow := (per_giorno_anno c !!! nome) !!! dow + 1]>
                   (per_giorno_anno c !!! nome)]>
         (per_giorno_anno c);
     per_settimana :=
       <[nome :=
           <[week_key := default 0 ((per_settimana c !!! nome) !! week_key) + 1]>
             (per_settimana c !!! nome)]>
         (per_settimana c);
     ultimo_giorno := <[nome := Some dow]> (ultimo_giorno c) |}.

(** The read accessors. Each one first calls [assicura_persona]; the entries
    this creates are zero counters, so the value read is the same whether or
    not the initialised tracker is kept, and the accessors are modelled as
    pure reads. Every name the scheduler reads was initialised by
    [Scheduler.__init__]. *)
Definition tot_mese (c : Conteggi) (nome : string) (mese : Z) : Z :=
  (per_mese (assicura_persona nome c) !!! nome) !!! mese.

Definition tot_annuale (c : Conteggi) (nome : string) : Z :=
  annuale (assicura_persona nome c) !!! nome.

Definition tot_mese_giorno (c : Conteggi) (nome : string) (mese dow : Z) : Z :=
  ((per_mese_giorno (assicura_persona nome c) !!! nome) !!! mese) !!! dow.

Definition tot_giorno_anno (c : Conteggi) (nome : string) (dow : Z) : Z :=
  (per_giorno_anno (assicura_persona nome c) !!! nome) !!! dow.

Definition tot_settimana (c : Conteggi) (nome : string) (week_key : Z * Z) : Z :=
  default 0 ((per_settimana (assicura_persona nome c) !!! nome) !! week_key).

Definition ultimo_dow (c : Conteggi) (nome : string) : option Z :=
  ultimo_giorno (assicura_persona nome c) !!! nome.

(** ** Assignments, decision log and scheduler state *)

Record Assegnazione := {
  a_giorno : date;
  a_autista : option string;
  a_vigili : list (option string);
}.

Inductive Categoria := AUTISTA | VIGILI.

(** The messages the scheduler writes, one constructor per call of [_log];
    the arguments are the values interpolated into the text. *)
Inductive Messaggio :=
  | DerogaRegolaVarchi
      (* Deroga regola Varchi/Pogliani: ricompongo il turno senza il vincolo speciale. *)
  | SabatoGuida (pogliani varchi : option string)
      (* Regola: sabato guida .. => venerdi' escludo .. *)
  | VisualizzoVarchi (varchi pogliani : option string)
      (* Regola speciale: visualizzo .. al posto di .. *)
  | TurnoScoperto
      (* Turno scoperto: impossibile comporre una squadra valida. *)
  | NessunAutista
      (* Nessun autista disponibile rispettando vincoli e limiti settimanali. *)
  | DerogaMeseGiornoAutisti
      (* Deroga: rilasso il vincolo un-turno-per mese/giorno sugli autisti .. *)
  | DerogaLimiteAutista (scelto : string)
      (* Deroga limite settimanale: assegno .. oltre il proprio limite. *)
  | DerogaCandidati (limite estiva : bool) (fallback : list string)
      (* Deroga {limite settimanale / regola estiva / vincoli soft}: includo .. *)
  | CandidatiInsufficienti (disponibili n_vigili : Z)
      (* Candidati insufficienti (../..) dopo aver applicato ferie, limiti e vincoli. *)
  | MancaObbligatorio (nome : string)
      (* Vincolo duro autista-vigile non rispettato (manca ..). *)
  | ObbligatoriEccedenti
      (* Vincoli duri autista-vigile eccedono la dimensione squadra .. *)
  | ImpossibileCompletare (slot_rimanenti residui : Z)
      (* Impossibile completare la squadra (.. posti da coprire, .. candidati idonei). *)
  | NessunSenior
      (* Deroga esperienza: nessun SENIOR disponibile fra i candidati di oggi. *)
  | PochiSenior (senior_count min_esperti : Z)
      (* Deroga esperienza: squadra con .. SENIOR (<..). *)
  | NessunaCombinazione
      (* Nessuna combinazione di squadra soddisfa i vincoli duri + soft gestibili. *)
  | CoppieSconsigliate (violazioni_soft : Z)
      (* Deroga: utilizzo squadra con .. coppia/e sconsigliate. *)
  | SquadraGiaVista (team : list string)
      (* Squadra gia' vista ..: la riutilizzo per mancanza di alternative migliori. *)
  | DerogaLimiteVigile (nome : string)
      (* Deroga limite settimanale: associo .. oltre il proprio limite. *)
  | DerogaEstiva (nome : string)
      (* Deroga regola estiva: includo .. nonostante il vincolo. *)
  | VarchiInFerie (varchi : option string)
      (* .. e' in ferie: venerdi' senza vigile speciale. *)
  | VarchiAlLimite (varchi : option string)
      (* .. ha gia' raggiunto il limite settimanale: niente quarto SENIOR speciale. *)
  | VenerdiSpeciale (varchi : option string)
      (* Venerdi' speciale: aggiungo .. come quarto vigile SENIOR. *).

Global Instance Categoria_eq_dec : EqDecision Categoria.
Proof. solve_decision. Defined.

Global Instance Messaggio_eq_dec : EqDecision Messaggio.
Proof. solve_decision. Defined.

Record LogEntry := {
  log_giorno : date;
  log_categoria : Categoria;
  log_messaggio : Messaggio;
}.

(** The attributes of a [Scheduler] fixed by [__init__]. *)
Record Scheduler := {
  anno : Z;
  config : ProgramConfig;
  autisti : list string;
  vigili : list string;
  esperienza_vigili : gmap string string;
  forbidden_hard : gset (gset string);
  forbidden_soft : gset (gset string);
  preferenze_hard : gmap string (gset string);
  preferenze_soft : gmap string (gset string);
  weekly_cap : gmap string Z;
  default_weekly_cap : Z;
  rules : gmap string GenerationRuleConfig;
  rule_min_senior : GenerationRuleConfig;
  rule_weekly_cap : GenerationRuleConfig;
  rule_summer : GenerationRuleConfig;
  rule_varchi : GenerationRuleConfig;
  enable_varchi_rule : bool;
  autista_varchi : option string;
  autista_pogliani : option string;
  vigile_escluso_estate : option string;
  min_esperti : Z;
  active_weekdays : gset Z;
  active_months : gset Z;
  date_attive : list date;   (* [self.date] *)
  ferie : gmap string (list Vacation);
  varchi_is_senior : bool;
}.

(** The attributes a run mutates, and the position reached in the stream of
    random draws. *)
Record Stato := {
  cont_aut : Conteggi;
  cont_vig : Conteggi;
  squadre_visti : gset (gset string);
  log : list LogEntry;
  autisti_reali : gmap Z (option string);
  rng : nat;
}.

Definition preferenze (hard : bool) (regole : list PreferredRule)
  : gmap string (gset string) :=
  fold_left
    (λ target rule,
       if bool_decide (pr_is_hard rule = hard)
       then <[pr_autista rule :=
                default ∅ (target !! pr_autista rule) ∪ {[pr_vigile rule]}]> target
       else target)
    regole ∅.

(** [Scheduler.__init__], the immutable part. *)
Definition Scheduler_init (anno : Z) (config : ProgramConfig)
    (months : option (list Z)) : Scheduler :=
  let autisti := sorted_py String.leb (cfg_autisti config) in
  let vigili := sorted_py String.leb (cfg_vigili config) in
  let esperienza_vigili : gmap string string :=
    list_to_map
      (map (λ nome,
              (nome, default LIV_JUNIOR (cfg_esperienza_vigili config !! nome)))
           vigili) in
  let rules := merge_with_defaults (cfg_generation_rules config) in
  let rule_min_senior := rules !!! "min_senior" in
  let rule_weekly_cap := rules !!! "weekly_cap" in
  let rule_summer := rules !!! "summer_exclusion" in
  let rule_varchi := rules !!! "varchi_rotation" in
  let enable_varchi_rule :=
    cfg_enable_varchi_rule config && negb (bool_decide (mode rule_varchi = OFF)) in
  let min_rule_value :=
    match value rule_min_senior with
    | Some v => v
    | None => cfg_min_esperti config
    end in
  let active_weekdays :=
    if bool_decide (cfg_active_weekdays config = ∅) then DEFAULT_ACTIVE_WEEKDAYS
    else cfg_active_weekdays config in
  let active_months : gset Z :=
    match months with
    | Some (m :: ms) => list_to_set (filter (λ m, 1 ≤ m ≤ 12) (m :: ms))
    | _ => range_1_13
    end in
  let active_months :=
    if bool_decide (active_months = ∅) then range_1_13 else active_months in
  (* if the rule is disabled no special name is forced *)
  let autista_varchi :=
    if enable_varchi_rule then cfg_autista_varchi config else None in
  let autista_pogliani :=
    if enable_varchi_rule then cfg_autista_pogliani config else None in
  {| anno := anno;
     config := config;
     autisti := autisti;
     vigili := vigili;
     esperienza_vigili := esperienza_vigili;
     forbidden_hard :=
       list_to_set
         (map (λ rule, frozenset_pair (as_sorted_tuple rule))
              (filter (λ rule, cr_is_hard rule = true) (cfg_coppie_vietate config)));
     forbidden_soft :=
       list_to_set
         (map (λ rule, frozenset_pair (as_sorted_tuple rule))
              (filter (λ rule, cr_is_hard rule = false) (cfg_coppie_vietate config)));
     preferenze_hard := preferenze true (cfg_coppie_preferite config);
     preferenze_soft := preferenze false (cfg_coppie_preferite config);
     weekly_cap := Z.max 0 <$> cfg_weekly_cap config;
     default_weekly_cap := Z.max 0 DEFAULT_WEEKLY_CAP;
     rules := rules;
     rule_min_senior := rule_min_senior;
     rule_weekly_cap := rule_weekly_cap;
     rule_summer := rule_summer;
     rule_varchi := rule_varchi;
     enable_varchi_rule := enable_varchi_rule;
     autista_varchi := autista_varchi;
     autista_pogliani := autista_pogliani;
     vigile_escluso_estate :=
       if bool_decide (mode rule_summer = OFF) then None
       else cfg_vigile_escluso_estate config;
     min_esperti := Z.max 0 min_rule_value;
     active_weekdays := active_weekdays;
     active_months := active_months;
     date_attive := date_attive_anno anno active_weekdays (Some active_months);
     ferie := cfg_ferie config;
     varchi_is_senior :=
       enable_varchi_rule
       && match autista_varchi with
          | Some v =>
              in_list v vigili
              && bool_decide (default LIV_JUNIOR (esperienza_vigili !! v) = LIV_SENIOR)
          | None => false
          end |}.

(** [Scheduler.__init__], the mutable part: empty trackers initialised for
    every driver and crew member, empty log. *)
Definition Stato_init (self : Scheduler) : Stato :=
  {| cont_aut := foldl (λ c nome, assicura_persona nome c) Conteggi_vuoto (autisti self);
     cont_vig := foldl (λ c nome, assicura_persona nome c) Conteggi_vuoto (vigili self);
     squadre_visti := ∅;
     log := [];
     autisti_reali := ∅;
     rng := 0%nat |}.

(** ** The state monad of a run *)

Definition M (A : Type) : Type := Stato → A * Stato.

Global Instance M_ret : MRet M := λ A a st, (a, st).
Global Instance M_bind : MBind M :=
  λ A B k m st, let '(a, st') := m st in k a st'.

Definition leggi : M Stato := λ st, (st, st).

Definition set_cont_aut (c : Conteggi) (st : Stato) : Stato :=
  {| cont_aut := c; cont_vig := cont_vig st; squadre_visti := squadre_visti st;
     log := log st; autisti_reali := autisti_reali st; rng := rng st |}.

Definition set_cont_vig (c : Conteggi) (st : Stato) : Stato :=
  {| cont_aut := cont_aut st; cont_vig := c; squadre_visti := squadre_visti st;
     log := log st; autisti_reali := autisti_reali st; rng := rng st |}.

Definition set_squadre_visti (s : gset (gset string)) (st : Stato) : Stato :=
  {| cont_aut := cont_aut st; cont_vig := cont_vig st; squadre_visti := s;
     log := log st; autisti_reali := autisti_reali st; rng := rng st |}.

Definition set_log (l : list LogEntry) (st : Stato) : Stato :=
  {| cont_aut := cont_aut st; cont_vig := cont_vig st;
     squadre_visti := squadre_visti st;
     log := l; autisti_reali := autisti_reali st; rng := rng st |}.

Definition set_autisti_reali (m : gmap Z (option string)) (st : Stato) : Stato :=
  {| cont_aut := cont_aut st; cont_vig := cont_vig st;
     squadre_visti := squadre_visti st;
     log := log st; autisti_reali := m; rng := rng st |}.

Definition set_rng (n : nat) (st : Stato) : Stato :=
  {| cont_aut := cont_aut st; cont_vig := cont_vig st;
     squadre_visti := squadre_visti st;
     log := log st; autisti_reali := autisti_reali st; rng := n |}.

Definition modifica (f : Stato → Stato) : M unit := λ st, (tt, f st).

(** [Scheduler._log]: appends one entry to [self.log]. *)
Definition _log (giorno : date) (categoria : Categoria) (messaggio : Messaggio)
  : M unit :=
  modifica (λ st,
    set_log (log st ++ [ {| log_giorno := giorno; log_categoria := categoria;
                            log_messaggio := messaggio |} ]) st).

(** A [for] loop run for its effects only. *)
Fixpoint per_ogni {A : Type} (f : A → M unit) (l : list A) : M unit :=
  match l with
  | [] => mret tt
  | x :: l' => _ ← f x; per_ogni f l'
  end.

(** A [for] loop that carries local variables [acc] from one iteration to the
    next. *)
Fixpoint ciclo {A B : Type} (f : A → B → M B) (l : list A) (acc : B) : M B :=
  match l with
  | [] => mret acc
  | x :: l' => acc' ← f x acc; ciclo f l' acc'
  end.

Definition quando (b : bool) (m : M unit) : M unit := if b then m else mret tt.

(** ** Python dictionaries whose order is observed *)

Fixpoint dict_set {K V : Type} `{EqDecision K} (k : K) (v : V) (d : list (K * V))
  : list (K * V) :=
  match d with
  | [] => [(k, v)]
  | (k', v') :: d' =>
      if bool_decide (k = k') then (k, v) :: d' else (k', v') :: dict_set k v d'
  end.

Fixpoint dict_get {K V : Type} `{EqDecision K} (k : K) (d : list (K * V)) : option V :=
  match d with
  | [] => None
  | (k', v') :: d' => if bool_decide (k = k') then Some v' else dict_get k d'
  end.

(** ** Helper methods of [Scheduler] *)

Section Methods.

Variable self : Scheduler.

Definition _limite_settimanale (nome : string) : Z :=
  default (default_weekly_cap self) (weekly_cap self !! nome).

Definition _limite_raggiunto_raw (conteggi : Conteggi) (nome : string)
    (giorno : date) : bool :=
  let cap := _limite_settimanale nome in
  if cap <=? 0 then false
  else cap <=? tot_settimana conteggi nome (_week_key giorno).

Definition _ha_raggiunto_limite (conteggi : Conteggi) (nome : string)
    (giorno : date) : bool :=
  if bool_decide (mode (rule_weekly_cap self) = OFF) then false
  else
    let raggiunto := _limite_raggiunto_raw conteggi nome giorno in
    if raggiunto && bool_decide (mode (rule_weekly_cap self) = SOFT) then false
    else raggiunto.

Definition _in_ferie (nome : string) (giorno : date) : bool :=
  existsb (λ vac, (start vac <=? giorno) && (giorno <=? end_ vac))
    (default [] (ferie self !! nome)).

Definition _preferenze_obbligatorie (autista : option string) : gset string :=
  match autista with
  | Some a => if truthy autista then default ∅ (preferenze_hard self !! a) else ∅
  | None => ∅
  end.

Definition _preferenze_soft (autista : option string) : gset string :=
  match autista with
  | Some a => if truthy autista then default ∅ (preferenze_soft self !! a) else ∅
  | None => ∅
  end.

Definition _numero_vigili_previsti (dow : Z) : Z := 4.

Definition _ordine_giorni (giorni : gmap Z date) : list Z :=
  filter (λ dow, is_Some (giorni !! dow)) [5; 4; 6]
  ++ filter (λ dow, dow ∉ [4; 5; 6]) (sorted_py Z.leb (elements (dom giorni))).

Definition _trova_autista_settimanale (reali : gmap Z (option string))
    (assegnazioni : list (date * Assegnazione)) (giorno : date) (target_dow : Z)
  : option string :=
  let week_key := _week_key giorno in
  match
    filter (λ item,
              _week_key item.1 = week_key ∧ weekday item.1 = target_dow)
           assegnazioni
  with
  | (data, assegnazione) :: _ => default (a_autista assegnazione) (reali !! data)
  | [] => None
  end.

Definition _turno_incompleto (assegnazione : Assegnazione) : bool :=
  match a_autista assegnazione with
  | None => true
  | Some _ => existsb (λ v, bool_decide (v = None)) (a_vigili assegnazione)
  end.

Definition is_senior (nome : string) : bool :=
  bool_decide (default LIV_JUNIOR (esperienza_vigili self !! nome) = LIV_SENIOR).

End Methods.

(** ** The selectors *)

Section Selettori.

(** The draws of [random.random()] in the order they are made (the generator
    seeded by the caller yields one fixed stream), and the order in which the
    interpreter iterates over a set of names. *)
Variable casuale : nat → Z.
Variable iter_set : gset string → list string.

Variable self : Scheduler.

Definition random_random : M Z :=
  λ st, (casuale (rng st), set_rng (S (rng st)) st).

(** [lista.sort(key=...)] where the key ends in a random draw: the keys are
    computed once per element, in list order, and the sort is stable. *)
Definition sort_con_chiave {A : Type} (chiave : A → list Z) (l : list A)
  : M (list A) :=
  chiavi ← ciclo (λ x acc, r ← random_random; mret (acc ++ [(chiave x ++ [r], x)]))
             l [];
  mret (map snd (sorted_py (λ a b : list Z * A, tuple_leb a.1 b.1) chiavi)).

(** [Scheduler._scegli_autista]. *)
Definition _scegli_autista (giorno : date) (esclusioni : gset string)
  : M (option string) :=
  let mese := date_month giorno in
  let dow := weekday giorno in
  let week_key := _week_key giorno in
  st ← leggi;
  let candidati_info : list (string * bool) :=
    flat_map
      (λ nome,
         if bool_decide (nome ∈ esclusioni) then []
         else if _in_ferie self nome giorno then []
         else
           let limit_raw := _limite_raggiunto_raw self (cont_aut st) nome giorno in
           if bool_decide (mode (rule_weekly_cap self) = HARD) && limit_raw then []
           else [(nome, limit_raw)])
      (autisti self) in
  match candidati_info with
  | [] => _ ← _log giorno AUTISTA NessunAutista; mret None
  | _ :: _ =>
      let limit_map : gmap string bool := list_to_map (reverse candidati_info) in
      let candidati := map fst candidati_info in
      let preferiti :=
        filter (λ nome, tot_mese_giorno (cont_aut st) nome mese dow < 1) candidati in
      pool ← match preferiti with
             | [] => _ ← _log giorno AUTISTA DerogaMeseGiornoAutisti; mret candidati
             | _ :: _ => mret preferiti
             end;
      pool ← sort_con_chiave
                (λ nome,
                   [ bool_Z (limit_map !!! nome);
                     tot_settimana (cont_aut st) nome week_key;
                     tot_mese (cont_aut st) nome mese;
                     tot_annuale (cont_aut st) nome;
                     tot_giorno_anno (cont_aut st) nome dow;
                     bool_Z (bool_decide (ultimo_dow (cont_aut st) nome = Some dow)) ])
                pool;
      match pool with
      | [] => mret None   (* not reached: the pool is never empty here *)
      | scelto :: _ =>
          _ ← quando (bool_decide (mode (rule_weekly_cap self) = SOFT)
                       && (limit_map !!! scelto))
                (_log giorno AUTISTA (DerogaLimiteAutista scelto));
          _ ← modifica (λ st, set_cont_aut (aggiungi scelto giorno (cont_aut st)) st);
          mret (Some scelto)
      end
  end.

(** The candidates collected by the first loop of [_scegli_squadra_vigili]. *)
Record Candidati := {
  candidati_base : list string;
  fallback_candidates : list string;
  limit_map : gmap string bool;
  summer_map : gmap string bool;
}.

Definition summer_block (nome : string) (mese : Z) : bool :=
  truthy (vigile_escluso_estate self)
  && bool_decide (Some nome = vigile_escluso_estate self)
  && bool_decide (mese ∈ SUMMER_EXCLUDED_MONTHS)
  && negb (bool_decide (mode (rule_summer self) = OFF)).

Definition raccogli_candidati (cont : Conteggi) (giorno : date)
    (esclusioni : gset string) : Candidati :=
  fold_left
    (λ acc nome,
       if bool_decide (nome ∈ esclusioni) then acc
       else if _in_ferie self nome giorno then acc
       else
         let sb := summer_block nome (date_month giorno) in
         let limit_raw := _limite_raggiunto_raw self cont nome giorno in
         if bool_decide (mode (rule_summer self) = HARD) && sb then acc
         else if bool_decide (mode (rule_weekly_cap self) = HARD) && limit_raw then acc
         else
           {| candidati_base :=
                if sb || limit_raw then candidati_base acc
                else candidati_base acc ++ [nome];
              fallback_candidates :=
                if sb || limit_raw then fallback_candidates acc ++ [nome]
                else fallback_candidates acc;
              limit_map := <[nome := limit_raw]> (limit_map acc);
              summer_map := <[nome := sb]> (summer_map acc) |})
    (vigili self)
    {| candidati_base := []; fallback_candidates := [];
       limit_map := ∅; summer_map := ∅ |}.

(** [disponibili] after the optional extension with the fallback candidates. *)
Definition candidati_disponibili (giorno : date) (n_vigili : Z) (c : Candidati)
  : M (list string) :=
  if (Z.of_nat (length (candidati_base c)) <? n_vigili)
     && negb (bool_decide (fallback_candidates c = []))
  then
    _ ← _log giorno VIGILI
          (DerogaCandidati
             (existsb (λ n, limit_map c !!! n) (fallback_candidates c))
             (existsb (λ n, summer_map c !!! n) (fallback_candidates c))
             (fallback_candidates c));
    mret (candidati_base c ++ fallback_candidates c)
  else mret (candidati_base c).

(** One entry of [soluzioni]: the score, the team and the number of
    discouraged pairs in it. *)
Record Soluzione := {
  punteggio : list Z;
  sol_team : list string;
  violazioni_soft : Z;
}.

(** The body of the loop over [combinazioni]; [acc] holds [soluzioni] and
    [deroga_senior_loggata]. *)
Definition valuta_combinazione (giorno : date) (autista_corrente : option string)
    (disponibili_obbligatori : list string) (ci_sono_senior : bool)
    (extra : list string) (acc : list Soluzione * bool)
  : M (list Soluzione * bool) :=
  let mese := date_month giorno in
  let dow := weekday giorno in
  let week_key := _week_key giorno in
  let '(soluzioni, deroga_senior_loggata) := acc in
  let team := disponibili_obbligatori ++ extra in
  let team_set : gset string := list_to_set team in
  if existsb (λ pair, bool_decide (frozenset_pair pair ∈ forbidden_hard self))
       (coppie team)
  then mret acc
  else
    let senior_count := conta (is_senior self) team in
    let senza_senior :=
      (0 <? min_esperti self) && negb ci_sono_senior && negb deroga_senior_loggata in
    _ ← quando senza_senior (_log giorno VIGILI NessunSenior);
    let deroga_senior_loggata := deroga_senior_loggata || senza_senior in
    let carente :=
      (0 <? min_esperti self) && ci_sono_senior
      && (senior_count <? min_esperti self) in
    if carente && negb (bool_decide (mode (rule_min_senior self) = SOFT))
    then mret (soluzioni, deroga_senior_loggata)
    else
      let pochi := carente && negb deroga_senior_loggata in
      _ ← quando pochi
            (_log giorno VIGILI (PochiSenior senior_count (min_esperti self)));
      let deroga_senior_loggata := deroga_senior_loggata || pochi in
      st ← leggi;
      let cont := cont_vig st in
      let violazioni_soft :=
        conta (λ pair, bool_decide (frozenset_pair pair ∈ forbidden_soft self))
          (coppie team) in
      let violazioni_mese_dow :=
        conta (λ nome, 1 <=? tot_mese_giorno cont nome mese dow) team in
      let squadra_nuova :=
        if bool_decide (team_set ∈ squadre_visti st) then 1 else 0 in
      let carico_settimanale := somma (λ nome, tot_settimana cont nome week_key) team in
      let carico_mensile := somma (λ nome, tot_mese cont nome mese) team in
      let carico_annuale := somma (tot_annuale cont) team in
      let carico_giorno := somma (λ nome, tot_giorno_anno cont nome dow) team in
      let ripetizioni_recenti :=
        conta (λ nome, bool_decide (ultimo_dow cont nome = Some dow)) team in
      let preferenze_soft :=
        - conta (λ nome, bool_decide (nome ∈ _preferenze_soft self autista_corrente))
            team in
      r ← random_random;
      mret (soluzioni
              ++ [ {| punteggio :=
                        [ violazioni_soft; violazioni_mese_dow; squadra_nuova;
                          carico_settimanale; carico_mensile; carico_annuale;
                          carico_giorno; ripetizioni_recenti; preferenze_soft; r ];
                      sol_team := team;
                      violazioni_soft := violazioni_soft |} ],
            deroga_senior_loggata).

(** [Scheduler._scegli_squadra_vigili]. *)
Definition _scegli_squadra_vigili (giorno : date) (n_vigili : Z)
    (autista_corrente : option string) (esclusioni : gset string)
  : M (option (list string)) :=
  if n_vigili <=? 0 then mret (Some [])
  else
    st ← leggi;
    let c := raccogli_candidati (cont_vig st) giorno esclusioni in
    disponibili ← candidati_disponibili giorno n_vigili c;
    if Z.of_nat (length disponibili) <? n_vigili then
      _ ← _log giorno VIGILI
            (CandidatiInsufficienti (Z.of_nat (length disponibili)) n_vigili);
      mret None
    else
      let ci_sono_senior := existsb (is_senior self) disponibili in
      let obbligatori := iter_set (_preferenze_obbligatorie self autista_corrente) in
      let disponibili_obbligatori :=
        filter (λ nome, nome ∈ disponibili) obbligatori in
      let mancanti := filter (λ nome, nome ∉ disponibili) obbligatori in
      _ ← per_ogni (λ nome, _log giorno VIGILI (MancaObbligatorio nome)) mancanti;
      let eccedenti := n_vigili <? Z.of_nat (length disponibili_obbligatori) in
      _ ← quando eccedenti (_log giorno VIGILI ObbligatoriEccedenti);
      let disponibili_obbligatori :=
        if eccedenti then take (Z.to_nat n_vigili) disponibili_obbligatori
        else disponibili_obbligatori in
      let slot_rimanenti :=
        Z.max 0 (n_vigili - Z.of_nat (length disponibili_obbligatori)) in
      let residui :=
        filter (λ nome, nome ∉ disponibili_obbligatori) disponibili in
      if Z.of_nat (length residui) <? slot_rimanenti then
        _ ← _log giorno VIGILI
              (ImpossibileCompletare slot_rimanenti (Z.of_nat (length residui)));
        mret None
      else
        let combinazioni :=
          if 0 <? slot_rimanenti then combinations residui (Z.to_nat slot_rimanenti)
          else [[]] in
        '(soluzioni, _) ←
          ciclo (valuta_combinazione giorno autista_corrente
                   disponibili_obbligatori ci_sono_senior)
            combinazioni ([], false);
        match sorted_py (λ a b, tuple_leb (punteggio a) (punteggio b)) soluzioni with
        | [] => _ ← _log giorno VIGILI NessunaCombinazione; mret None
        | migliore :: _ =>
            let team := sol_team migliore in
            _ ← quando (negb (violazioni_soft migliore =? 0))
                  (_log giorno VIGILI (CoppieSconsigliate (violazioni_soft migliore)));
            st ← leggi;
            _ ← quando (bool_decide (list_to_set team ∈ squadre_visti st))
                  (_log giorno VIGILI (SquadraGiaVista team));
            _ ← quando (bool_decide (mode (rule_weekly_cap self) = SOFT))
                  (per_ogni
                     (λ nome, quando (default false (limit_map c !! nome))
                                (_log giorno VIGILI (DerogaLimiteVigile nome)))
                     team);
            _ ← quando (bool_decide (mode (rule_summer self) = SOFT))
                  (per_ogni
                     (λ nome, quando (default false (summer_map c !! nome))
                                (_log giorno VIGILI (DerogaEstiva nome)))
                     team);
            _ ← per_ogni
                  (λ nome,
                     modifica (λ st, set_cont_vig (aggiungi nome giorno (cont_vig st)) st))
                  team;
            _ ← modifica (λ st,
                  set_squadre_visti (squadre_visti st ∪ {[list_to_set team]}) st);
            mret (Some team)
        end.

(** [Scheduler._aggiungi_varchi_venerdi]. *)
Definition _aggiungi_varchi_venerdi (giorno : date) (squadra : list (option string))
  : M (list (option string)) :=
  match autista_varchi self with
  | None => mret squadra
  | Some varchi =>
      if negb (truthy (autista_varchi self)) then mret squadra
      else if bool_decide (Some varchi ∈ squadra) then mret squadra
      else if _in_ferie self varchi giorno then
        _ ← _log giorno VIGILI (VarchiInFerie (autista_varchi self));
        mret squadra
      else
        st ← leggi;
        if _ha_raggiunto_limite self (cont_vig st) varchi giorno then
          _ ← _log giorno VIGILI (VarchiAlLimite (autista_varchi self));
          mret squadra
        else
          let squadra := squadra ++ [Some varchi] in
          _ ← modifica (λ st, set_cont_vig (aggiungi varchi giorno (cont_vig st)) st);
          _ ← modifica (λ st,
                set_squadre_visti
                  (squadre_visti st
                   ∪ {[list_to_set (omap (λ x, if truthy x then x else None) squadra)]})
                  st);
          _ ← _log giorno VIGILI (VenerdiSpeciale (autista_varchi self));
          mret squadra
  end.

Definition opt_set (o : option string) : gset string :=
  match o with
  | Some s => {[s]}
  | None => ∅
  end.

(** [Scheduler._costruisci_per_data_internal]. *)
Definition _costruisci_per_data_internal (giorno : date)
    (assegnazioni : list (date * Assegnazione))
    (sabato_autista : option string) (apply_varchi : bool)
  : M (Assegnazione * option string) :=
  let dow := weekday giorno in
  let esclude_sabato :=
    apply_varchi && (dow =? 4) && truthy (autista_varchi self)
    && truthy (autista_pogliani self)
    && bool_decide (sabato_autista = autista_pogliani self) in
  let esclusioni_autista : gset string :=
    (if apply_varchi && truthy (autista_varchi self) && negb (dow =? 4)
     then opt_set (autista_varchi self) else ∅)
    ∪ (if esclude_sabato then opt_set (autista_varchi self) else ∅) in
  _ ← quando esclude_sabato
        (_log giorno AUTISTA (SabatoGuida (autista_pogliani self) (autista_varchi self)));
  autista ← _scegli_autista giorno esclusioni_autista;
  let include_varchi :=
    apply_varchi && varchi_is_senior self && (dow =? 4)
    && truthy (autista_varchi self)
    && (bool_decide (autista_pogliani self = None)
        || negb (bool_decide (sabato_autista = autista_pogliani self))) in
  let sostituisci :=
    apply_varchi && varchi_is_senior self && (dow =? 5)
    && bool_decide (autista = autista_pogliani self)
    && truthy (autista_varchi self) in
  let display_autista := if sostituisci then autista_varchi self else autista in
  _ ← quando sostituisci
        (_log giorno AUTISTA
           (VisualizzoVarchi (autista_varchi self) (autista_pogliani self)));
  let vigili_target := _numero_vigili_previsti dow in
  let vigili_base := Z.max 0 (vigili_target - (if include_varchi then 1 else 0)) in
  let esclusioni_vigili : gset string :=
    (if truthy autista then opt_set autista else ∅)
    ∪ (if apply_varchi && truthy (autista_varchi self)
       then opt_set (autista_varchi self) else ∅) in
  squadra ← _scegli_squadra_vigili giorno vigili_base autista esclusioni_vigili;
  match squadra with
  | None =>
      _ ← _log giorno VIGILI TurnoScoperto;
      mret ({| a_giorno := giorno; a_autista := autista;
               a_vigili := [None; None; None; None] |}, autista)
  | Some squadra =>
      let squadra_list := map Some squadra in
      squadra_list ←
        (if include_varchi then _aggiungi_varchi_venerdi giorno squadra_list
         else mret squadra_list);
      let squadra_list :=
        squadra_list ++ replicate (4 - length squadra_list)%nat None in
      mret ({| a_giorno := giorno; a_autista := display_autista;
               a_vigili := take 4 squadra_list |}, autista)
  end.

(** [Scheduler._costruisci_per_data]. *)
Definition _costruisci_per_data (giorno : date)
    (assegnazioni : list (date * Assegnazione)) : M Assegnazione :=
  st ← leggi;
  let sabato_autista :=
    _trova_autista_settimanale (autisti_reali st) assegnazioni giorno 5 in
  '(assegnazione, autista_reale) ←
    _costruisci_per_data_internal giorno assegnazioni sabato_autista
      (enable_varchi_rule self);
  '(assegnazione, autista_reale) ←
    (if enable_varchi_rule self
        && bool_decide (mode (rule_varchi self) = SOFT)
        && _turno_incompleto assegnazione
     then
       (* the special rule prevents covering the shift: retry without it *)
       _ ← _log giorno AUTISTA DerogaRegolaVarchi;
       _costruisci_per_data_internal giorno assegnazioni sabato_autista false
     else mret (assegnazione, autista_reale));
  _ ← modifica (λ st,
        set_autisti_reali (<[giorno := autista_reale]> (autisti_reali st)) st);
  mret assegnazione.

(** The grouping of [self.date] by ISO week at the start of [costruisci]. *)
Definition raggruppa_per_settimana (date_ : list date)
  : list ((Z * Z) * list date) :=
  let per_settimana :=
    fold_left
      (λ per_settimana giorno,
         dict_set (_week_key giorno)
           (default [] (dict_get (_week_key giorno) per_settimana) ++ [giorno])
           per_settimana)
      date_ [] in
  map (λ item, (item.1, sorted_py Z.leb item.2)) per_settimana.

(** The dates of one week in the order [costruisci] handles them. *)
Definition giorni_in_ordine (giorni : list date) : list date :=
  let giorni_per_dow : gmap Z date :=
    fold_left (λ m d, <[weekday d := d]> m) giorni ∅ in
  omap (λ dow, giorni_per_dow !! dow) (_ordine_giorni giorni_per_dow).

(** [Scheduler.costruisci]. *)
Definition costruisci : M (list Assegnazione) :=
  let per_settimana := raggruppa_per_settimana (date_attive self) in
  assegnazioni ←
    ciclo
      (λ item assegnazioni,
         ciclo
           (λ giorno assegnazioni,
              a ← _costruisci_per_data giorno assegnazioni;
              mret (dict_set giorno a assegnazioni))
           (giorni_in_ordine item.2) assegnazioni)
      (sorted_py (λ a b : (Z * Z) * list date, week_key_leb a.1 b.1) per_settimana)
      [];
  mret (omap (λ d, dict_get d assegnazioni)
          (sorted_py Z.leb (map fst assegnazioni))).

End Selettori.

(** A complete run: [Scheduler(anno, config, months).costruisci()], with the
    log and the trackers it leaves behind. *)
Definition esegui (casuale : nat → Z) (iter_set : gset string → list string)
    (anno : Z) (config : ProgramConfig) (months : option (list Z))
  : list Assegnazione * Stato :=
  let self := Scheduler_init anno config months in
  costruisci casuale iter_set self (Stato_init self).

(** ** The command line ([turnivvf.py]) *)

(** The outcome of a step that may end the program through [parser.error]. *)
Definition Esito (A : Type) : Type := string + A.

(** [_parse_months]: the months given on the command line, without
    repetitions; a value outside 1..12 is a usage error. *)
Definition _parse_months (values : option (list Z)) : Esito (option (list Z)) :=
  match values with
  | None | Some [] => inr None
  | Some values =>
      match
        fold_left
          (λ (acc : Esito (list Z)) raw,
             match acc with
             | inl errore => inl errore
             | inr mesi =>
                 if (raw <? 1) || (12 <? raw)
                 then inl "I mesi devono essere compresi tra 1 e 12."%string
                 else inr (if bool_decide (raw ∈ mesi) then mesi else mesi ++ [raw])
             end)
          values (inr [])
      with
      | inl errore => inl errore
      | inr mesi => inr (Some mesi)
      end
  end.

(** * Specification vocabulary *)

Definition voce (giorno : date) (categoria : Categoria) (messaggio : Messaggio)
  : LogEntry :=
  {| log_giorno := giorno; log_categoria := categoria; log_messaggio := messaggio |}.

(** [m] moves every state to one related to it by [R]. *)
Definition conserva {A : Type} (R : relation Stato) (m : M A) : Prop :=
  ∀ st, R st (m st).2.

(** The log only grows, and never by a retry notice. *)
Definition estende (st st' : Stato) : Prop :=
  ∃ nuove, log st' = log st ++ nuove
           ∧ Forall (λ e, log_messaggio e ≠ DerogaRegolaVarchi) nuove.

(** As [estende], with trackers, seen teams and real drivers untouched. *)
Definition solo_log (st st' : Stato) : Prop :=
  cont_aut st' = cont_aut st ∧ cont_vig st' = cont_vig st
  ∧ squadre_visti st' = squadre_visti st
  ∧ autisti_reali st' = autisti_reali st
  ∧ estende st st'.

(** Relations on states that tolerate logging and random draws. *)
Class StatoRel (R : relation Stato) := {
  sr_refl : ∀ st, R st st;
  sr_trans : ∀ a b c, R a b → R b c → R a c;
  sr_log : ∀ st g c m,
    m ≠ DerogaRegolaVarchi → R st (set_log (log st ++ [voce g c m]) st);
  sr_rng : ∀ st n, R st (set_rng n st);
}.

(** Relations on states that also tolerate updates of the trackers and of the
    set of teams already seen. *)
Class StatoRelCarico (R : relation Stato) := {
  src_base :: StatoRel R;
  sr_cont_aut : ∀ st c, R st (set_cont_aut c st);
  sr_cont_vig : ∀ st c, R st (set_cont_vig c st);
  sr_squadre : ∀ st s, R st (set_squadre_visti s st);
}.

(** The log grows without retry notices and the real drivers are untouched. *)
Definition avanza (st st' : Stato) : Prop :=
  autisti_reali st' = autisti_reali st ∧ estende st st'.

Definition voce_retry (giorno : date) : LogEntry :=
  voce giorno AUTISTA DerogaRegolaVarchi.

(** Number of retry notices in a log. *)
Definition conta_retry (l : list LogEntry) : nat :=
  length (filter (λ e, log_messaggio e = DerogaRegolaVarchi) l).

(** [m], started in [st], ends with a value and a state satisfying [Q]. *)
Definition spec {A : Type} (m : M A) (st : Stato) (Q : A → Stato → Prop) : Prop :=
  Q (m st).1 (m st).2.

(** Messages that report a missing driver or crew member. *)
Definition scoperto (m : Messaggio) : Prop :=
  match m with
  | NessunAutista | TurnoScoperto | VarchiInFerie _ | VarchiAlLimite _ => True
  | _ => False
  end.

(** The log reports a shortfall for the date. *)
Definition segnalato (giorno : date) (st : Stato) : Prop :=
  ∃ e, e ∈ log st ∧ log_giorno e = giorno ∧ scoperto (log_messaggio e).

Definition registra (giorno : date) (cont : Conteggi) (nomi : list string)
  : Conteggi :=
  foldl (λ c x, aggiungi x giorno c) cont nomi.



(** The state moved forward: the log grew and no weekly counter went down. *)
Definition progredisce (st st' : Stato) : Prop :=
  (∃ nuove, log st' = log st ++ nuove)
  ∧ (∀ p w, tot_settimana (cont_aut st) p w ≤ tot_settimana (cont_aut st') p w)
  ∧ (∀ p w, tot_settimana (cont_vig st) p w ≤ tot_settimana (cont_vig st') p w).

(** The list [costruisci] returns, from the dictionary it filled. *)
Definition in_ordine_di_data (assegnazioni : list (date * Assegnazione))
  : list Assegnazione :=
  omap (λ d, dict_get d assegnazioni) (sorted_py Z.leb (map fst assegnazioni)).

Definition passo_settimana (per_settimana : list ((Z * Z) * list date))
    (giorno : date) : list ((Z * Z) * list date) :=
  dict_set (_week_key giorno)
    (default [] (dict_get (_week_key giorno) per_settimana) ++ [giorno])
    per_settimana.

(** A grouping by week: distinct keys, and every date filed under its own
    week. *)
Definition gruppi_validi (G : list ((Z * Z) * list date)) : Prop :=
  NoDup (map fst G)
  ∧ ∀ k g d, (k, g) ∈ G → d ∈ g → _week_key d = k.

(** The dates in the order in which [costruisci] handles them: week after
    week, and inside a week Saturday, Friday, Sunday and then the rest. *)
Definition ordine_elaborazione (date_ : list date) : list date :=
  flat_map (λ item : (Z * Z) * list date, giorni_in_ordine item.2)
    (sorted_py (λ a b : (Z * Z) * list date, week_key_leb a.1 b.1)
       (raggruppa_per_settimana date_)).

Section VocPartizione.

Variable self : Scheduler.
Variable cont : Conteggi.
Variable giorno : date.
Variable esclusioni : gset string.

(** A crew member passes the filters of the first loop. *)
Definition ammesso (nome : string) : bool :=
  negb (bool_decide (nome ∈ esclusioni))
  && negb (_in_ferie self nome giorno)
  && negb (bool_decide (mode (rule_summer self) = HARD)
           && summer_block self nome (date_month giorno))
  && negb (bool_decide (mode (rule_weekly_cap self) = HARD)
           && _limite_raggiunto_raw self cont nome giorno).

(** A crew member that passes the filters is kept back as a fallback. *)
Definition in_deroga (nome : string) : bool :=
  summer_block self nome (date_month giorno)
  || _limite_raggiunto_raw self cont nome giorno.

Definition passo_raccolta (acc : Candidati) (nome : string) : Candidati :=
  if ammesso nome then
    {| candidati_base :=
         if in_deroga nome then candidati_base acc else candidati_base acc ++ [nome];
       fallback_candidates :=
         if in_deroga nome then fallback_candidates acc ++ [nome]
         else fallback_candidates acc;
       limit_map := <[nome := _limite_raggiunto_raw self cont nome giorno]> (limit_map acc);
       summer_map := <[nome := summer_block self nome (date_month giorno)]> (summer_map acc) |}
  else acc.

End VocPartizione.

Section VocAutista.

Variable self : Scheduler.

(** What [_scegli_autista] returns and what it does to the state. *)
Definition esito_autista (giorno : date) (esclusioni : gset string)
    (st : Stato) (r : option string) (st' : Stato) : Prop :=
  cont_vig st' = cont_vig st
  ∧ squadre_visti st' = squadre_visti st
  ∧ autisti_reali st' = autisti_reali st
  ∧ estende st st'
  ∧ match r with
    | None =>
        cont_aut st' = cont_aut st
        ∧ voce giorno AUTISTA NessunAutista ∈ log st'
    | Some scelto =>
        cont_aut st' = aggiungi scelto giorno (cont_aut st)
        ∧ scelto ∈ autisti self
        ∧ (scelto ∉ esclusioni)
        ∧ (mode (rule_weekly_cap self) = HARD →
           _limite_raggiunto_raw self (cont_aut st) scelto giorno = false)
    end.

End VocAutista.

Section VocSquadra.

Variable iter_set : gset string → list string.
Variable self : Scheduler.

(** What [_scegli_squadra_vigili] returns and what it does to the state. *)
Definition esito_squadra (giorno : date) (n_vigili : Z) (autista : option string)
    (esclusioni : gset string) (st : Stato) (r : option (list string))
    (st' : Stato) : Prop :=
  cont_aut st' = cont_aut st
  ∧ autisti_reali st' = autisti_reali st
  ∧ estende st st'
  ∧ match r with
    | None => cont_vig st' = cont_vig st
    | Some team =>
        cont_vig st' = foldl (λ c x, aggiungi x giorno c) (cont_vig st) team
        ∧ Z.of_nat (length team) = Z.max 0 n_vigili
        ∧ (∀ x, x ∈ team →
             x ∈ vigili self
             ∧ ammesso self (cont_vig st) giorno esclusioni x = true)
        ∧ (NoDup (vigili self) →
           NoDup (iter_set (_preferenze_obbligatorie self autista)) →
           NoDup team)
    end.

End VocSquadra.

Section VocBonus.

Variable self : Scheduler.

(** What [_aggiungi_varchi_venerdi] returns and what it does to the state. *)
Definition esito_bonus (giorno : date) (squadra : list (option string))
    (varchi : string) (st : Stato) (r : list (option string)) (st' : Stato) : Prop :=
  cont_aut st' = cont_aut st
  ∧ autisti_reali st' = autisti_reali st
  ∧ estende st st'
  ∧ ((r = squadra ∧ cont_vig st' = cont_vig st ∧ segnalato giorno st')
     ∨ (r = squadra ++ [Some varchi]
        ∧ cont_vig st' = aggiungi varchi giorno (cont_vig st)
        ∧ _ha_raggiunto_limite self (cont_vig st) varchi giorno = false)).

End VocBonus.

Section VocComposizione.

Variable self : Scheduler.

(** What one composition of a date returns and what it does to the state:
    the trackers record exactly the real driver and the crew of the
    Assignment. *)
Definition esito_interno (giorno : date) (st : Stato)
    (r : Assegnazione * option string) (st' : Stato) : Prop :=
  a_giorno r.1 = giorno
  ∧ length (a_vigili r.1) = 4%nat
  ∧ autisti_reali st' = autisti_reali st
  ∧ estende st st'
  ∧ cont_aut st' = registra giorno (cont_aut st) (option_list r.2)
  ∧ (mode (rule_weekly_cap self) = HARD →
     ∀ s, r.2 = Some s → _limite_raggiunto_raw self (cont_aut st) s giorno = false)
  ∧ cont_vig st' = registra giorno (cont_vig st) (omap id (a_vigili r.1))
  ∧ (mode (rule_weekly_cap self) = HARD →
     ∀ p, Some p ∈ a_vigili r.1 →
          _limite_raggiunto_raw self (cont_vig st) p giorno = false)
  ∧ (_turno_incompleto r.1 = true → segnalato giorno st').

End VocComposizione.

Section VocData.

Variable self : Scheduler.

(** What [_costruisci_per_data] returns and what it does to the state: every
    crew member and the real driver of the Assignment were below their cap
    when the date was started (in mode hard), and each has one more shift
    recorded for the week afterwards. *)
Definition esito_data (giorno : date) (st : Stato) (a : Assegnazione)
    (st' : Stato) : Prop :=
  a_giorno a = giorno
  ∧ length (a_vigili a) = 4%nat
  ∧ progredisce st st'
  ∧ (_turno_incompleto a = true → segnalato giorno st')
  ∧ (∀ p, Some p ∈ a_vigili a →
       (mode (rule_weekly_cap self) = HARD →
        _limite_raggiunto_raw self (cont_vig st) p giorno = false)
       ∧ tot_settimana (cont_vig st) p (_week_key giorno) + 1
         ≤ tot_settimana (cont_vig st') p (_week_key giorno))
  ∧ ∃ reale,
      autisti_reali st' = <[giorno := reale]> (autisti_reali st)
      ∧ ∀ s, reale = Some s →
          (mode (rule_weekly_cap self) = HARD →
           _limite_raggiunto_raw self (cont_aut st) s giorno = false)
          ∧ tot_settimana (cont_aut st) s (_week_key giorno) + 1
            ≤ tot_settimana (cont_aut st') s (_week_key giorno).

End VocData.

Section VocCorsa.

Variable casuale : nat → Z.
Variable iter_set : gset string → list string.
Variable self : Scheduler.

(** The body of the loops of [costruisci]: compose the date and store the
    Assignment under it. *)
Definition passo_data (giorno : date) (assegnazioni : list (date * Assegnazione))
  : M (list (date * Assegnazione)) :=
  a ← _costruisci_per_data casuale iter_set self giorno assegnazioni;
  mret (dict_set giorno a assegnazioni).


End VocCorsa.

(** ** Example configurations *)

Definition config_esempio (aut vig : list string) (senior : list string)
    (caps : gmap string Z) (vietate : list ConstraintRule)
    (preferite : list PreferredRule) (varchi : option string)
    (giorni : gset Z) (regole : gmap string GenerationRuleConfig) : ProgramConfig :=
  {| cfg_autisti := aut;
     cfg_vigili := vig;
     cfg_esperienza_vigili := list_to_map (map (λ nome, (nome, LIV_SENIOR)) senior);
     cfg_weekly_cap := caps;
     cfg_coppie_vietate := vietate;
     cfg_coppie_preferite := preferite;
     cfg_autista_varchi := varchi;
     cfg_autista_pogliani := None;
     cfg_vigile_escluso_estate := None;
     cfg_min_esperti := 1;
     cfg_ferie := ∅;
     cfg_active_weekdays := giorni;
     cfg_enable_varchi_rule := true;
     cfg_generation_rules := regole |}.

Definition regola (nome : string) (m : RuleMode) : gmap string GenerationRuleConfig :=
  {[ nome := {| mode := m; value := None |} ]}.

(** One driver, four junior crew members, Saturdays; the weekly cap of Neri is
    configured as -2, and the weekly-cap rule has the given mode. *)
Definition config_cap (m : RuleMode) : ProgramConfig :=
  config_esempio ["Rossi"] ["Bianchi"; "Neri"; "Verdi"; "Gialli"] []
    {["Neri" := -2]} [] [] None {[5]} (regola "weekly_cap" m).

(** As above with the default cap of one shift per week for everybody. *)
Definition config_cap_default (m : RuleMode) : ProgramConfig :=
  config_esempio ["Rossi"] ["Bianchi"; "Neri"; "Verdi"; "Gialli"] []
    ∅ [] [] None {[5]} (regola "weekly_cap" m).

(** One driver, three junior crew members and the senior Varchi, who is the
    rotation driver; Bianchi and Varchi form a hard forbidden pair; Fridays. *)
Definition config_venerdi_coppia : ProgramConfig :=
  config_esempio ["Rossi"] ["Bianchi"; "Neri"; "Verdi"; "Varchi"] ["Varchi"] ∅
    [ {| primo := "Varchi"; secondo := "Bianchi"; cr_is_hard := true |} ]
    [] (Some "Varchi") {[4]} ∅.

(** Varchi is the only driver and also a senior crew member; Fridays. *)
Definition config_venerdi_varchi : ProgramConfig :=
  config_esempio ["Varchi"] ["Bianchi"; "Neri"; "Verdi"; "Varchi"] ["Varchi"] ∅
    [] [] (Some "Varchi") {[4]} ∅.

(** Four junior crew members and the senior Zani, who is in a hard forbidden
    pair with Bianchi and with Gialli; the minimum-seniors rule has the given
    mode; Saturdays. *)
Definition config_senior (m : RuleMode) : ProgramConfig :=
  config_esempio ["Rossi"] ["Bianchi"; "Gialli"; "Neri"; "Verdi"; "Zani"] ["Zani"] ∅
    [ {| primo := "Zani"; secondo := "Bianchi"; cr_is_hard := true |};
      {| primo := "Zani"; secondo := "Gialli"; cr_is_hard := true |} ]
    [] None {[5]} (regola "min_senior" m).

(** The rotation driver Varchi is the only driver; four junior crew members;
    the rotation rule has the given mode; Saturdays. *)
Definition config_sabato_varchi (m : RuleMode) : ProgramConfig :=
  config_esempio ["Varchi"] ["Bianchi"; "Gialli"; "Neri"; "Verdi"] [] ∅
    [] [] (Some "Varchi") {[5]} (regola "varchi_rotation" m).

(** The rotation driver Varchi is the only driver and also a senior crew
    member beside four junior ones; no second rotation driver is configured;
    the rotation rule has the given mode; Saturdays. *)
Definition config_sabato_varchi_senior (m : RuleMode) : ProgramConfig :=
  config_esempio ["Varchi"] ["Bianchi"; "Gialli"; "Neri"; "Verdi"; "Varchi"]
    ["Varchi"] ∅ [] [] (Some "Varchi") {[5]} (regola "varchi_rotation" m).

(** The driver Rossi has two hard-preferred crew members; Saturdays. *)
Definition config_preferiti : ProgramConfig :=
  config_esempio ["Rossi"] ["Bianchi"; "Gialli"; "Neri"; "Verdi"] [] ∅ []
    [ {| pr_autista := "Rossi"; pr_vigile := "Bianchi"; pr_is_hard := true |};
      {| pr_autista := "Rossi"; pr_vigile := "Gialli"; pr_is_hard := true |} ]
    None {[5]} ∅.

Definition gennaio : option (list Z) := Some [1].

(** Two iteration orders for a set of names. *)
Definition ordine_alfabetico (X : gset string) : list string :=
  sorted_py String.leb (elements X).

Definition ordine_inverso (X : gset string) : list string :=
  reverse (ordine_alfabetico X).


(** ** Vocabulary of the properties of selection, composition and run *)

(** One turn of the loop of [_parse_months] on a valid month. *)
Definition passo_mese (mesi : list Z) (raw : Z) : list Z :=
  if bool_decide (raw ∈ mesi) then mesi else mesi ++ [raw].

Section VocScelta.

Variable self : Scheduler.

(** A driver passes the filters of the first loop of [_scegli_autista]. *)
Definition autista_idoneo (cont : Conteggi) (giorno : date)
    (esclusioni : gset string) (nome : string) : bool :=
  negb (bool_decide (nome ∈ esclusioni))
  && negb (_in_ferie self nome giorno)
  && negb (bool_decide (mode (rule_weekly_cap self) = HARD)
           && _limite_raggiunto_raw self cont nome giorno).

(** The sort key of a driver, without the random draw that ends it. *)
Definition chiave_autista (cont : Conteggi) (giorno : date) (nome : string)
  : list Z :=
  [ bool_Z (_limite_raggiunto_raw self cont nome giorno);
    tot_settimana cont nome (_week_key giorno);
    tot_mese cont nome (date_month giorno);
    tot_annuale cont nome;
    tot_giorno_anno cont nome (weekday giorno);
    bool_Z (bool_decide (ultimo_dow cont nome = Some (weekday giorno))) ].

(** The drivers among whom [_scegli_autista] chooses: those who pass the
    filters and have not yet served on that weekday in that month, or all
    who pass the filters when there is none of the former. *)
Definition pool_autisti (cont : Conteggi) (giorno : date)
    (esclusioni : gset string) : list string :=
  let idonei :=
    filter (λ nome, autista_idoneo cont giorno esclusioni nome = true)
      (autisti self) in
  let liberi :=
    filter (λ nome, tot_mese_giorno cont nome (date_month giorno) (weekday giorno) < 1)
      idonei in
  match liberi with
  | [] => idonei
  | _ :: _ => liberi
  end.

End VocScelta.

Section VocVincoli.

Variable iter_set : gset string → list string.
Variable self : Scheduler.

(** No two members of the team form a hard forbidden pair. *)
Definition senza_coppie_vietate (team : list string) : Prop :=
  ∀ a b, a ∈ team → b ∈ team → a ≠ b → {[a; b]} ∉ forbidden_hard self.

(** What [_scegli_squadra_vigili] guarantees about the team it returns, beside
    the driver [autista] and with the tracker [cont] of the crew members. *)
Definition squadra_valida (cont : Conteggi) (giorno : date) (n_vigili : Z)
    (autista : option string) (esclusioni : gset string) (team : list string)
  : Prop :=
  senza_coppie_vietate team
  ∧ (mode (rule_min_senior self) ≠ SOFT →
     (∃ x, x ∈ vigili self ∧ is_senior self x = true
           ∧ ammesso self cont giorno esclusioni x = true
           ∧ in_deroga self cont giorno x = false) →
     min_esperti self ≤ conta (is_senior self) team)
  ∧ (Z.of_nat (length (iter_set (_preferenze_obbligatorie self autista))) ≤ n_vigili →
     ∀ x, x ∈ iter_set (_preferenze_obbligatorie self autista) →
          x ∈ vigili self →
          ammesso self cont giorno esclusioni x = true →
          in_deroga self cont giorno x = false →
          x ∈ team)
  ∧ (n_vigili
     ≤ Z.of_nat (length (filter (λ x, ammesso self cont giorno esclusioni x
                                      && negb (in_deroga self cont giorno x) = true)
                           (vigili self))) →
     ∀ x, x ∈ team → in_deroga self cont giorno x = false).

(** A combination enters [soluzioni] only if it has no hard forbidden pair
    and, unless the minimum-seniors rule is soft, enough seniors. *)
Definition filtri_superati (senior : bool) (team : list string) : Prop :=
  existsb (λ pair, bool_decide (frozenset_pair pair ∈ forbidden_hard self))
    (coppie team) = false
  ∧ ((0 <? min_esperti self) && senior
     && (conta (is_senior self) team <? min_esperti self) = true →
     mode (rule_min_senior self) = SOFT).

End VocVincoli.

Section VocComposto.

Variable iter_set : gset string → list string.
Variable self : Scheduler.

(** What [_costruisci_per_data_internal] guarantees about the Assignment and
    the real driver it returns, whatever the state it starts from. [speciale]
    says that the rotation rule is in force for this composition. *)
Definition composto (apply_varchi : bool) (giorno : date)
    (sabato_autista : option string) (r : Assegnazione * option string) : Prop :=
  let a := r.1 in
  let reale := r.2 in
  let dow := weekday giorno in
  let speciale := apply_varchi && truthy (autista_varchi self) in
  a_giorno a = giorno
  ∧ (∀ s, reale = Some s →
       s ∈ autisti self
       ∧ _in_ferie self s giorno = false
       ∧ (speciale = true → autista_varchi self = Some s →
          dow = 4
          ∧ ¬ (truthy (autista_pogliani self) = true
               ∧ sabato_autista = autista_pogliani self)))
  ∧ (a_autista a = reale
     ∨ (speciale = true ∧ varchi_is_senior self = true ∧ dow = 5
        ∧ reale = autista_pogliani self ∧ a_autista a = autista_varchi self))
  ∧ (a_vigili a = [None; None; None; None]
     ∨ ∃ team bonus,
         a_vigili a = map Some team ++ bonus
         ∧ (∀ x, x ∈ team →
              x ∈ vigili self
              ∧ _in_ferie self x giorno = false
              ∧ (truthy reale = true → reale ≠ Some x)
              ∧ (speciale = true → autista_varchi self ≠ Some x)
              ∧ (mode (rule_summer self) = HARD →
                 summer_block self x (date_month giorno) = false))
         ∧ senza_coppie_vietate self team
         ∧ (NoDup (vigili self) →
            NoDup (iter_set (_preferenze_obbligatorie self reale)) → NoDup team)
         ∧ ((length team = 4%nat ∧ bonus = [])
            ∨ (length team = 3%nat ∧ speciale = true
               ∧ varchi_is_senior self = true ∧ dow = 4
               ∧ (autista_pogliani self = None
                  ∨ sabato_autista ≠ autista_pogliani self)
               ∧ (bonus = [None]
                  ∨ ∃ v, autista_varchi self = Some v
                         ∧ _in_ferie self v giorno = false
                         ∧ bonus = [Some v])))).

End VocComposto.

Section VocDataPiena.

Variable iter_set : gset string → list string.
Variable self : Scheduler.

(** What [_costruisci_per_data] returns and what it does to the state.
    [riprovato] says that the date was composed a second time without the
    rotation rule; [scarto_aut] and [scarto_vig] are the driver and the crew
    members of the composition that was then discarded. *)
Definition esito_data_pieno (giorno : date)
    (assegnazioni : list (date * Assegnazione)) (st : Stato)
    (a : Assegnazione) (st' : Stato) : Prop :=
  ∃ (reale : option string) (riprovato : bool) (scarto_aut scarto_vig : list string),
    autisti_reali st' = <[giorno := reale]> (autisti_reali st)
    ∧ composto iter_set self
        (if riprovato then false else enable_varchi_rule self) giorno
        (_trova_autista_settimanale (autisti_reali st) assegnazioni giorno 5)
        (a, reale)
    ∧ cont_aut st' = registra giorno (cont_aut st) (scarto_aut ++ option_list reale)
    ∧ cont_vig st' = registra giorno (cont_vig st) (scarto_vig ++ omap id (a_vigili a))
    ∧ (∃ nuove, log st' = log st ++ nuove)
    ∧ if riprovato
      then enable_varchi_rule self = true ∧ mode (rule_varchi self) = SOFT
           ∧ voce_retry giorno ∈ log st'
      else scarto_aut = [] ∧ scarto_vig = [].

End VocDataPiena.

(** The place of a weekday among the dates of one week as [costruisci]
    composes them: Saturday, Friday, Sunday, then Monday to Thursday. *)
Definition rango (dow : Z) : Z :=
  if dow =? 5 then 0 else if dow =? 4 then 1 else if dow =? 6 then 2 else 3 + dow.

(** An ISO week comes before another. *)
Definition settimana_prima (k1 k2 : Z * Z) : Prop :=
  k1.1 < k2.1 ∨ (k1.1 = k2.1 ∧ k1.2 < k2.2).

(** [d1] is composed before [d2]: its ISO week comes first, or the two dates
    are of the same ISO week and the weekday of [d1] has the lower rank. *)
Definition precede (d1 d2 : date) : Prop :=
  settimana_prima (_week_key d1) (_week_key d2)
  ∨ (_week_key d1 = _week_key d2 ∧ rango (weekday d1) < rango (weekday d2)).

Section VocCorsaComposta.

Variable iter_set : gset string → list string.
Variable self : Scheduler.

(** [sabato] is the real driver recorded for the Saturday of the ISO week of
    the Friday [d], if that Saturday is in the calendar. *)
Definition sabato_della_settimana (reali : gmap Z (option string)) (d : date)
    (sabato : option string) : Prop :=
  weekday d = 4 →
  ∀ s, s ∈ date_attive self → _week_key s = _week_key d → weekday s = 5 →
       reali !! s = Some sabato.

(** Every Assignment stored so far was composed as [composto] says, for the
    real driver recorded under its date and, on a Friday, for the real driver
    of the Saturday of the same week. *)
Definition inv_composto (fatti : list date) (acc : list (date * Assegnazione))
    (st : Stato) : Prop :=
  ∀ d a, (d, a) ∈ acc →
    ∃ (reale : option string) (riprovato : bool) (sabato : option string),
      autisti_reali st !! d = Some reale
      ∧ composto iter_set self
          (if riprovato then false else enable_varchi_rule self) d sabato (a, reale)
      ∧ (riprovato = true →
         mode (rule_varchi self) = SOFT ∧ voce_retry d ∈ log st)
      ∧ sabato_della_settimana (autisti_reali st) d sabato.

End VocCorsaComposta.

(** The totals of a tracker agree with each other: for every person the
    annual total is the sum of the twelve monthly totals and the sum of the
    seven weekday totals, and every monthly total is the sum of the seven
    totals by weekday of that month. *)
Definition coerente (c : Conteggi) : Prop :=
  ∀ p,
    tot_annuale c p = somma (tot_mese c p) (seqZ 1 12)
    ∧ tot_annuale c p = somma (tot_giorno_anno c p) (seqZ 0 7)
    ∧ ∀ m, 1 ≤ m ≤ 12 →
        tot_mese c p m = somma (tot_mese_giorno c p m) (seqZ 0 7).

(** The crew slots of the Assignments [l] that hold [p]. *)
Definition presenze (p : string) (l : list Assegnazione) : Z :=
  somma (λ a, conta (λ v, bool_decide (v = Some p)) (a_vigili a)) l.

(** The Assignments of [l] whose load as driver is attributed to [p]. *)
Definition guide (reali : gmap Z (option string)) (p : string)
    (l : list Assegnazione) : Z :=
  conta (λ a, bool_decide (reali !! a_giorno a = Some (Some p))) l.

Definition del_mese (m : Z) (l : list Assegnazione) : list Assegnazione :=
  filter (λ a, date_month (a_giorno a) = m) l.

Section VocConteggi.

Variable self : Scheduler.

(** The trackers agree with the Assignments stored so far. *)
Definition inv_conteggi (fatti : list date) (acc : list (date * Assegnazione))
    (st : Stato) : Prop :=
  (∀ d a, (d, a) ∈ acc → a_giorno a = d)
  ∧ ∀ p,
      tot_annuale (cont_vig st) p = presenze p (map snd acc)
      ∧ tot_annuale (cont_aut st) p = guide (autisti_reali st) p (map snd acc)
      ∧ ∀ m, 1 ≤ m ≤ 12 →
          tot_mese (cont_vig st) p m = presenze p (del_mese m (map snd acc))
          ∧ tot_mese (cont_aut st) p m
            = guide (autisti_reali st) p (del_mese m (map snd acc)).

(** The trackers of both roles are coherent. *)
Definition inv_coerente (fatti : list date) (acc : list (date * Assegnazione))
    (st : Stato) : Prop :=
  coerente (cont_aut st) ∧ coerente (cont_vig st).

End VocConteggi.

(** Every Assignment stored so far has its date and four crew slots; one
    that shows no driver or has an empty crew slot comes with a log entry of
    its date that reports the shortfall; and a date for which no driver was
    found has the entry that says so. *)
Definition inv_esito (fatti : list date) (acc : list (date * Assegnazione))
    (st : Stato) : Prop :=
  ∀ d a, (d, a) ∈ acc →
    a_giorno a = d
    ∧ length (a_vigili a) = 4%nat
    ∧ (_turno_incompleto a = true → segnalato d st)
    ∧ ∃ reale, autisti_reali st !! d = Some reale
               ∧ (reale = None → voce d AUTISTA NessunAutista ∈ log st).

(** * Properties *)

(** ** The embedding on concrete inputs *)

Example date_2024_01_05 :
  _ymd2ord 2024 1 5 = 738890 /\ _ord2ymd 738890 = (2024, 1, 5)
  /\ weekday 738890 = 4 /\ isocalendar 738890 = (2024, 1).
Proof. repeat split; reflexivity. Qed.

Example isocalendar_edges :
  isocalendar (_ymd2ord 2021 1 1) = (2020, 53)
  /\ isocalendar (_ymd2ord 2024 12 30) = (2025, 1)
  /\ isocalendar (_ymd2ord 2023 1 1) = (2022, 52)
  /\ _ord2ymd (_ymd2ord 2024 2 29) = (2024, 2, 29)
  /\ _ord2ymd (_ymd2ord 2024 12 31) = (2024, 12, 31)
  /\ _ord2ymd (_ymd2ord 2100 3 1) = (2100, 3, 1).
Proof. repeat split; reflexivity. Qed.

Example combinations_3_2 :
  combinations ["a"; "b"; "c"] 2 = [["a"; "b"]; ["a"; "c"]; ["b"; "c"]]
  /\ coppie ["a"; "b"; "c"] = [("a", "b"); ("a", "c"); ("b", "c")]
  /\ sorted_py String.leb ["Neri"; "Bianchi"; "Rossi"] = ["Bianchi"; "Neri"; "Rossi"].
Proof. repeat split; reflexivity. Qed.

Example date_attive_gennaio_2024 :
  date_attive_anno 2024 {[5]} (Some {[1]})
  = [_ymd2ord 2024 1 6; _ymd2ord 2024 1 13; _ymd2ord 2024 1 20; _ymd2ord 2024 1 27].
Proof. vm_compute. reflexivity. Qed.

Example conteggi_aggiungi :
  let c := aggiungi "Rossi" (_ymd2ord 2024 1 5) Conteggi_vuoto in
  tot_annuale c "Rossi" = 1 /\ tot_mese c "Rossi" 1 = 1
  /\ tot_mese_giorno c "Rossi" 1 4 = 1 /\ tot_giorno_anno c "Rossi" 4 = 1
  /\ tot_settimana c "Rossi" (2024, 1) = 1 /\ ultimo_dow c "Rossi" = Some 4
  /\ tot_settimana c "Rossi" (2024, 2) = 0 /\ tot_annuale c "Neri" = 0.
Proof. vm_compute. repeat split; reflexivity. Qed.

(** ** Reasoning about computations in [M] *)

Lemma estende_refl st : estende st st.
Proof. exists []. split; [by rewrite app_nil_r | constructor]. Qed.

Lemma estende_trans a b c : estende a b → estende b c → estende a c.
Proof.
  intros (n1 & E1 & F1) (n2 & E2 & F2). exists (n1 ++ n2). split.
  - by rewrite E2, E1, app_assoc.
  - by apply Forall_app.
Qed.

Global Instance estende_StatoRel : StatoRel estende.
Proof.
  split.
  - apply estende_refl.
  - apply estende_trans.
  - intros st g c m Hm. exists [voce g c m]. split; [done |].
    constructor; [done | constructor].
  - intros st n. exists []. split; [by rewrite app_nil_r | constructor].
Qed.

Global Instance solo_log_StatoRel : StatoRel solo_log.
Proof.
  split.
  - intros st. repeat split; try done. apply estende_refl.
  - intros a b c (A1 & A2 & A3 & A4 & A5) (B1 & B2 & B3 & B4 & B5).
    repeat split; try congruence. by eapply estende_trans.
  - intros st g c m Hm. repeat split; try done. by apply (sr_log (R := estende)).
  - intros st n. repeat split; try done. apply (sr_rng (R := estende)).
Qed.

Section Conserva.

Context {R : relation Stato} `{!StatoRel R}.

Lemma conserva_ret {A} (a : A) : conserva R (mret a).
Proof. intros st. apply sr_refl. Qed.

Lemma conserva_bind {A B} (m : M A) (k : A → M B) :
  conserva R m → (∀ a, conserva R (k a)) → conserva R (m ≫= k).
Proof.
  intros Hm Hk st. unfold mbind, M_bind.
  specialize (Hm st). destruct (m st) as [a st1]. simpl in Hm.
  eapply sr_trans; [exact Hm | apply Hk].
Qed.

Lemma conserva_leggi : conserva R leggi.
Proof. intros st. apply sr_refl. Qed.

Lemma conserva_log g c m : m ≠ DerogaRegolaVarchi → conserva R (_log g c m).
Proof. intros Hm st. by apply sr_log. Qed.

Lemma conserva_quando b m : conserva R m → conserva R (quando b m).
Proof. intros Hm. destruct b; [done | apply conserva_ret]. Qed.

Lemma conserva_per_ogni {A} (f : A → M unit) l :
  (∀ x, conserva R (f x)) → conserva R (per_ogni f l).
Proof.
  intros Hf. induction l as [| x l IH]; simpl.
  - apply conserva_ret.
  - apply conserva_bind; [apply Hf | intros _; apply IH].
Qed.

Lemma conserva_ciclo {A B} (f : A → B → M B) l acc :
  (∀ x b, conserva R (f x b)) → conserva R (ciclo f l acc).
Proof.
  intros Hf. revert acc. induction l as [| x l IH]; intros acc; simpl.
  - apply conserva_ret.
  - apply conserva_bind; [apply Hf | intros b; apply IH].
Qed.

Lemma conserva_random casuale : conserva R (random_random casuale).
Proof. intros st. apply sr_rng. Qed.

End Conserva.

(** One step of the syntax-directed proof that a computation only logs and
    draws random numbers. *)
Ltac conserva_passo :=
  lazymatch goal with
  | |- conserva _ (mret _) => apply conserva_ret
  | |- conserva _ (mbind _ _) => apply conserva_bind; [| intros ?]
  | |- conserva _ leggi => apply conserva_leggi
  | |- conserva _ (_log _ _ _) => apply conserva_log; discriminate
  | |- conserva _ (quando _ _) => apply conserva_quando
  | |- conserva _ (per_ogni _ _) => apply conserva_per_ogni; intros ?
  | |- conserva _ (ciclo _ _ _) => apply conserva_ciclo; intros ? ?
  | |- conserva _ (random_random _) => apply conserva_random
  | |- conserva _ (if ?b then _ else _) => destruct b
  | |- conserva _ (match ?x with _ => _ end) => destruct x
  | |- conserva _ (let _ := _ in _) => cbv zeta
  end.

Ltac conserva_tac := repeat conserva_passo.

Section BlocchiSoloLog.

Context {R : relation Stato} `{!StatoRel R}.
Variable casuale : nat → Z.
Variable self : Scheduler.

Lemma conserva_sort_con_chiave {A} (chiave : A → list Z) l :
  conserva R (sort_con_chiave casuale chiave l).
Proof. unfold sort_con_chiave. conserva_tac. Qed.

Lemma conserva_candidati_disponibili giorno n c :
  conserva R (candidati_disponibili giorno n c).
Proof. unfold candidati_disponibili. conserva_tac. Qed.

Lemma conserva_valuta_combinazione giorno aut obbl senior extra acc :
  conserva R (valuta_combinazione casuale self giorno aut obbl senior extra acc).
Proof. unfold valuta_combinazione. conserva_tac. Qed.

End BlocchiSoloLog.

(** ** The candidate partition of the crew selector *)

Section Partizione.

Variable self : Scheduler.
Variable cont : Conteggi.
Variable giorno : date.
Variable esclusioni : gset string.

Lemma raccogli_candidati_fold :
  raccogli_candidati self cont giorno esclusioni
  = fold_left (passo_raccolta self cont giorno esclusioni) (vigili self)
      {| candidati_base := []; fallback_candidates := [];
         limit_map := ∅; summer_map := ∅ |}.
Proof.
  unfold raccogli_candidati. generalize (vigili self).
  generalize {| candidati_base := []; fallback_candidates := [];
                limit_map := ∅; summer_map := ∅ |}.
  intros acc l. revert acc. induction l as [| nome l IH]; intros acc; [done |].
  simpl. rewrite IH. f_equal. unfold passo_raccolta, ammesso, in_deroga.
  destruct (bool_decide (nome ∈ esclusioni)); [done |].
  destruct (_in_ferie self nome giorno); [done |]. simpl.
  destruct (bool_decide (mode (rule_summer self) = HARD)
            && summer_block self nome (date_month giorno)); [done |].
  destruct (bool_decide (mode (rule_weekly_cap self) = HARD)
            && _limite_raggiunto_raw self cont nome giorno); done.
Qed.

Lemma passo_raccolta_base acc x :
  candidati_base (passo_raccolta self cont giorno esclusioni acc x)
  = candidati_base acc ++ (if ammesso self cont giorno esclusioni x && negb (in_deroga self cont giorno x) then [x] else []).
Proof.
  unfold passo_raccolta. destruct (ammesso self cont giorno esclusioni x), (in_deroga self cont giorno x); simpl;
    by rewrite ?app_nil_r.
Qed.

Lemma passo_raccolta_fallback acc x :
  fallback_candidates (passo_raccolta self cont giorno esclusioni acc x)
  = fallback_candidates acc ++ (if ammesso self cont giorno esclusioni x && in_deroga self cont giorno x then [x] else []).
Proof.
  unfold passo_raccolta. destruct (ammesso self cont giorno esclusioni x), (in_deroga self cont giorno x); simpl;
    by rewrite ?app_nil_r.
Qed.

Lemma passo_raccolta_limit_map acc x :
  limit_map (passo_raccolta self cont giorno esclusioni acc x)
  = if ammesso self cont giorno esclusioni x
    then <[x := _limite_raggiunto_raw self cont x giorno]> (limit_map acc)
    else limit_map acc.
Proof. unfold passo_raccolta. by destruct (ammesso self cont giorno esclusioni x). Qed.

Lemma fold_passo_raccolta l acc :
  let c := fold_left (passo_raccolta self cont giorno esclusioni) l acc in
  candidati_base c
  = candidati_base acc
    ++ filter (λ nome, ammesso self cont giorno esclusioni nome && negb (in_deroga self cont giorno nome) = true) l
  ∧ fallback_candidates c
    = fallback_candidates acc
      ++ filter (λ nome, ammesso self cont giorno esclusioni nome && in_deroga self cont giorno nome = true) l
  ∧ (∀ nome, limit_map c !! nome
             = if bool_decide (nome ∈ l) && ammesso self cont giorno esclusioni nome
               then Some (_limite_raggiunto_raw self cont nome giorno)
               else limit_map acc !! nome).
Proof.
  revert acc. induction l as [| x l IH]; intros acc.
  - cbn [fold_left]. rewrite !filter_nil, !app_nil_r.
    split; [done | split; [done |]]. intros nome.
    by rewrite bool_decide_eq_false_2 by apply not_elem_of_nil.
  - cbn [fold_left]. cbv zeta in IH.
    destruct (IH (passo_raccolta self cont giorno esclusioni acc x)) as (Hb & Hf & Hl).
    rewrite Hb, Hf, passo_raccolta_base, passo_raccolta_fallback.
    rewrite !filter_cons, <- !app_assoc.
    split; [| split].
    + f_equal. by destruct (ammesso self cont giorno esclusioni x && negb (in_deroga self cont giorno x)).
    + f_equal. by destruct (ammesso self cont giorno esclusioni x && in_deroga self cont giorno x).
    + intros nome. rewrite Hl, passo_raccolta_limit_map.
      destruct (decide (nome = x)) as [-> | Hne].
      * rewrite (bool_decide_eq_true_2 (x ∈ x :: l)) by apply list_elem_of_here.
        destruct (ammesso self cont giorno esclusioni x); simpl.
        -- rewrite lookup_insert_eq. by rewrite andb_true_r, Tauto.if_same.
        -- by rewrite andb_false_r.
      * rewrite (bool_decide_ext (nome ∈ x :: l) (nome ∈ l))
          by (rewrite elem_of_cons; intuition congruence).
        destruct (ammesso self cont giorno esclusioni x); [by rewrite lookup_insert_ne |done].
Qed.

Lemma raccogli_candidati_base :
  candidati_base (raccogli_candidati self cont giorno esclusioni)
  = filter (λ nome, ammesso self cont giorno esclusioni nome && negb (in_deroga self cont giorno nome) = true) (vigili self).
Proof.
  rewrite raccogli_candidati_fold.
  by destruct (fold_passo_raccolta (vigili self)
    {| candidati_base := []; fallback_candidates := [];
       limit_map := ∅; summer_map := ∅ |}) as (-> & _ & _).
Qed.

Lemma raccogli_candidati_fallback :
  fallback_candidates (raccogli_candidati self cont giorno esclusioni)
  = filter (λ nome, ammesso self cont giorno esclusioni nome && in_deroga self cont giorno nome = true) (vigili self).
Proof.
  rewrite raccogli_candidati_fold.
  by destruct (fold_passo_raccolta (vigili self)
    {| candidati_base := []; fallback_candidates := [];
       limit_map := ∅; summer_map := ∅ |}) as (_ & -> & _).
Qed.

Lemma raccogli_candidati_limit_map nome :
  limit_map (raccogli_candidati self cont giorno esclusioni) !! nome
  = if bool_decide (nome ∈ vigili self) && ammesso self cont giorno esclusioni nome
    then Some (_limite_raggiunto_raw self cont nome giorno) else None.
Proof.
  rewrite raccogli_candidati_fold.
  destruct (fold_passo_raccolta (vigili self)
    {| candidati_base := []; fallback_candidates := [];
       limit_map := ∅; summer_map := ∅ |}) as (_ & _ & ->).
  simpl. by rewrite lookup_empty.
Qed.

End Partizione.

(** ** Weekly caps that are zero or negative *)

Lemma _limite_settimanale_init anno config months nome cap :
  cfg_weekly_cap config !! nome = Some cap →
  _limite_settimanale (Scheduler_init anno config months) nome = Z.max 0 cap.
Proof.
  intros Hcap. unfold _limite_settimanale, Scheduler_init. simpl.
  by rewrite lookup_fmap, Hcap.
Qed.

Lemma _limite_raggiunto_raw_senza_limite self conteggi nome giorno :
  _limite_settimanale self nome ≤ 0 →
  _limite_raggiunto_raw self conteggi nome giorno = false.
Proof.
  intros Hcap. unfold _limite_raggiunto_raw.
  by rewrite (proj2 (Z.leb_le _ _) Hcap).
Qed.

Lemma _ha_raggiunto_limite_raw self conteggi nome giorno :
  _limite_raggiunto_raw self conteggi nome giorno = false →
  _ha_raggiunto_limite self conteggi nome giorno = false.
Proof.
  intros Hraw. unfold _ha_raggiunto_limite. rewrite Hraw.
  by destruct (bool_decide (mode (rule_weekly_cap self) = OFF)).
Qed.

(** C9: a person whose configured weekly cap is zero or negative gets the cap
    0 at construction, and for such a person neither the raw cap check nor the
    mode-aware one ever reports the limit as reached, whatever the rule modes,
    the tracker and the date; in the crew partition such a person, when not
    excluded, not on vacation and not summer-blocked, is a base candidate. *)
Theorem C9_cap_non_positivo_mai_raggiunto anno config months nome cap :
  cfg_weekly_cap config !! nome = Some cap →
  cap ≤ 0 →
  let self := Scheduler_init anno config months in
  _limite_settimanale self nome = 0
  ∧ ∀ conteggi giorno,
      _limite_raggiunto_raw self conteggi nome giorno = false
      ∧ _ha_raggiunto_limite self conteggi nome giorno = false
      ∧ ∀ esclusioni,
          nome ∈ vigili self → nome ∉ esclusioni →
          _in_ferie self nome giorno = false →
          summer_block self nome (date_month giorno) = false →
          nome ∈ candidati_base (raccogli_candidati self conteggi giorno esclusioni).
Proof.
  intros Hcap Hle self.
  assert (Hlim : _limite_settimanale self nome = 0).
  { unfold self. rewrite (_limite_settimanale_init _ _ _ _ _ Hcap). lia. }
  split; [done |]. intros conteggi giorno.
  assert (Hraw : _limite_raggiunto_raw self conteggi nome giorno = false).
  { apply _limite_raggiunto_raw_senza_limite. lia. }
  split; [done |]. split; [by apply _ha_raggiunto_limite_raw |].
  intros esclusioni Hin Hex Hferie Hsummer.
  rewrite raccogli_candidati_base. apply list_elem_of_filter. split; [| done].
  unfold ammesso, in_deroga. rewrite Hferie, Hsummer, Hraw.
  rewrite bool_decide_eq_false_2 by done. by rewrite !andb_false_r.
Qed.

(** ** Demotion by the raw cap when the weekly-cap rule is off *)

(** With the weekly-cap rule off, a crew member who passes the other filters
    and has reached the raw weekly cap is put among the fallback candidates
    and not among the base ones; the member is among the available candidates
    exactly when the base candidates are fewer than the crew size needed, and
    then the relaxation entry naming the weekly limit is logged. *)
Lemma limite_raw_con_regola_off_candidati self cont giorno esclusioni nome :
  mode (rule_weekly_cap self) = OFF →
  nome ∈ vigili self →
  nome ∉ esclusioni →
  _in_ferie self nome giorno = false →
  ¬ (mode (rule_summer self) = HARD
     ∧ summer_block self nome (date_month giorno) = true) →
  _limite_raggiunto_raw self cont nome giorno = true →
  let c := raccogli_candidati self cont giorno esclusioni in
  nome ∈ fallback_candidates c
  ∧ (nome ∉ candidati_base c)
  ∧ ∀ n_vigili st,
      let r := candidati_disponibili giorno n_vigili c st in
      (nome ∈ r.1 ↔ Z.of_nat (length (candidati_base c)) < n_vigili)
      ∧ (nome ∈ r.1 →
         ∃ estiva,
           log r.2
           = log st
             ++ [voce giorno VIGILI
                   (DerogaCandidati true estiva (fallback_candidates c))]).
Proof.
  intros Hoff Hin Hex Hferie Hsummer Hraw c.
  assert (Hamm : ammesso self cont giorno esclusioni nome = true).
  { unfold ammesso. rewrite Hferie, Hoff.
    rewrite (bool_decide_eq_false_2 (nome ∈ esclusioni)) by done.
    rewrite (bool_decide_eq_false_2 (OFF = HARD)) by done. simpl.
    rewrite andb_true_r. apply negb_true_iff, not_true_iff_false.
    intros [H1 H2]%andb_true_iff. apply Hsummer.
    split; [by apply bool_decide_eq_true in H1 | done]. }
  assert (Hder : in_deroga self cont giorno nome = true).
  { unfold in_deroga. rewrite Hraw. apply orb_true_r. }
  assert (Hfb : nome ∈ fallback_candidates c).
  { unfold c. rewrite raccogli_candidati_fallback. apply list_elem_of_filter.
    by rewrite Hamm, Hder. }
  assert (Hnb : nome ∉ candidati_base c).
  { unfold c. rewrite raccogli_candidati_base. intros [H _]%list_elem_of_filter.
    by rewrite Hamm, Hder in H. }
  split; [done |]. split; [done |]. intros n_vigili st.
  unfold candidati_disponibili.
  assert (Hne : bool_decide (fallback_candidates c = []) = false).
  { apply bool_decide_eq_false_2. intros E. rewrite E in Hfb.
    by apply not_elem_of_nil in Hfb. }
  assert (Hlim : existsb (λ n, limit_map c !!! n) (fallback_candidates c) = true).
  { apply existsb_exists. exists nome. split; [by apply list_elem_of_In |].
    unfold c at 1. unfold lookup_total, map_lookup_total.
    rewrite raccogli_candidati_limit_map, Hamm.
    by rewrite bool_decide_eq_true_2. }
  rewrite Hne. simpl. rewrite andb_true_r.
  destruct (Z.of_nat (length (candidati_base c)) <? n_vigili) eqn:Hlen.
  - apply Z.ltb_lt in Hlen. cbn. split.
    + split; [done |]. intros _. apply elem_of_app. by right.
    + intros _. rewrite Hlim. by eexists.
  - apply Z.ltb_ge in Hlen. cbn. split.
    + split; [done | lia].
    + done.
Qed.

(** ** The cap claims on a concrete roster *)

Ltac calcola :=
  lazymatch goal with
  | |- ?P =>
      let d := constr:(_ : Decision P) in
      apply (@bool_decide_unpack P d); vm_compute; exact I
  end.

(** The statement of C9 for Neri, whose cap is configured as -2. *)
Lemma C9_witness :
  let self := Scheduler_init 2024 (config_cap HARD) None in
  _limite_settimanale self "Neri" = 0
  ∧ ∀ conteggi giorno,
      _limite_raggiunto_raw self conteggi "Neri" giorno = false
      ∧ _ha_raggiunto_limite self conteggi "Neri" giorno = false
      ∧ ∀ esclusioni,
          "Neri" ∈ vigili self → "Neri" ∉ esclusioni →
          _in_ferie self "Neri" giorno = false →
          summer_block self "Neri" (date_month giorno) = false →
          "Neri" ∈ candidati_base (raccogli_candidati self conteggi giorno esclusioni).
Proof.
  apply (C9_cap_non_positivo_mai_raggiunto 2024 (config_cap HARD) None "Neri" (-2));
    [reflexivity | lia].
Defined.

(** ** The Friday bonus member *)

(** C1 (failing input): Bianchi and Varchi are a hard forbidden pair, and on
    Friday 5 January 2024 the crew selector fills three slots with Bianchi,
    Neri and Verdi; the bonus step then appends Varchi without looking at the
    forbidden pairs, so the crew holds both names. *)
Theorem C1_venerdi_coppia_vietata casuale :
  let self := Scheduler_init 2024 config_venerdi_coppia gennaio in
  ({["Bianchi"; "Varchi"]} : gset string) ∈ forbidden_hard self
  ∧ head (esegui casuale ordine_alfabetico 2024 config_venerdi_coppia gennaio).1
    = Some {| a_giorno := _ymd2ord 2024 1 5;
              a_autista := Some "Rossi";
              a_vigili := [Some "Bianchi"; Some "Neri"; Some "Verdi"; Some "Varchi"] |}.
Proof. intros self. split; [calcola | vm_compute; reflexivity]. Qed.

(** C7 (failing input): on Friday 5 January 2024 Varchi is chosen as driver
    and is then appended to the crew as bonus member, so the name appears both
    in the driver field and in a crew slot. *)
Theorem C7_venerdi_autista_anche_vigile casuale :
  head (esegui casuale ordine_alfabetico 2024 config_venerdi_varchi gennaio).1
  = Some {| a_giorno := _ymd2ord 2024 1 5;
            a_autista := Some "Varchi";
            a_vigili := [Some "Bianchi"; Some "Neri"; Some "Verdi"; Some "Varchi"] |}.
Proof. vm_compute. reflexivity. Qed.

(** ** The minimum-seniors rule in mode off *)

(** C2 (failing input): with the minimum-seniors rule off, the team Bianchi,
    Gialli, Neri, Verdi has no hard forbidden pair, yet it is discarded for
    having no senior (every team with the senior Zani holds a forbidden pair),
    so Saturday 6 January 2024 is left without crew, exactly as in mode
    hard. *)
Theorem C2_min_senior_off_scarta casuale :
  let self := Scheduler_init 2024 (config_senior OFF) gennaio in
  let r := esegui casuale ordine_alfabetico 2024 (config_senior OFF) gennaio in
  mode (rule_min_senior self) = OFF
  ∧ existsb (λ pair, bool_decide (frozenset_pair pair ∈ forbidden_hard self))
      (coppie ["Bianchi"; "Gialli"; "Neri"; "Verdi"]) = false
  ∧ head r.1
    = Some {| a_giorno := _ymd2ord 2024 1 6;
              a_autista := Some "Rossi";
              a_vigili := [None; None; None; None] |}
  ∧ take 2 (log r.2)
    = [ voce (_ymd2ord 2024 1 6) VIGILI NessunaCombinazione;
        voce (_ymd2ord 2024 1 6) VIGILI TurnoScoperto ]
  ∧ r.1 = (esegui casuale ordine_alfabetico 2024 (config_senior HARD) gennaio).1.
Proof.
  intros self r.
  split; [vm_compute; reflexivity |]. split; [vm_compute; reflexivity |].
  split; [vm_compute; reflexivity |]. split; vm_compute; reflexivity.
Qed.

(** ** Counters after a discarded attempt *)

(** C5 (failing input): with the rotation rule in mode soft, the first attempt
    for Saturday 6 January 2024 finds no driver but records Bianchi, Gialli,
    Neri and Verdi as crew; the retry then finds all four at their weekly cap,
    so the Assignment produced has no crew, while the tracker still counts a
    shift for each of them. *)
Theorem C5_conteggi_del_tentativo_scartato casuale :
  let r := esegui casuale ordine_alfabetico 2024 (config_sabato_varchi SOFT) gennaio in
  head r.1
  = Some {| a_giorno := _ymd2ord 2024 1 6;
            a_autista := Some "Varchi";
            a_vigili := [None; None; None; None] |}
  ∧ Forall (λ a, a_vigili a = [None; None; None; None]) r.1
  ∧ tot_settimana (cont_vig r.2) "Bianchi" (2024, 1) = 1
  ∧ tot_annuale (cont_vig r.2) "Bianchi" = 4.
Proof.
  intros r. split; [vm_compute; reflexivity |].
  split; [| split; vm_compute; reflexivity].
  vm_compute. repeat (constructor; [reflexivity |]). constructor.
Qed.

(** ** Iteration over the set of hard-preferred crew members *)

(** C6 (failing input): same configuration and same random draws, two
    iteration orders of the set of Rossi's hard-preferred crew members: the
    crew slots of Saturday 6 January 2024 come out in different orders. *)
Theorem C6_ordine_di_iterazione casuale :
  let r1 := esegui casuale ordine_alfabetico 2024 config_preferiti gennaio in
  let r2 := esegui casuale ordine_inverso 2024 config_preferiti gennaio in
  (a_vigili <$> head r1.1)
  = Some [Some "Bianchi"; Some "Gialli"; Some "Neri"; Some "Verdi"]
  ∧ (a_vigili <$> head r2.1)
    = Some [Some "Gialli"; Some "Bianchi"; Some "Neri"; Some "Verdi"]
  ∧ r1.1 ≠ r2.1.
Proof.
  intros r1 r2.
  split; [vm_compute; reflexivity |]. split; [vm_compute; reflexivity |].
  vm_compute. discriminate.
Qed.

(** ** What a whole selector does to the log *)

Global Instance avanza_StatoRel : StatoRel avanza.
Proof.
  split.
  - intros st. split; [done | apply estende_refl].
  - intros a b c [A1 A2] [B1 B2]. split; [congruence | by eapply estende_trans].
  - intros st g c m Hm. split; [done | by apply (sr_log (R := estende))].
  - intros st n. split; [done | apply (sr_rng (R := estende))].
Qed.

Lemma estende_stesso_log st st' : log st' = log st → estende st st'.
Proof. intros E. exists []. split; [by rewrite app_nil_r | constructor]. Qed.

Global Instance avanza_StatoRelCarico : StatoRelCarico avanza.
Proof.
  split; [apply _ | ..]; intros st ?; (split; [done | by apply estende_stesso_log]).
Qed.

Lemma conserva_modifica {R : relation Stato} (f : Stato → Stato) :
  (∀ st, R st (f st)) → conserva R (modifica f).
Proof. intros Hf st. apply Hf. Qed.

Ltac conserva_carico :=
  repeat first
    [ conserva_passo
    | apply conserva_sort_con_chiave
    | apply conserva_candidati_disponibili
    | apply conserva_valuta_combinazione
    | apply conserva_modifica; intros ?;
      first [ apply sr_cont_aut | apply sr_cont_vig | apply sr_squadre ] ].

Section SelettoriLog.

Context {R : relation Stato} `{!StatoRelCarico R}.
Variable casuale : nat → Z.
Variable iter_set : gset string → list string.
Variable self : Scheduler.

Lemma conserva_scegli_autista giorno esclusioni :
  conserva R (_scegli_autista casuale self giorno esclusioni).
Proof. unfold _scegli_autista. conserva_carico. Qed.

Lemma conserva_scegli_squadra_vigili giorno n aut esclusioni :
  conserva R (_scegli_squadra_vigili casuale iter_set self giorno n aut esclusioni).
Proof. unfold _scegli_squadra_vigili. conserva_carico. Qed.

Lemma conserva_aggiungi_varchi_venerdi giorno squadra :
  conserva R (_aggiungi_varchi_venerdi self giorno squadra).
Proof. unfold _aggiungi_varchi_venerdi. conserva_carico. Qed.

Lemma conserva_costruisci_per_data_internal giorno assegnazioni sabato apply_varchi :
  conserva R
    (_costruisci_per_data_internal casuale iter_set self giorno assegnazioni
       sabato apply_varchi).
Proof.
  unfold _costruisci_per_data_internal.
  repeat first
    [ apply conserva_scegli_autista
    | apply conserva_scegli_squadra_vigili
    | apply conserva_aggiungi_varchi_venerdi
    | conserva_passo ].
Qed.

End SelettoriLog.

(** ** The retry without the rotation rule *)

Lemma conta_retry_app l1 l2 : conta_retry (l1 ++ l2) = (conta_retry l1 + conta_retry l2)%nat.
Proof. unfold conta_retry. by rewrite filter_app, length_app. Qed.

Lemma conta_retry_estende st st' :
  estende st st' → conta_retry (log st') = conta_retry (log st).
Proof.
  intros (nuove & -> & Hn). rewrite conta_retry_app.
  assert (conta_retry nuove = 0%nat) as ->; [| lia].
  unfold conta_retry. induction Hn as [| e l He _ IH]; [done |].
  rewrite filter_cons. by destruct (decide (log_messaggio e = DerogaRegolaVarchi)).
Qed.

(** X21: the retry of [_costruisci_per_data]. The date is composed once with
    the rotation rule as configured. When the rule is enabled, its mode is
    soft and that first Assignment shows no driver or has an empty crew slot,
    exactly one retry notice is logged and the date is composed a second time
    with the rule disabled; the second Assignment is the one returned. In
    every other case, in particular in mode hard and when the first
    Assignment shows a driver and four crew members, no retry notice is
    logged and the first Assignment is returned as it is. *)
Theorem costruisci_per_data_retry casuale iter_set self giorno assegnazioni st :
  let sabato := _trova_autista_settimanale (autisti_reali st) assegnazioni giorno 5 in
  let primo :=
    _costruisci_per_data_internal casuale iter_set self giorno assegnazioni
      sabato (enable_varchi_rule self) st in
  let secondo :=
    _costruisci_per_data_internal casuale iter_set self giorno assegnazioni
      sabato false (set_log (log primo.2 ++ [voce_retry giorno]) primo.2) in
  let r := _costruisci_per_data casuale iter_set self giorno assegnazioni st in
  if enable_varchi_rule self
     && bool_decide (mode (rule_varchi self) = SOFT)
     && _turno_incompleto primo.1.1
  then
    r.1 = secondo.1.1
    ∧ conta_retry (log r.2) = S (conta_retry (log st))
    ∧ (∃ dopo, log r.2 = log primo.2 ++ [voce_retry giorno] ++ dopo
               ∧ conta_retry dopo = 0%nat)
  else
    r.1 = primo.1.1
    ∧ conta_retry (log r.2) = conta_retry (log st).
Proof.
  intros sabato primo secondo r.
  assert (H1 : estende st primo.2).
  { apply (conserva_costruisci_per_data_internal (R := avanza)). }
  assert (H2 : estende (set_log (log primo.2 ++ [voce_retry giorno]) primo.2)
                 secondo.2).
  { apply (conserva_costruisci_per_data_internal (R := avanza)). }
  assert (Hzero : ∀ a b, estende a b →
            ∀ dopo, log b = log a ++ dopo → conta_retry dopo = 0%nat).
  { intros a b Hab dopo Hd. apply conta_retry_estende in Hab.
    rewrite Hd, conta_retry_app in Hab. lia. }
  subst r secondo primo.
  unfold _costruisci_per_data, mbind, M_bind, leggi, _log, modifica.
  unfold voce_retry, voce in *. fold sabato.
  destruct (_costruisci_per_data_internal casuale iter_set self giorno
              assegnazioni sabato (enable_varchi_rule self) st)
    as [[a1 reale1] st1] eqn:E1.
  cbn [fst snd] in *.
  destruct (enable_varchi_rule self
            && bool_decide (mode (rule_varchi self) = SOFT)
            && _turno_incompleto a1).
  - destruct (_costruisci_per_data_internal casuale iter_set self giorno
                assegnazioni sabato false _)
      as [[a2 reale2] st2] eqn:E2.
    cbn [fst snd mret M_ret log set_autisti_reali] in *.
    split; [done |].
    pose proof (Hzero _ _ H2) as Hz.
    destruct H2 as (dopo & Hd & Hf). cbn [log set_log] in Hd, Hz.
    specialize (Hz dopo Hd).
    split.
    + rewrite Hd, !conta_retry_app, Hz, (conta_retry_estende _ _ H1).
      unfold conta_retry at 2. simpl. lia.
    + exists dopo. by rewrite Hd, <- app_assoc.
  - cbn. split; [done |]. by apply conta_retry_estende.
Qed.

(** With the rotation rule enabled in its default mode hard, Saturday
    6 January 2024 gets no driver (the only driver is the rotation driver,
    excluded on Saturdays), and the incomplete Assignment is returned without
    any retry. *)
Lemma retry_assente_in_modo_hard :
  let self := Scheduler_init 2024 (config_sabato_varchi HARD) gennaio in
  let giorno := _ymd2ord 2024 1 6 in
  let r :=
    _costruisci_per_data (λ _, 0) ordine_alfabetico self giorno [] (Stato_init self) in
  enable_varchi_rule self = true
  ∧ r.1 = {| a_giorno := giorno; a_autista := None;
             a_vigili := [Some "Bianchi"; Some "Gialli"; Some "Neri"; Some "Verdi"] |}
  ∧ _turno_incompleto r.1 = true
  ∧ conta_retry (log r.2) = 0%nat
  ∧ log r.2 = [voce giorno AUTISTA NessunAutista; voce giorno VIGILI NessunSenior].
Proof.
  intros self giorno r.
  split; [vm_compute; reflexivity |]. split; [vm_compute; reflexivity |].
  split; [vm_compute; reflexivity |]. split; vm_compute; reflexivity.
Qed.

(** C3 (failing input): the rotation rule is enabled in mode soft, Varchi is
    the only driver and a senior crew member, and no second rotation driver
    is configured. On Saturday 6 January 2024 the rule excludes Varchi, so
    the composition with the rule finds no driver, while the composition
    without the rule has Varchi drive. The comparison of the missing driver
    with the missing second rotation driver succeeds, the Assignment shows
    Varchi as driver and does not count as incomplete: no retry notice is
    logged, the date is not composed again, and the load of driving the day
    is attributed to nobody. *)
Theorem C3_sabato_senza_autista_senza_retry :
  let self := Scheduler_init 2024 (config_sabato_varchi_senior SOFT) gennaio in
  let sabato := _ymd2ord 2024 1 6 in
  let con_regola :=
    _costruisci_per_data_internal (λ _, 0) ordine_alfabetico self sabato [] None
      true (Stato_init self) in
  let senza_regola :=
    _costruisci_per_data_internal (λ _, 0) ordine_alfabetico self sabato [] None
      false (Stato_init self) in
  let r :=
    _costruisci_per_data (λ _, 0) ordine_alfabetico self sabato [] (Stato_init self) in
  enable_varchi_rule self = true
  ∧ mode (rule_varchi self) = SOFT
  ∧ autista_pogliani self = None
  ∧ con_regola.1.2 = None
  ∧ senza_regola.1.2 = Some "Varchi"%string
  ∧ r.1 = {| a_giorno := sabato; a_autista := Some "Varchi"%string;
             a_vigili := [Some "Bianchi"; Some "Gialli"; Some "Neri"; Some "Verdi"]%string |}
  ∧ _turno_incompleto r.1 = false
  ∧ autisti_reali r.2 !! sabato = Some None
  ∧ conta_retry (log r.2) = 0%nat
  ∧ log r.2 = [ voce sabato AUTISTA NessunAutista;
                voce sabato AUTISTA (VisualizzoVarchi (Some "Varchi"%string) None);
                voce sabato VIGILI NessunSenior ].
Proof.
  intros self sabato con_regola senza_regola r.
  split; [vm_compute; reflexivity |]. split; [vm_compute; reflexivity |].
  split; [vm_compute; reflexivity |]. split; [vm_compute; reflexivity |].
  split; [vm_compute; reflexivity |]. split; [vm_compute; reflexivity |].
  split; [vm_compute; reflexivity |]. split; [vm_compute; reflexivity |].
  split; vm_compute; reflexivity.
Qed.

(** ** Calendar facts *)

Lemma year_arith n400 n100 n4 n1 r :
  0 ≤ n100 ≤ 4 → 0 ≤ n4 ≤ 24 → 0 ≤ n1 ≤ 4 → 0 ≤ r < 365 →
  36524 * n100 + 1461 * n4 + 365 * n1 + r < 146097 →
  1461 * n4 + 365 * n1 + r < 36524 →
  365 * n1 + r < 1461 →
  let n := 146097 * n400 + 36524 * n100 + 1461 * n4 + 365 * n1 + r in
  let y := n400 * 400 + 1 + n100 * 100 + n4 * 4 + n1 in
  let year := if (n1 =? 4) || (n100 =? 4) then y - 1 else y in
  _days_before_year year < n + 1 ≤ _days_before_year (year + 1).
Proof.
  intros H100 H4 H1 Hr B1 B2 B3 n y year. subst n y year.
  unfold _days_before_year. cbv zeta.
  assert (n100 = 0 ∨ n100 = 1 ∨ n100 = 2 ∨ n100 = 3 ∨ n100 = 4) as Hc by lia.
  assert (n1 = 0 ∨ n1 = 1 ∨ n1 = 2 ∨ n1 = 3 ∨ n1 = 4) as Hd by lia.
  destruct Hc as [-> | [-> | [-> | [-> | ->]]]];
  destruct Hd as [-> | [-> | [-> | [-> | ->]]]]; cbn [Z.eqb orb Pos.eqb];
  Z.div_mod_to_equations; lia.
Qed.

Lemma date_year_eq d :
  let n := d - 1 in
  let n100 := (n mod _DI400Y) / _DI100Y in
  let n4 := ((n mod _DI400Y) mod _DI100Y) / _DI4Y in
  let n1 := (((n mod _DI400Y) mod _DI100Y) mod _DI4Y) / 365 in
  let y := n / _DI400Y * 400 + 1 + n100 * 100 + n4 * 4 + n1 in
  date_year d = if (n1 =? 4) || (n100 =? 4) then y - 1 else y.
Proof.
  cbv zeta. unfold date_year, _ord2ymd. cbv zeta.
  destruct (_ || _); [done |].
  by destruct (Z.ltb _ _).
Qed.

(** The year of a date is the one whose days contain its ordinal. *)
Lemma date_year_bounds d :
  _days_before_year (date_year d) < d ≤ _days_before_year (date_year d + 1).
Proof.
  rewrite date_year_eq. cbv zeta. unfold _DI400Y, _DI100Y, _DI4Y.
  set (n := d - 1).
  set (n400 := n / 146097). set (r1 := n mod 146097).
  set (n100 := r1 / 36524). set (r2 := r1 mod 36524).
  set (n4 := r2 / 1461). set (r3 := r2 mod 1461).
  set (n1 := r3 / 365).
  pose proof (year_arith n400 n100 n4 n1 (r3 mod 365)) as H.
  cbv zeta in H.
  assert (Hd : 146097 * n400 + 36524 * n100 + 1461 * n4 + 365 * n1
               + r3 mod 365 + 1 = d).
  { subst n400 r1 n100 r2 n4 r3 n1 n. Z.div_mod_to_equations. lia. }
  rewrite Hd in H.
  apply H; subst n400 r1 n100 r2 n4 r3 n1; Z.div_mod_to_equations; lia.
Qed.

Lemma _ymd2ord_capodanno year : _ymd2ord year 1 1 = _days_before_year year + 1.
Proof. unfold _ymd2ord, _days_before_month. simpl. lia. Qed.

(** The first ISO week of a year starts on a Monday at most three days away
    from 1 January. *)
Lemma _isoweek1monday_spec year :
  (_isoweek1monday year + 6) mod 7 = 0
  ∧ _days_before_year year - 2 ≤ _isoweek1monday year ≤ _days_before_year year + 4.
Proof.
  unfold _isoweek1monday. cbv zeta. rewrite _ymd2ord_capodanno.
  destruct (Z.ltb_spec 3 ((_days_before_year year + 1 + 6) mod 7));
    Z.div_mod_to_equations; lia.
Qed.

(** The ISO year and week of a date locate the Monday of its week. *)
Lemma isocalendar_monday d :
  d - weekday d
  = _isoweek1monday (isocalendar d).1 + 7 * ((isocalendar d).2 - 1).
Proof.
  unfold isocalendar, weekday. cbv zeta.
  pose proof (date_year_bounds d) as Hy.
  set (year := date_year d) in *.
  pose proof (_isoweek1monday_spec year) as [M0 B0].
  pose proof (_isoweek1monday_spec (year - 1)) as [M1 B1].
  pose proof (_isoweek1monday_spec (year + 1)) as [M2 B2].
  destruct (Z.ltb_spec ((d - _isoweek1monday year) / 7) 0); cbn [fst snd].
  - Z.div_mod_to_equations. lia.
  - destruct (Z.leb_spec 52 ((d - _isoweek1monday year) / 7)); cbn [andb fst snd].
    + destruct (Z.leb_spec (_isoweek1monday (year + 1)) d); cbn [fst snd];
        Z.div_mod_to_equations; lia.
    + Z.div_mod_to_equations. lia.
Qed.

(** Two dates of the same ISO week that fall on the same weekday are equal. *)
Lemma week_key_weekday_inj d1 d2 :
  _week_key d1 = _week_key d2 → weekday d1 = weekday d2 → d1 = d2.
Proof.
  unfold _week_key. intros Hk Hw.
  pose proof (isocalendar_monday d1) as H1.
  pose proof (isocalendar_monday d2) as H2.
  rewrite Hk, Hw in H1. lia.
Qed.

Lemma date_attive_loop_spec giorni mesi n giorno :
  StronglySorted Z.lt (date_attive_loop giorni mesi giorno n)
  ∧ Forall (λ d, giorno ≤ d) (date_attive_loop giorni mesi giorno n).
Proof.
  revert giorno. induction n as [| n IH]; intros giorno; simpl.
  - split; constructor.
  - destruct (IH (giorno + 1)) as [Hs Hf].
    assert (Hf' : Forall (λ d, giorno < d)
                    (date_attive_loop giorni mesi (giorno + 1) n)).
    { eapply Forall_impl; [exact Hf |]. simpl. intros. lia. }
    destruct (_ && _); simpl.
    + split; [by constructor |]. constructor; [lia |].
      eapply Forall_impl; [exact Hf' |]. simpl. intros. lia.
    + split; [done |]. eapply Forall_impl; [exact Hf' |]. simpl. intros. lia.
Qed.

(** The generated calendar is in strictly increasing order. *)
Lemma date_attive_anno_sorted anno weekdays months :
  StronglySorted Z.lt (date_attive_anno anno weekdays months).
Proof. unfold date_attive_anno. apply date_attive_loop_spec. Qed.

(** ** Sorting and the insertion-ordered dictionaries *)

Lemma inserisci_perm {A} (leb : A → A → bool) x l : inserisci leb x l ≡ₚ x :: l.
Proof.
  induction l as [| y l IH]; simpl; [done |].
  destruct (leb x y); [done |]. rewrite IH. apply Permutation_swap.
Qed.

Lemma sorted_py_perm {A} (leb : A → A → bool) l : sorted_py leb l ≡ₚ l.
Proof.
  unfold sorted_py. induction l as [| x l IH]; simpl; [done |].
  by rewrite inserisci_perm, IH.
Qed.

Lemma inserisci_Z_sorted x l :
  StronglySorted Z.le l → StronglySorted Z.le (inserisci Z.leb x l).
Proof.
  induction 1 as [| y l Hs IH Hy]; simpl; [repeat constructor |].
  destruct (Z.leb_spec x y).
  - constructor; [by constructor |]. constructor; [done |].
    eapply Forall_impl; [exact Hy |]. simpl. intros. lia.
  - constructor; [done |]. rewrite inserisci_perm. constructor; [lia | done].
Qed.

Lemma sorted_py_Z_sorted l : StronglySorted Z.le (sorted_py Z.leb l).
Proof.
  unfold sorted_py. induction l as [| x l IH]; simpl; [constructor |].
  by apply inserisci_Z_sorted.
Qed.

(** Sorting a rearrangement of an increasing list of dates gives that list. *)
Lemma sorted_py_Z_unique l l' :
  StronglySorted Z.lt l' → l ≡ₚ l' → sorted_py Z.leb l = l'.
Proof.
  intros Hs Hp. apply (StronglySorted_unique Z.le).
  - apply sorted_py_Z_sorted.
  - clear Hp. induction Hs as [| x l' Hs IH Hx]; constructor; [done |].
    eapply Forall_impl; [exact Hx |]. simpl. intros. lia.
  - by rewrite sorted_py_perm.
Qed.

Lemma StronglySorted_lt_NoDup (l : list Z) : StronglySorted Z.lt l → NoDup l.
Proof.
  induction 1 as [| x l Hs IH Hx]; constructor; [| done].
  intros Hin. rewrite Forall_forall in Hx. specialize (Hx _ Hin). lia.
Qed.

Section Dict.

Context {K V : Type} `{EqDecision K}.

Lemma dict_get_None (k : K) (d : list (K * V)) :
  dict_get k d = None ↔ k ∉ map fst d.
Proof.
  induction d as [| [k' v'] d IH]; simpl.
  - split; [intros _; apply not_elem_of_nil | done].
  - rewrite not_elem_of_cons. case_bool_decide; [naive_solver |].
    rewrite IH. naive_solver.
Qed.

Lemma dict_get_Some (k : K) (v : V) (d : list (K * V)) :
  dict_get k d = Some v → (k, v) ∈ d.
Proof.
  induction d as [| [k' v'] d IH]; simpl; [done |].
  case_bool_decide; [intros [= ->]; subst; left | right; auto].
Qed.

Lemma dict_get_elem (k : K) (v : V) (d : list (K * V)) :
  NoDup (map fst d) → (k, v) ∈ d → dict_get k d = Some v.
Proof.
  induction d as [| [k' v'] d IH]; simpl; [by intros _ ?%not_elem_of_nil |].
  intros [Hk Hd]%NoDup_cons [[= -> ->] | Hin]%elem_of_cons.
  - by rewrite bool_decide_eq_true_2.
  - rewrite bool_decide_eq_false_2; [auto |].
    intros ->. apply Hk. apply list_elem_of_fmap. by exists (k', v).
Qed.

Lemma dict_set_fresh (k : K) (v : V) (d : list (K * V)) :
  k ∉ map fst d → dict_set k v d = d ++ [(k, v)].
Proof.
  induction d as [| [k' v'] d IH]; simpl; [done |].
  intros [Hne Hk]%not_elem_of_cons.
  rewrite bool_decide_eq_false_2 by done. by rewrite IH.
Qed.

Lemma dict_set_present (k : K) (v v' : V) (d : list (K * V)) :
  dict_get k d = Some v →
  ∃ d1 d2, d = d1 ++ (k, v) :: d2 ∧ dict_set k v' d = d1 ++ (k, v') :: d2.
Proof.
  induction d as [| [k0 v0] d IH]; simpl; [done |].
  case_bool_decide as Hk.
  - intros [= ->]. subst k0. by exists [], d.
  - intros Hg. destruct (IH Hg) as (d1 & d2 & -> & ->).
    by exists ((k0, v0) :: d1), d2.
Qed.

End Dict.

(** ** The order in which [costruisci] visits the calendar *)

Lemma map_fmap {A B} (f : A → B) (l : list A) : map f l = f <$> l.
Proof. done. Qed.

Lemma flat_map_bind {A B} (f : A → list B) (l : list A) : flat_map f l = l ≫= f.
Proof. done. Qed.

Lemma passo_settimana_spec G giorno :
  gruppi_validi G →
  gruppi_validi (passo_settimana G giorno)
  ∧ concat (map snd (passo_settimana G giorno)) ≡ₚ concat (map snd G) ++ [giorno].
Proof.
  intros [Hnd Hk]. unfold passo_settimana.
  destruct (dict_get (_week_key giorno) G) as [v |] eqn:Hg; simpl.
  - destruct (dict_set_present _ _ (v ++ [giorno]) _ Hg) as (d1 & d2 & -> & ->).
    split; [split |].
    + by rewrite map_app in *.
    + intros k g d [Hin | [[= -> ->] | Hin]%elem_of_cons]%elem_of_app Hd.
      * apply (Hk k g d); [| done]. apply elem_of_app. by left.
      * apply elem_of_app in Hd as [Hd | ->%list_elem_of_singleton]; [| done].
        apply (Hk _ v d); [| done]. apply elem_of_app. right. by left.
      * apply (Hk k g d); [| done]. apply elem_of_app. right. by right.
    + rewrite !map_app, !concat_app. simpl.
      rewrite <- !app_assoc. apply Permutation_app_head.
      apply Permutation_app_head, Permutation_app_comm.
  - apply dict_get_None in Hg. rewrite (dict_set_fresh _ _ _ Hg).
    split; [split |].
    + rewrite map_app. simpl. apply NoDup_app. split; [done |].
      split; [| apply NoDup_singleton].
      intros x Hx ->%list_elem_of_singleton. done.
    + intros k g d [Hin | [= -> ->]%list_elem_of_singleton]%elem_of_app Hd.
      * by apply (Hk k g d).
      * by apply list_elem_of_singleton in Hd as ->.
    + rewrite map_app, concat_app. done.
Qed.

Lemma fold_passo_settimana_spec l G :
  gruppi_validi G →
  gruppi_validi (fold_left passo_settimana l G)
  ∧ concat (map snd (fold_left passo_settimana l G)) ≡ₚ concat (map snd G) ++ l.
Proof.
  revert G. induction l as [| x l IH]; intros G HG; simpl.
  - by rewrite app_nil_r.
  - destruct (passo_settimana_spec G x HG) as [HG' Hp].
    destruct (IH _ HG') as [HG'' Hp']. split; [done |].
    rewrite Hp', Hp, <- app_assoc. done.
Qed.

Lemma raggruppa_per_settimana_spec l :
  gruppi_validi (raggruppa_per_settimana l)
  ∧ concat (map snd (raggruppa_per_settimana l)) ≡ₚ l.
Proof.
  unfold raggruppa_per_settimana.
  change (fold_left _ l []) with (fold_left passo_settimana l []).
  destruct (fold_passo_settimana_spec l []) as [[Hnd Hk] Hp].
  { split; [constructor | by intros ??? ?%not_elem_of_nil]. }
  simpl in Hp. set (G := fold_left passo_settimana l []) in *.
  clearbody G. split; [split |].
  - rewrite map_map. simpl. done.
  - intros k g d Hin Hd. rewrite map_fmap in Hin.
    apply list_elem_of_fmap in Hin as ([k' g'] & [= -> ->] & Hin). simpl in *.
    apply (Hk k' g' d Hin). by rewrite sorted_py_perm in Hd.
  - rewrite <- Hp. clear. induction G as [| [k g] G IH]; simpl; [done |].
    by rewrite sorted_py_perm, IH.
Qed.

Lemma giorni_per_dow_lookup g (m0 : gmap Z date) w d :
  fold_left (λ m d, <[weekday d := d]> m) g m0 !! w = Some d →
  (d ∈ g ∧ weekday d = w) ∨ m0 !! w = Some d.
Proof.
  revert m0. induction g as [| x g IH]; intros m0; simpl; [by right |].
  intros [[Hin Hw] | Hm]%IH.
  - left. split; [by right | done].
  - destruct (decide (weekday x = w)) as [<- | Hne].
    + rewrite lookup_insert_eq in Hm. injection Hm as ->. left. split; [by left | done].
    + rewrite lookup_insert_ne in Hm by done. by right.
Qed.

Lemma giorni_per_dow_is_Some g (m0 : gmap Z date) w :
  is_Some (m0 !! w) ∨ (∃ d, d ∈ g ∧ weekday d = w) →
  is_Some (fold_left (λ m d, <[weekday d := d]> m) g m0 !! w).
Proof.
  revert m0. induction g as [| x g IH]; intros m0; simpl.
  - intros [H | (d & Hd & _)]; [done | by apply not_elem_of_nil in Hd].
  - intros H. apply IH. destruct (decide (weekday x = w)) as [<- | Hne].
    + left. rewrite lookup_insert_eq. by eexists.
    + rewrite lookup_insert_ne by done.
      destruct H as [H | (d & [-> | Hd]%elem_of_cons & Hw)]; [by left | done |].
      right. by exists d.
Qed.

Lemma _ordine_giorni_spec (m : gmap Z date) :
  NoDup (_ordine_giorni m) ∧ ∀ w, w ∈ _ordine_giorni m ↔ is_Some (m !! w).
Proof.
  unfold _ordine_giorni. split.
  - apply NoDup_app. split; [| split].
    + apply NoDup_filter. repeat constructor; set_solver.
    + intros w [_ Hw]%list_elem_of_filter [Hn _]%list_elem_of_filter.
      apply Hn. set_solver.
    + apply NoDup_filter. rewrite sorted_py_perm. apply NoDup_elements.
  - intros w. rewrite elem_of_app, !list_elem_of_filter, sorted_py_perm.
    rewrite elem_of_elements, elem_of_dom. split.
    + intros [[H _] | [_ H]]; done.
    + intros H. destruct (decide (w ∈ [4; 5; 6])) as [Hw | Hw].
      * left. split; [done | set_solver].
      * right. done.
Qed.

(** In a week whose dates fall on distinct weekdays every date is handled
    once. *)
Lemma giorni_in_ordine_perm g :
  NoDup g →
  (∀ d1 d2, d1 ∈ g → d2 ∈ g → weekday d1 = weekday d2 → d1 = d2) →
  giorni_in_ordine g ≡ₚ g.
Proof.
  intros Hnd Hinj. unfold giorni_in_ordine. cbv zeta.
  set (m := fold_left (λ m d, <[weekday d := d]> m) g ∅).
  destruct (_ordine_giorni_spec m) as [Hk1 Hk2].
  assert (Hm : ∀ w d, m !! w = Some d → d ∈ g ∧ weekday d = w).
  { intros w d [H | H]%giorni_per_dow_lookup; [done | by rewrite lookup_empty in H]. }
  apply NoDup_Permutation; [| done |].
  - revert Hk1. generalize (_ordine_giorni m). intros keys.
    induction 1 as [| w keys Hw Hks IH]; simpl; [constructor |].
    destruct (m !! w) as [d |] eqn:Hd; [| done]. constructor; [| done].
    intros (w' & Hw' & Hd')%list_elem_of_omap.
    apply Hm in Hd as [_ <-]. apply Hm in Hd' as [_ <-]. done.
  - intros d. rewrite list_elem_of_omap. split.
    + intros (w & _ & Hd). by apply Hm in Hd as [? _].
    + intros Hd. exists (weekday d).
      assert (Hs : is_Some (m !! weekday d)).
      { apply giorni_per_dow_is_Some. right. by exists d. }
      split; [by apply Hk2 |]. destruct Hs as [d' Hd'].
      rewrite Hd'. f_equal. apply Hm in Hd' as [Hin Hw]. by apply Hinj.
Qed.

Lemma flat_map_perm {A B} (f g : A → list B) l :
  (∀ x, x ∈ l → f x ≡ₚ g x) → flat_map f l ≡ₚ flat_map g l.
Proof.
  induction l as [| x l IH]; intros H; simpl; [done |].
  rewrite (H x) by by left. rewrite IH; [done |]. intros y Hy. apply H. by right.
Qed.

Lemma flat_map_snd_concat {A B} (l : list (A * list B)) :
  flat_map (λ item, item.2) l = concat (map snd l).
Proof. induction l as [| [a b] l IH]; simpl; [done | by rewrite IH]. Qed.

Lemma flat_map_Permutation {A B} (f : A → list B) l1 l2 :
  l1 ≡ₚ l2 → flat_map f l1 ≡ₚ flat_map f l2.
Proof.
  induction 1; simpl; [done | by f_equiv | | by etrans].
  rewrite !app_assoc. f_equiv. apply Permutation_app_comm.
Qed.

Lemma elem_of_concat {A} (x : A) (ls : list (list A)) :
  x ∈ concat ls ↔ ∃ l, x ∈ l ∧ l ∈ ls.
Proof.
  induction ls as [| l ls IH]; simpl.
  - split; [by intros ?%not_elem_of_nil | by intros (? & _ & ?%not_elem_of_nil)].
  - rewrite elem_of_app, IH. split.
    + intros [H | (l' & H1 & H2)]; [exists l; split; [done | by left] |].
      exists l'. split; [done | by right].
    + intros (l' & H1 & [-> | H2]%elem_of_cons); [by left |].
      right. by exists l'.
Qed.

(** Every date of the calendar is handled exactly once. *)
Lemma ordine_elaborazione_perm l : NoDup l → ordine_elaborazione l ≡ₚ l.
Proof.
  intros Hnd. unfold ordine_elaborazione.
  destruct (raggruppa_per_settimana_spec l) as [[Hk1 Hk2] Hp].
  rewrite (flat_map_Permutation _ _ _ (sorted_py_perm _ _)).
  rewrite <- Hp at 2. rewrite <- flat_map_snd_concat.
  apply flat_map_perm. intros [k g] Hin. simpl.
  assert (Hsub : ∀ d, d ∈ g → d ∈ l).
  { intros d Hd. rewrite <- Hp. apply elem_of_concat. exists g. split; [done |].
    rewrite map_fmap. apply list_elem_of_fmap. by exists (k, g). }
  apply giorni_in_ordine_perm.
  - assert (Hc : NoDup (concat (map snd (raggruppa_per_settimana l)))).
    { by rewrite Hp. }
    apply list_elem_of_split in Hin as (G1 & G2 & HG).
    rewrite HG, map_app, concat_app in Hc. simpl in Hc.
    apply NoDup_app in Hc as (_ & _ & Hc). by apply NoDup_app in Hc as (Hc & _).
  - intros d1 d2 H1 H2 Hw. apply week_key_weekday_inj; [| done].
    by rewrite (Hk2 k g d1), (Hk2 k g d2).
Qed.

(** ** Specifications of computations, state by state *)

Lemma spec_ret {A} (a : A) st (Q : A → Stato → Prop) : Q a st → spec (mret a) st Q.
Proof. done. Qed.

Lemma spec_bind {A B} (m : M A) (k : A → M B) st (Q : B → Stato → Prop) :
  spec m st (λ a st', spec (k a) st' Q) → spec (m ≫= k) st Q.
Proof. unfold spec, mbind, M_bind. by destruct (m st). Qed.

Lemma spec_mono {A} (m : M A) st (Q1 Q2 : A → Stato → Prop) :
  spec m st Q1 → (∀ a st', Q1 a st' → Q2 a st') → spec m st Q2.
Proof. unfold spec. auto. Qed.

Lemma spec_leggi st (Q : Stato → Stato → Prop) : Q st st → spec leggi st Q.
Proof. done. Qed.

Lemma spec_modifica f st (Q : unit → Stato → Prop) :
  Q tt (f st) → spec (modifica f) st Q.
Proof. done. Qed.

Lemma spec_log g c m st (Q : unit → Stato → Prop) :
  Q tt (set_log (log st ++ [voce g c m]) st) → spec (_log g c m) st Q.
Proof. done. Qed.

Lemma spec_conserva {A} (R : relation Stato) (m : M A) st (Q : A → Stato → Prop) :
  conserva R m → (∀ a st', R st st' → Q a st') → spec m st Q.
Proof. intros Hm HQ. apply HQ, Hm. Qed.

(** The value of a computation whose effect is summarised by [R]. *)
Lemma spec_conserva_val {A} (R : relation Stato) (m : M A) st
    (P : A → Prop) (Q : A → Stato → Prop) :
  conserva R m → (∀ st0, P (m st0).1) →
  (∀ a st', P a → R st st' → Q a st') → spec m st Q.
Proof. intros Hm HP HQ. apply HQ; [apply HP | apply Hm]. Qed.

Lemma solo_log_estende st st' : solo_log st st' → estende st st'.
Proof. by intros (_ & _ & _ & _ & H). Qed.

Lemma estende_elem st st' e : estende st st' → e ∈ log st → e ∈ log st'.
Proof. intros (nuove & -> & _) H. apply elem_of_app. by left. Qed.

Lemma estende_log st g c m :
  m ≠ DerogaRegolaVarchi → estende st (set_log (log st ++ [voce g c m]) st).
Proof. apply (sr_log (R := estende)). Qed.

Lemma solo_log_log st g c m :
  m ≠ DerogaRegolaVarchi → solo_log st (set_log (log st ++ [voce g c m]) st).
Proof. apply (sr_log (R := solo_log)). Qed.

(** ** The driver selector *)

Section Autista.

Variable casuale : nat → Z.
Variable self : Scheduler.

Lemma ciclo_chiavi {A} (chiave : A → list Z) l acc st :
  map snd
    (ciclo (λ x acc, r ← random_random casuale; mret (acc ++ [(chiave x ++ [r], x)]))
       l acc st).1
  = map snd acc ++ l.
Proof.
  revert acc st. induction l as [| x l IH]; intros acc st; simpl.
  - by rewrite app_nil_r.
  - unfold mbind, M_bind, random_random, mret, M_ret. simpl.
    rewrite IH, map_app. simpl. by rewrite <- app_assoc.
Qed.

Lemma sort_con_chiave_perm {A} (chiave : A → list Z) l st :
  (sort_con_chiave casuale chiave l st).1 ≡ₚ l.
Proof.
  unfold sort_con_chiave, mbind, M_bind.
  pose proof (ciclo_chiavi chiave l [] st) as H.
  destruct (ciclo _ l [] st) as [chiavi st']. simpl in *.
  rewrite map_fmap, sorted_py_perm, <- map_fmap. by rewrite H.
Qed.

Lemma scegli_autista_spec giorno esclusioni st :
  spec (_scegli_autista casuale self giorno esclusioni) st
    (esito_autista self giorno esclusioni st).
Proof.
  unfold _scegli_autista. cbv zeta. apply spec_bind, spec_leggi.
  set (info := flat_map _ (autisti self)).
  assert (Hinfo : ∀ nome lim, (nome, lim) ∈ info →
            nome ∈ autisti self ∧ (nome ∉ esclusioni)
            ∧ (mode (rule_weekly_cap self) = HARD →
               _limite_raggiunto_raw self (cont_aut st) nome giorno = false)).
  { intros nome lim. unfold info. rewrite flat_map_bind, list_elem_of_bind.
    intros (x & Hx & Hin). case_bool_decide as He; [by apply not_elem_of_nil in Hx |].
    destruct (_in_ferie self x giorno); [by apply not_elem_of_nil in Hx |].
    destruct (_limite_raggiunto_raw self (cont_aut st) x giorno) eqn:Hraw.
    - case_bool_decide as Hm; simpl in Hx; [by apply not_elem_of_nil in Hx |].
      apply list_elem_of_singleton in Hx as [= -> ->]. done.
    - rewrite andb_false_r in Hx.
      apply list_elem_of_singleton in Hx as [= -> ->]. done. }
  clearbody info. destruct info as [| i0 info].
  { apply spec_bind, spec_log, spec_ret. unfold esito_autista. cbn.
    repeat split; try done.
    - by apply estende_log.
    - apply elem_of_app. right. by left. }
  set (candidati := map fst (i0 :: info)).
  assert (Hcand : ∀ nome, nome ∈ candidati → ∃ lim, (nome, lim) ∈ i0 :: info).
  { intros nome. unfold candidati. rewrite map_fmap, list_elem_of_fmap.
    intros ([n lim] & -> & H). by exists lim. }
  assert (Hne : candidati ≠ []) by done.
  clearbody candidati.
  set (preferiti := filter _ candidati).
  assert (Hpref : ∀ nome, nome ∈ preferiti → nome ∈ candidati).
  { intros nome. unfold preferiti. by intros [_ ?]%list_elem_of_filter. }
  clearbody preferiti.
  apply spec_bind.
  apply (spec_mono _ _
    (λ pool st', solo_log st st' ∧ pool ≠ [] ∧ ∀ nome, nome ∈ pool → nome ∈ candidati)).
  { destruct preferiti as [| p0 preferiti].
    - apply spec_bind, spec_log, spec_ret. split; [by apply solo_log_log | done].
    - apply spec_ret. split; [apply sr_refl | done]. }
  intros pool st1 (Hst1 & Hpool & Hsub). apply spec_bind.
  eapply (spec_conserva_val solo_log _ _ (λ l, l ≡ₚ pool)).
  { apply conserva_sort_con_chiave. }
  { intros st0. apply sort_con_chiave_perm. }
  intros ordinati st2 Hperm Hst2.
  assert (Hst : solo_log st st2) by (by eapply sr_trans).
  destruct ordinati as [| scelto resto].
  { by apply Permutation_nil_l in Hperm. }
  assert (Hscelto : scelto ∈ candidati).
  { apply Hsub. rewrite <- Hperm. by left. }
  destruct (Hcand _ Hscelto) as (lim & Hlim).
  destruct (Hinfo _ _ Hlim) as (Ha & He & Hraw).
  apply spec_bind.
  eapply (spec_conserva solo_log).
  { apply conserva_quando, conserva_log. discriminate. }
  intros _ st3 Hst3. apply spec_bind, spec_modifica, spec_ret.
  assert (Hst' : solo_log st st3) by (by eapply sr_trans).
  destruct Hst' as (E1 & E2 & E3 & E4 & E5).
  unfold esito_autista. cbn. rewrite E1. repeat split; done.
Qed.

End Autista.

(** ** The crew selector *)

Lemma combinations_spec {A} (l : list A) k c :
  c ∈ combinations l k → length c = k ∧ c `sublist_of` l.
Proof.
  revert k c. induction l as [| x l IH]; intros [| k] c; simpl.
  - intros ->%list_elem_of_singleton. split; [done | constructor].
  - by intros ?%not_elem_of_nil.
  - intros ->%list_elem_of_singleton. split; [done | apply sublist_nil_l].
  - rewrite elem_of_app, map_fmap, list_elem_of_fmap.
    intros [(c' & -> & Hc') | Hc].
    + destruct (IH _ _ Hc') as [H1 H2]. split; [simpl; lia | by constructor].
    + destruct (IH _ _ Hc) as [H1 H2]. split; [done | by constructor].
Qed.

Lemma per_ogni_aggiungi giorno team st :
  per_ogni
    (λ nome, modifica (λ st, set_cont_vig (aggiungi nome giorno (cont_vig st)) st))
    team st
  = (tt, set_cont_vig (foldl (λ c x, aggiungi x giorno c) (cont_vig st) team) st).
Proof.
  revert st. induction team as [| x team IH]; intros st; simpl.
  - by destruct st.
  - unfold mbind, M_bind, modifica. rewrite IH. done.
Qed.

Section Squadra.

Variable casuale : nat → Z.
Variable iter_set : gset string → list string.
Variable self : Scheduler.

Lemma candidati_disponibili_val giorno n c st :
  (candidati_disponibili giorno n c st).1 = candidati_base c
  ∨ (candidati_disponibili giorno n c st).1
    = candidati_base c ++ fallback_candidates c.
Proof. unfold candidati_disponibili. destruct (_ && _); [by right | by left]. Qed.

Lemma valuta_combinazione_val giorno aut obbl senior extra acc st :
  let r := (valuta_combinazione casuale self giorno aut obbl senior extra acc st).1 in
  r.1 = acc.1 ∨ ∃ s, r.1 = acc.1 ++ [s] ∧ sol_team s = obbl ++ extra.
Proof.
  unfold valuta_combinazione. cbv zeta. destruct acc as [soluzioni flag].
  destruct (existsb _ _); [by left |].
  unfold mbind, M_bind, quando, _log, modifica, leggi, random_random, mret, M_ret.
  repeat match goal with
         | |- context [if ?b then _ else _] => destruct b
         end; cbn; (by left) || (right; by eexists).
Qed.

Lemma ciclo_valuta_val giorno aut obbl senior l acc st :
  let r := (ciclo (valuta_combinazione casuale self giorno aut obbl senior) l acc st).1 in
  ∀ s, s ∈ r.1 → s ∈ acc.1 ∨ ∃ extra, extra ∈ l ∧ sol_team s = obbl ++ extra.
Proof.
  revert acc st. induction l as [| x l IH]; intros acc st; simpl.
  - intros s Hs. by left.
  - unfold mbind, M_bind.
    pose proof (valuta_combinazione_val giorno aut obbl senior x acc st) as Hv.
    destruct (valuta_combinazione _ _ _ _ _ _ x acc st) as [acc' st']. simpl in Hv.
    intros s Hs. destruct (IH acc' st' s Hs) as [Hin | (extra & He & Ht)].
    + destruct Hv as [Hv | (s' & Hv & Ht)]; rewrite Hv in Hin; [by left |].
      apply elem_of_app in Hin as [Hin | ->%list_elem_of_singleton]; [by left |].
      right. exists x. split; [by left | done].
    + right. exists extra. split; [by right | done].
Qed.

Lemma esito_squadra_None giorno n aut escl st st' :
  solo_log st st' → esito_squadra iter_set self giorno n aut escl st None st'.
Proof. intros (E1 & E2 & E3 & E4 & E5). by repeat split. Qed.

Lemma scegli_squadra_spec giorno n aut escl st :
  spec (_scegli_squadra_vigili casuale iter_set self giorno n aut escl) st
    (esito_squadra iter_set self giorno n aut escl st).
Proof.
  unfold _scegli_squadra_vigili. destruct (Z.leb_spec n 0) as [Hn | Hn].
  { apply spec_ret. split; [done |]. split; [done |].
    split; [apply estende_refl |]. split; [done |]. split; [simpl; lia |].
    split; [by intros y ?%not_elem_of_nil | constructor]. }
  apply spec_bind, spec_leggi. cbv zeta.
  set (c := raccogli_candidati self (cont_vig st) giorno escl).
  assert (Hbase : candidati_base c
            = filter (λ nome, ammesso self (cont_vig st) giorno escl nome
                              && negb (in_deroga self (cont_vig st) giorno nome) = true)
                (vigili self)) by apply raccogli_candidati_base.
  assert (Hfall : fallback_candidates c
            = filter (λ nome, ammesso self (cont_vig st) giorno escl nome
                              && in_deroga self (cont_vig st) giorno nome = true)
                (vigili self)) by apply raccogli_candidati_fallback.
  clearbody c. apply spec_bind.
  eapply (spec_conserva_val solo_log _ _
    (λ disp, (∀ x, x ∈ disp → x ∈ vigili self
                   ∧ ammesso self (cont_vig st) giorno escl x = true)
             ∧ (NoDup (vigili self) → NoDup disp))).
  { apply conserva_candidati_disponibili. }
  { intros st0.
    assert (Hb : ∀ x, x ∈ candidati_base c →
              x ∈ vigili self ∧ ammesso self (cont_vig st) giorno escl x = true).
    { intros x. rewrite Hbase. intros [H ?]%list_elem_of_filter.
      by apply andb_true_iff in H as [? _]. }
    assert (Hf : ∀ x, x ∈ fallback_candidates c →
              x ∈ vigili self ∧ ammesso self (cont_vig st) giorno escl x = true).
    { intros x. rewrite Hfall. intros [H ?]%list_elem_of_filter.
      by apply andb_true_iff in H as [? _]. }
    destruct (candidati_disponibili_val giorno n c st0) as [-> | ->].
    - split; [done |]. intros Hnd. rewrite Hbase. by apply NoDup_filter.
    - split; [intros x [?|?]%elem_of_app; auto |]. intros Hnd.
      apply NoDup_app. split; [rewrite Hbase; by apply NoDup_filter |].
      split; [| rewrite Hfall; by apply NoDup_filter].
      intros x. rewrite Hbase, Hfall.
      intros [H1 _]%list_elem_of_filter [H2 _]%list_elem_of_filter.
      apply andb_true_iff in H1 as [_ H1]. apply andb_true_iff in H2 as [_ H2].
      by rewrite H2 in H1. }
  intros disponibili st1 [Hdisp Hdnd] Hst1.
  destruct (Z.ltb_spec (Z.of_nat (length disponibili)) n) as [Hlen | Hlen].
  { apply spec_bind, spec_log, spec_ret. apply esito_squadra_None.
    eapply sr_trans; [exact Hst1 | by apply solo_log_log]. }
  set (obbligatori := iter_set (_preferenze_obbligatorie self aut)).
  set (obbl0 := filter (λ nome, nome ∈ disponibili) obbligatori).
  apply spec_bind. eapply (spec_conserva solo_log).
  { apply conserva_per_ogni. intros x. apply conserva_log. discriminate. }
  intros _ st2 Hst2. apply spec_bind. eapply (spec_conserva solo_log).
  { apply conserva_quando, conserva_log. discriminate. }
  intros _ st3 Hst3.
  set (obbl := if n <? Z.of_nat (length obbl0) then take (Z.to_nat n) obbl0 else obbl0).
  assert (Hobbl_sub : obbl `sublist_of` obbl0).
  { unfold obbl. destruct (_ <? _); [apply sublist_take | done]. }
  assert (Hobbl_len : Z.of_nat (length obbl) ≤ n).
  { unfold obbl. destruct (Z.ltb_spec n (Z.of_nat (length obbl0))); [| done].
    rewrite length_take. lia. }
  assert (Hobbl_in : ∀ x, x ∈ obbl → x ∈ disponibili).
  { intros x Hx. eapply elem_of_sublist in Hx; [| exact Hobbl_sub].
    by apply list_elem_of_filter in Hx as [? _]. }
  clearbody obbl.
  set (slot := Z.max 0 (n - Z.of_nat (length obbl))).
  set (residui := filter (λ nome, nome ∉ obbl) disponibili).
  destruct (Z.ltb_spec (Z.of_nat (length residui)) slot) as [Hres | Hres].
  { apply spec_bind, spec_log, spec_ret. apply esito_squadra_None.
    eapply sr_trans; [| by apply solo_log_log].
    eapply sr_trans; [exact Hst1 |]. by eapply sr_trans. }
  set (combinazioni := if 0 <? slot then combinations residui (Z.to_nat slot) else [[]]).
  assert (Hcomb : ∀ extra, extra ∈ combinazioni →
            length extra = Z.to_nat slot ∧ extra `sublist_of` residui).
  { intros extra. unfold combinazioni. destruct (Z.ltb_spec 0 slot).
    - apply combinations_spec.
    - intros ->%list_elem_of_singleton. split; [simpl; lia | apply sublist_nil_l]. }
  clearbody combinazioni. apply spec_bind.
  eapply (spec_conserva_val solo_log _ _
    (λ r, ∀ s, s ∈ r.1 → ∃ extra, extra ∈ combinazioni ∧ sol_team s = obbl ++ extra)).
  { apply conserva_ciclo. intros x b. apply conserva_valuta_combinazione. }
  { intros st0 s Hs.
    destruct (ciclo_valuta_val giorno aut obbl (existsb (is_senior self) disponibili)
                combinazioni ([], false) st0 s Hs) as [H | H]; [| done].
    by apply not_elem_of_nil in H. }
  intros [soluzioni flag] st4 Hsol Hst4. simpl in Hsol.
  assert (Hst : solo_log st st4).
  { eapply sr_trans; [exact Hst1 |]. eapply sr_trans; [exact Hst2 |].
    by eapply sr_trans. }
  pose proof (sorted_py_perm (λ a b, tuple_leb (punteggio a) (punteggio b)) soluzioni)
    as Hperm.
  destruct (sorted_py _ soluzioni) as [| migliore resto].
  { apply spec_bind, spec_log, spec_ret. apply esito_squadra_None.
    eapply sr_trans; [exact Hst | by apply solo_log_log]. }
  assert (Hmig : migliore ∈ soluzioni) by (rewrite <- Hperm; by left).
  destruct (Hsol _ Hmig) as (extra & Hextra & Hteam).
  destruct (Hcomb _ Hextra) as [Hel Hes].
  apply spec_bind. eapply (spec_conserva solo_log).
  { apply conserva_quando, conserva_log. discriminate. }
  intros _ st5 Hst5. apply spec_bind, spec_leggi. apply spec_bind.
  eapply (spec_conserva solo_log).
  { apply conserva_quando, conserva_log. discriminate. }
  intros _ st6 Hst6. apply spec_bind. eapply (spec_conserva solo_log).
  { apply conserva_quando, conserva_per_ogni. intros x.
    apply conserva_quando, conserva_log. discriminate. }
  intros _ st7 Hst7. apply spec_bind. eapply (spec_conserva solo_log).
  { apply conserva_quando, conserva_per_ogni. intros x.
    apply conserva_quando, conserva_log. discriminate. }
  intros _ st8 Hst8. apply spec_bind. unfold spec at 1.
  rewrite per_ogni_aggiungi. cbn [fst snd].
  apply spec_bind, spec_modifica, spec_ret.
  assert (Hfin : solo_log st st8).
  { eapply sr_trans; [exact Hst |]. eapply sr_trans; [exact Hst5 |].
    eapply sr_trans; [exact Hst6 |]. by eapply sr_trans. }
  destruct Hfin as (E1 & E2 & E3 & E4 & E5).
  unfold esito_squadra. cbn. rewrite E2.
  split; [done |]. split; [done |]. split; [done |]. split; [done |].
  rewrite Hteam. split; [| split].
  - rewrite length_app, Hel. unfold slot. lia.
  - intros x [Hx | Hx]%elem_of_app; apply Hdisp; [by apply Hobbl_in |].
    eapply elem_of_sublist in Hx; [| exact Hes].
    by apply list_elem_of_filter in Hx as [_ ?].
  - intros Hnd1 Hnd2. apply NoDup_app. split; [| split].
    + eapply sublist_NoDup; [| exact Hobbl_sub]. by apply NoDup_filter.
    + intros x Hx Hx'. eapply elem_of_sublist in Hx'; [| exact Hes].
      by apply list_elem_of_filter in Hx' as [? _].
    + eapply sublist_NoDup; [| exact Hes]. apply NoDup_filter. auto.
Qed.

End Squadra.

(** ** Weekly counters *)

Lemma se_assente_lookup_total {V} `{Inhabited V} nome (v : V) d :
  se_assente nome v d !!! nome = default v (d !! nome).
Proof.
  unfold se_assente, lookup_total, map_lookup_total.
  destruct (d !! nome) as [x |] eqn:E; simpl.
  - by rewrite E.
  - by rewrite lookup_insert_eq.
Qed.

Lemma se_assente_lookup_ne {V} nome nome' (v : V) d :
  nome ≠ nome' → se_assente nome v d !! nome' = d !! nome'.
Proof.
  intros Hne. unfold se_assente. destruct (d !! nome); [done |].
  by rewrite lookup_insert_ne.
Qed.

Lemma tot_settimana_eq c p w :
  tot_settimana c p w = default 0 (default ∅ (per_settimana c !! p) !! w).
Proof.
  unfold tot_settimana, assicura_persona. simpl.
  by rewrite se_assente_lookup_total.
Qed.

(** Recording a shift raises the weekly counter of that person and week by
    one and leaves every other weekly counter as it was. *)
Lemma tot_settimana_aggiungi c x g p w :
  tot_settimana (aggiungi x g c) p w
  = tot_settimana c p w
    + (if bool_decide (p = x ∧ w = _week_key g) then 1 else 0).
Proof.
  rewrite !tot_settimana_eq. unfold aggiungi, assicura_persona. cbn.
  rewrite se_assente_lookup_total.
  destruct (decide (p = x)) as [-> | Hne].
  - rewrite lookup_insert_eq. simpl.
    destruct (decide (w = _week_key g)) as [-> | Hw].
    + rewrite lookup_insert_eq. simpl.
      rewrite bool_decide_eq_true_2 by done. done.
    + rewrite lookup_insert_ne by done.
      rewrite bool_decide_eq_false_2 by (intros [_ ?]; done). lia.
  - rewrite lookup_insert_ne by done.
    rewrite se_assente_lookup_ne by done.
    rewrite bool_decide_eq_false_2 by (intros [? _]; done). lia.
Qed.

Section Limiti.

Variable self : Scheduler.


(** The raw cap check only gets stricter as the weekly counter grows. *)
Lemma _limite_raggiunto_raw_mono cont cont' p g :
  tot_settimana cont p (_week_key g) ≤ tot_settimana cont' p (_week_key g) →
  _limite_raggiunto_raw self cont' p g = false →
  _limite_raggiunto_raw self cont p g = false.
Proof.
  unfold _limite_raggiunto_raw. intros Hle.
  destruct (Z.leb_spec (_limite_settimanale self p) 0); [done |].
  intros ?%Z.leb_gt. apply Z.leb_gt. lia.
Qed.

Lemma tot_settimana_registra_le cont g nomi p w :
  tot_settimana cont p w ≤ tot_settimana (registra g cont nomi) p w.
Proof.
  unfold registra. revert cont.
  induction nomi as [| x nomi IH]; intros cont; simpl; [lia |].
  etrans; [| apply IH]. rewrite tot_settimana_aggiungi. case_bool_decide; lia.
Qed.

Lemma tot_settimana_registra_elem cont g nomi p :
  p ∈ nomi →
  tot_settimana cont p (_week_key g) + 1
  ≤ tot_settimana (registra g cont nomi) p (_week_key g).
Proof.
  unfold registra. revert cont.
  induction nomi as [| x nomi IH]; intros cont; simpl.
  - by intros ?%not_elem_of_nil.
  - intros [-> | Hin]%elem_of_cons.
    + etrans; [| apply (tot_settimana_registra_le _ g nomi)].
      rewrite tot_settimana_aggiungi, bool_decide_eq_true_2 by done. lia.
    + etrans; [| by apply IH]. rewrite tot_settimana_aggiungi.
      case_bool_decide; lia.
Qed.

Lemma registra_app g cont l1 l2 :
  registra g cont (l1 ++ l2) = registra g (registra g cont l1) l2.
Proof. unfold registra. apply foldl_app. Qed.

End Limiti.

(** ** The bonus member and the composition of one date *)

Lemma segnalato_estende giorno st st' :
  estende st st' → segnalato giorno st → segnalato giorno st'.
Proof. intros He (e & Hin & H). exists e. split; [by eapply estende_elem | done]. Qed.

Lemma segnalato_log giorno c m st :
  scoperto m → segnalato giorno (set_log (log st ++ [voce giorno c m]) st).
Proof.
  intros Hm. exists (voce giorno c m). split; [| done].
  apply elem_of_app. right. by left.
Qed.

Section Interno.

Variable casuale : nat → Z.
Variable iter_set : gset string → list string.
Variable self : Scheduler.

Lemma ammesso_hard_raw cont giorno escl x :
  mode (rule_weekly_cap self) = HARD →
  ammesso self cont giorno escl x = true →
  _limite_raggiunto_raw self cont x giorno = false.
Proof.
  intros Hm. unfold ammesso. rewrite Hm.
  rewrite (bool_decide_eq_true_2 (HARD = HARD)) by done.
  intros H. apply andb_true_iff in H as [_ H]. simpl in H.
  by apply negb_true_iff in H.
Qed.

Lemma ammesso_non_escluso cont giorno escl x :
  ammesso self cont giorno escl x = true → x ∉ escl.
Proof.
  unfold ammesso. intros H.
  apply andb_true_iff in H as [H _]. apply andb_true_iff in H as [H _].
  apply andb_true_iff in H as [H _]. apply negb_true_iff in H.
  by apply bool_decide_eq_false in H.
Qed.

Lemma _ha_raggiunto_limite_hard cont x giorno :
  mode (rule_weekly_cap self) = HARD →
  _ha_raggiunto_limite self cont x giorno = _limite_raggiunto_raw self cont x giorno.
Proof.
  intros Hm. unfold _ha_raggiunto_limite. rewrite Hm.
  rewrite !bool_decide_eq_false_2 by done. by rewrite andb_false_r.
Qed.

Lemma aggiungi_varchi_spec giorno squadra varchi st :
  autista_varchi self = Some varchi →
  truthy (Some varchi) = true →
  Some varchi ∉ squadra →
  spec (_aggiungi_varchi_venerdi self giorno squadra) st
    (esito_bonus self giorno squadra varchi st).
Proof.
  intros Hv Ht Hnin. unfold _aggiungi_varchi_venerdi. rewrite Hv, Ht. simpl.
  rewrite bool_decide_eq_false_2 by done.
  destruct (_in_ferie self varchi giorno).
  { apply spec_bind, spec_log, spec_ret. unfold esito_bonus. cbn.
    split; [done |]. split; [done |]. split; [by apply estende_log |].
    left. split; [done |]. split; [done |]. by apply segnalato_log. }
  apply spec_bind, spec_leggi.
  destruct (_ha_raggiunto_limite self (cont_vig st) varchi giorno) eqn:Hlim.
  { apply spec_bind, spec_log, spec_ret. unfold esito_bonus. cbn.
    split; [done |]. split; [done |]. split; [by apply estende_log |].
    left. split; [done |]. split; [done |]. by apply segnalato_log. }
  apply spec_bind, spec_modifica, spec_bind, spec_modifica, spec_bind, spec_log, spec_ret.
  unfold esito_bonus. cbn.
  split; [done |]. split; [done |]. split; [| by right].
  eexists. split; [done |]. by repeat constructor.
Qed.

Lemma take_completa (l : list (option string)) :
  length l = 4%nat → take 4 (l ++ replicate (4 - length l) None) = l.
Proof. intros H. rewrite H. simpl. rewrite app_nil_r. by apply take_ge; lia. Qed.

Lemma take_tre (l : list (option string)) :
  length l = 3%nat → take 4 (l ++ replicate (4 - length l) None) = l ++ [None].
Proof.
  intros H. rewrite H. simpl. apply take_ge. rewrite length_app, H. simpl. lia.
Qed.

Lemma existsb_None_Some (l : list string) :
  existsb (λ v : option string, bool_decide (v = None)) (map Some l) = false.
Proof. induction l; simpl; [done | by rewrite IHl]. Qed.

Lemma omap_id_Some (l : list string) : omap id (map Some l) = l.
Proof. induction l as [| x l IH]; [done |]. cbn. by f_equal. Qed.

End Interno.

Section ComposizioneData.

Variable casuale : nat → Z.
Variable iter_set : gset string → list string.
Variable self : Scheduler.

Lemma costruisci_per_data_internal_spec giorno assegnazioni sabato apply_varchi st :
  spec (_costruisci_per_data_internal casuale iter_set self giorno assegnazioni
          sabato apply_varchi) st
    (esito_interno self giorno st).
Proof.
  unfold _costruisci_per_data_internal. cbv zeta.
  apply spec_bind. eapply (spec_conserva solo_log).
  { apply conserva_quando, conserva_log. discriminate. }
  intros _ st1 Hst1. apply spec_bind.
  eapply spec_mono; [apply scegli_autista_spec |].
  intros autista st2 (A1 & A2 & A3 & A4 & A5).
  apply spec_bind. eapply (spec_conserva solo_log).
  { apply conserva_quando, conserva_log. discriminate. }
  intros _ st3 Hst3. apply spec_bind.
  eapply spec_mono; [apply scegli_squadra_spec |].
  match goal with
  | |- context [if ?b then _aggiungi_varchi_venerdi _ _ _ else _] =>
      set (include_varchi := b)
  end.
  match goal with
  | |- context [esito_squadra _ _ _ ?n _ ?e] =>
      set (vigili_base := n); set (esclusioni_vigili := e)
  end.
  match goal with
  | |- context [Build_Assegnazione _ (if ?b then _ else _) _] =>
      set (sostituisci := b)
  end.
  intros squadra st4 (B1 & B2 & B3 & B4).
  destruct Hst1 as (C1 & C2 & C3 & C4 & C5).
  destruct Hst3 as (D1 & D2 & D3 & D4 & D5).
  assert (Est4 : estende st st4).
  { eapply estende_trans; [exact C5 |]. eapply estende_trans; [exact A4 |].
    by eapply estende_trans. }
  assert (Haut : cont_aut st4 = registra giorno (cont_aut st) (option_list autista)).
  { rewrite B1, D1. destruct autista as [s |]; simpl.
    - destruct A5 as (-> & _). by rewrite C1.
    - destruct A5 as (-> & _). done. }
  assert (Hraw : mode (rule_weekly_cap self) = HARD →
            ∀ s, autista = Some s →
                 _limite_raggiunto_raw self (cont_aut st) s giorno = false).
  { intros Hm s ->. destruct A5 as (_ & _ & _ & H). rewrite <- C1. by apply H. }
  assert (Hvig3 : cont_vig st3 = cont_vig st) by congruence.
  assert (Hreali : autisti_reali st4 = autisti_reali st) by congruence.
  assert (Hnoaut : autista = None → segnalato giorno st4).
  { intros ->. destruct A5 as (_ & Hin).
    exists (voce giorno AUTISTA NessunAutista). split; [| done].
    eapply estende_elem; [| exact Hin]. by eapply estende_trans. }
  assert (Hdisplay : (if sostituisci then autista_varchi self else autista) = None →
            autista = None).
  { unfold sostituisci. destruct (autista_varchi self) as [v |] eqn:Hv.
    - destruct (_ && _ && _ && _ && truthy (Some v)); done.
    - by rewrite andb_false_r. }
  destruct squadra as [team |].
  2: {
    apply spec_bind, spec_log, spec_ret. unfold esito_interno. cbn.
    split; [done |]. split; [done |]. split; [done |].
    split; [eapply estende_trans; [exact Est4 | by apply estende_log] |].
    split; [done |]. split; [done |].
    split; [by rewrite B4, Hvig3 |].
    split.
    { intros _ p Hp. repeat (apply elem_of_cons in Hp as [[=] | Hp]).
      by apply not_elem_of_nil in Hp. }
    intros _. by apply segnalato_log. }
  destruct B4 as (T1 & T2 & T3 & T4).
  assert (Hteam_raw : mode (rule_weekly_cap self) = HARD →
            ∀ x, x ∈ team → _limite_raggiunto_raw self (cont_vig st) x giorno = false).
  { intros Hm x Hx. rewrite <- Hvig3. eapply ammesso_hard_raw; [done |].
    by apply T3. }
  assert (Hsquadra : mode (rule_weekly_cap self) = HARD →
            ∀ p, Some p ∈ map Some team →
                 _limite_raggiunto_raw self (cont_vig st) p giorno = false).
  { intros Hm p. rewrite map_fmap, list_elem_of_fmap. intros (x & [= <-] & Hx).
    by apply Hteam_raw. }
  rewrite Hvig3 in T1.
  destruct include_varchi eqn:Hinc.
  - (* the bonus slot is reserved *)
    assert (Hlen : length team = 3%nat).
    { unfold vigili_base, _numero_vigili_previsti in T2. lia. }
    destruct (autista_varchi self) as [varchi |] eqn:Hv.
    2: { unfold include_varchi in Hinc. simpl in Hinc.
         by rewrite andb_false_r in Hinc. }
    assert (Htruthy : truthy (Some varchi) = true).
    { unfold include_varchi in Hinc.
      apply andb_true_iff in Hinc as [Hinc _].
      by apply andb_true_iff in Hinc as [_ Hinc]. }
    assert (Happly : apply_varchi = true).
    { unfold include_varchi in Hinc. by destruct apply_varchi. }
    assert (Hnin : Some varchi ∉ map Some team).
    { rewrite map_fmap, list_elem_of_fmap. intros (x & [= <-] & Hx).
      destruct (T3 _ Hx) as [_ Ha]. apply ammesso_non_escluso in Ha.
      apply Ha. unfold esclusioni_vigili. rewrite Happly, Htruthy. simpl.
      apply elem_of_union. right. by apply elem_of_singleton. }
    apply spec_bind.
    eapply spec_mono; [by apply (aggiungi_varchi_spec self giorno _ varchi) |].
    intros sl st5 (F1 & F2 & F3 & F4). apply spec_ret.
    unfold esito_interno. cbn [fst snd a_giorno a_vigili a_autista].
    split; [done |].
    destruct F4 as [(-> & F5 & F6) | (-> & F5 & F6)].
    + rewrite take_tre by (by rewrite length_map).
      split; [rewrite length_app, length_map; simpl; lia |].
      split; [congruence |].
      split; [by eapply estende_trans |].
      split; [congruence |]. split; [done |].
      split; [by rewrite omap_app, omap_id_Some, F5, app_nil_r |].
      split; [| done].
      intros Hm p [Hp | [=]%list_elem_of_singleton]%elem_of_app. by apply Hsquadra.
    + rewrite take_completa by (rewrite length_app, length_map; simpl; lia).
      split; [rewrite length_app, length_map; simpl; lia |].
      split; [congruence |].
      split; [by eapply estende_trans |].
      split; [congruence |]. split; [done |].
      split; [by rewrite omap_app, omap_id_Some, registra_app, F5, T1 |].
      split.
      * intros Hm p [Hp | [= ->]%list_elem_of_singleton]%elem_of_app;
          [by apply Hsquadra |].
        rewrite _ha_raggiunto_limite_hard in F6 by done.
        eapply _limite_raggiunto_raw_mono; [| exact F6].
        rewrite T1. apply tot_settimana_registra_le.
      * unfold _turno_incompleto. cbn [a_autista a_vigili].
        destruct (if sostituisci then Some varchi else autista) eqn:Hd.
        -- rewrite existsb_app, existsb_None_Some. done.
        -- intros _. eapply segnalato_estende; [exact F3 |].
           by apply Hnoaut, Hdisplay.
  - (* four ordinary slots *)
    assert (Hlen : length team = 4%nat).
    { unfold vigili_base, _numero_vigili_previsti in T2. lia. }
    apply spec_bind, spec_ret, spec_ret.
    unfold esito_interno. cbn [fst snd a_giorno a_vigili a_autista].
    rewrite take_completa by (by rewrite length_map).
    split; [done |]. split; [by rewrite length_map |].
    split; [done |]. split; [done |]. split; [done |]. split; [done |].
    split; [by rewrite omap_id_Some |]. split; [done |].
    unfold _turno_incompleto. cbn [a_autista a_vigili].
    destruct (if sostituisci then autista_varchi self else autista) eqn:Hd.
    + by rewrite existsb_None_Some.
    + intros _. by apply Hnoaut, Hdisplay.
Qed.

End ComposizioneData.

(** ** One date of the run *)

Lemma progredisce_refl st : progredisce st st.
Proof. split; [exists []; by rewrite app_nil_r |]. split; intros; lia. Qed.

Lemma progredisce_trans a b c : progredisce a b → progredisce b c → progredisce a c.
Proof.
  intros ((n1 & E1) & A1 & A2) ((n2 & E2) & B1 & B2). split; [| split].
  - exists (n1 ++ n2). by rewrite E2, E1, app_assoc.
  - intros p w. etrans; [apply A1 | apply B1].
  - intros p w. etrans; [apply A2 | apply B2].
Qed.

Lemma segnalato_progredisce giorno st st' :
  progredisce st st' → segnalato giorno st → segnalato giorno st'.
Proof.
  intros ((nuove & E) & _) (e & Hin & H). exists e. split; [| done].
  rewrite E. apply elem_of_app. by left.
Qed.

Section Data.

Variable casuale : nat → Z.
Variable iter_set : gset string → list string.
Variable self : Scheduler.

Lemma esito_interno_progredisce giorno st r st' :
  esito_interno self giorno st r st' →
  progredisce st st'
  ∧ (∀ s, r.2 = Some s →
       (mode (rule_weekly_cap self) = HARD →
        _limite_raggiunto_raw self (cont_aut st) s giorno = false)
       ∧ tot_settimana (cont_aut st) s (_week_key giorno) + 1
         ≤ tot_settimana (cont_aut st') s (_week_key giorno))
  ∧ (∀ p, Some p ∈ a_vigili r.1 →
       (mode (rule_weekly_cap self) = HARD →
        _limite_raggiunto_raw self (cont_vig st) p giorno = false)
       ∧ tot_settimana (cont_vig st) p (_week_key giorno) + 1
         ≤ tot_settimana (cont_vig st') p (_week_key giorno)).
Proof.
  intros (H1 & H2 & H3 & H4 & H5 & H6 & H7 & H8 & H9).
  split; [| split].
  - split; [| split].
    + destruct H4 as (nuove & E & _). by exists nuove.
    + intros p w. rewrite H5. apply tot_settimana_registra_le.
    + intros p w. rewrite H7. apply tot_settimana_registra_le.
  - intros s Hs. split; [intros Hm; by apply H6 |]. rewrite H5, Hs. simpl.
    rewrite tot_settimana_aggiungi, bool_decide_eq_true_2 by done. lia.
  - intros p Hp. split; [intros Hm; by apply H8 |].
    rewrite H7. apply tot_settimana_registra_elem.
    apply list_elem_of_omap. by exists (Some p).
Qed.

Lemma costruisci_per_data_spec giorno assegnazioni st :
  spec (_costruisci_per_data casuale iter_set self giorno assegnazioni) st
    (esito_data self giorno st).
Proof.
  unfold _costruisci_per_data. apply spec_bind, spec_leggi. cbv zeta.
  apply spec_bind.
  eapply spec_mono; [apply costruisci_per_data_internal_spec |].
  intros [a1 reale1] st1 H1.
  pose proof (esito_interno_progredisce _ _ _ _ H1) as (P1 & A1 & V1).
  destruct H1 as (G1 & N1 & R1 & _ & _ & _ & _ & _ & I1). cbn [fst snd] in *.
  apply spec_bind.
  destruct (_ && _ && _turno_incompleto a1).
  - apply spec_bind, spec_log.
    eapply spec_mono; [apply costruisci_per_data_internal_spec |].
    intros [a2 reale2] st2 H2.
    pose proof (esito_interno_progredisce _ _ _ _ H2) as (P2 & A2 & V2).
    destruct H2 as (G2 & N2 & R2 & _ & _ & _ & _ & _ & I2). cbn [fst snd] in *.
    cbn [cont_aut cont_vig set_log autisti_reali] in *.
    assert (Pm : progredisce st1
                   (set_log (log st1 ++ [voce giorno AUTISTA DerogaRegolaVarchi]) st1)).
    { split; [by eexists |]. split; intros; cbn; lia. }
    assert (P : progredisce st st2).
    { eapply progredisce_trans; [exact P1 |]. by eapply progredisce_trans. }
    apply spec_bind, spec_modifica, spec_ret. unfold esito_data.
    cbn [cont_aut cont_vig set_autisti_reali autisti_reali].
    destruct P1 as (_ & Pa & Pv).
    split; [done |]. split; [done |].
    split.
    { destruct P as (Pl & Pa' & Pv'). split; [| by split]. exact Pl. }
    split.
    { intros Hinc. destruct (I2 Hinc) as (e & He & Hp). by exists e. }
    split.
    { intros p Hp. destruct (V2 p Hp) as [W1 W2]. split.
      - intros Hm. eapply _limite_raggiunto_raw_mono; [apply Pv | by apply W1].
      - specialize (Pv p (_week_key giorno)). lia. }
    exists reale2. split; [by rewrite R2, R1 |].
    intros s Hs. destruct (A2 s Hs) as [W1 W2]. split.
    + intros Hm. eapply _limite_raggiunto_raw_mono; [apply Pa | by apply W1].
    + specialize (Pa s (_week_key giorno)). lia.
  - apply spec_ret, spec_bind, spec_modifica, spec_ret. unfold esito_data.
    cbn [cont_aut cont_vig set_autisti_reali autisti_reali].
    split; [done |]. split; [done |].
    split.
    { destruct P1 as (Pl & Pa & Pv). split; [| by split]. exact Pl. }
    split.
    { intros Hinc. destruct (I1 Hinc) as (e & He & Hp). by exists e. }
    split; [done |].
    exists reale1. by rewrite R1.
Qed.

End Data.

(** ** The whole run *)

Lemma ciclo_app {A B} (f : A → B → M B) l1 l2 acc st :
  ciclo f (l1 ++ l2) acc st
  = let '(acc', st') := ciclo f l1 acc st in ciclo f l2 acc' st'.
Proof.
  revert acc st. induction l1 as [| x l1 IH]; intros acc st; simpl; [done |].
  unfold mbind, M_bind. destruct (f x acc st) as [acc1 st1]. apply IH.
Qed.

Lemma ciclo_flat_map {A B C} (f : A → B → M B) (g : C → list A) L acc st :
  ciclo (λ x acc, ciclo f (g x) acc) L acc st = ciclo f (flat_map g L) acc st.
Proof.
  revert acc st. induction L as [| x L IH]; intros acc st; simpl; [done |].
  rewrite ciclo_app. unfold mbind, M_bind.
  destruct (ciclo f (g x) acc st) as [acc1 st1]. apply IH.
Qed.

(** A loop keeps an invariant that speaks of the items handled so far. *)
Lemma ciclo_inv {A B} (f : A → B → M B) (I : list A → B → Stato → Prop) tutti :
  (∀ fatti x resto acc st,
     tutti = fatti ++ x :: resto → I fatti acc st →
     I (fatti ++ [x]) (f x acc st).1 (f x acc st).2) →
  ∀ acc st, I [] acc st →
    I tutti (ciclo f tutti acc st).1 (ciclo f tutti acc st).2.
Proof.
  intros Hstep.
  assert (H : ∀ resto fatti acc st,
            tutti = fatti ++ resto → I fatti acc st →
            I tutti (ciclo f resto acc st).1 (ciclo f resto acc st).2).
  { induction resto as [| x resto IH]; intros fatti acc st E HI; simpl.
    - by rewrite E, app_nil_r.
    - unfold mbind, M_bind.
      pose proof (Hstep fatti x resto acc st E HI) as HI'.
      destruct (f x acc st) as [acc1 st1]. simpl in HI'.
      apply (IH (fatti ++ [x])); [by rewrite <- app_assoc | done]. }
  intros acc st HI. by apply (H tutti []).
Qed.

Section Corsa.

Variable casuale : nat → Z.
Variable iter_set : gset string → list string.
Variable self : Scheduler.

(** [costruisci] is one loop over the dates in the order of
    [ordine_elaborazione]. *)
Lemma costruisci_ciclo st :
  costruisci casuale iter_set self st
  = let '(assegnazioni, st') :=
      ciclo (passo_data casuale iter_set self) (ordine_elaborazione (date_attive self)) [] st in
    (in_ordine_di_data assegnazioni, st').
Proof.
  unfold costruisci, ordine_elaborazione. cbv zeta. unfold mbind at 1, M_bind at 1.
  rewrite <- ciclo_flat_map.
  by destruct (ciclo _ _ [] st).
Qed.








End Corsa.

(** ** The list returned by [costruisci] *)

Lemma in_ordine_di_data_giorni (acc : list (date * Assegnazione)) :
  (∀ d a, (d, a) ∈ acc → a_giorno a = d) →
  map a_giorno (in_ordine_di_data acc) = sorted_py Z.leb (map fst acc).
Proof.
  intros Hg. unfold in_ordine_di_data.
  assert (H : ∀ keys, (∀ d, d ∈ keys → d ∈ map fst acc) →
            map a_giorno (omap (λ d, dict_get d acc) keys) = keys).
  { induction keys as [| d keys IH]; intros Hk; [done |]. cbn.
    destruct (dict_get d acc) as [a |] eqn:E.
    - simpl. rewrite IH by (intros; apply Hk; by right).
      by rewrite (Hg d a (dict_get_Some _ _ _ E)).
    - apply dict_get_None in E. destruct E. apply Hk. by left. }
  apply H. intros d. by rewrite sorted_py_perm.
Qed.

Lemma in_ordine_di_data_perm (acc : list (date * Assegnazione)) :
  NoDup (map fst acc) → in_ordine_di_data acc ≡ₚ map snd acc.
Proof.
  intros Hnd. unfold in_ordine_di_data. rewrite sorted_py_perm.
  assert (H : ∀ l, (∀ x, x ∈ l → x ∈ acc) →
            omap (λ d, dict_get d acc) (map fst l) = map snd l).
  { induction l as [| [d a] l IH]; intros Hl; [done |]. cbn.
    rewrite (dict_get_elem d a acc Hnd) by (apply Hl; by left).
    simpl. f_equal. apply IH. intros. apply Hl. by right. }
  by rewrite H.
Qed.



Lemma date_attive_init_sorted anno config months :
  StronglySorted Z.lt (date_attive (Scheduler_init anno config months)).
Proof. apply date_attive_anno_sorted. Qed.

(** C8 (failing input): with the default rules, Varchi is the only driver
    and a senior crew member, and no second rotation driver is configured.
    On Saturday 6 January 2024 the rotation rule excludes Varchi, no driver
    is found and the log says so, and the load of driving is attributed to
    nobody; yet the Assignment of the date shows Varchi as driver beside four
    crew members, so it has no missing field. The same happens on the other
    Saturdays of the month. *)
Theorem C8_sabato_senza_autista_mostrato_completo :
  let self := Scheduler_init 2024 (config_sabato_varchi_senior HARD) gennaio in
  let sabato := _ymd2ord 2024 1 6 in
  let r := esegui (λ _, 0) ordine_alfabetico 2024 (config_sabato_varchi_senior HARD)
             gennaio in
  (_scegli_autista (λ _, 0) self sabato {["Varchi"%string]} (Stato_init self)).1 = None
  ∧ head r.1
    = Some {| a_giorno := sabato; a_autista := Some "Varchi"%string;
              a_vigili :=
                [Some "Bianchi"; Some "Gialli"; Some "Neri"; Some "Verdi"]%string |}
  ∧ take 3 (log r.2)
    = [ voce sabato AUTISTA NessunAutista;
        voce sabato AUTISTA (VisualizzoVarchi (Some "Varchi"%string) None);
        voce sabato VIGILI NessunSenior ]
  ∧ map a_giorno r.1 = [sabato; sabato + 7; sabato + 14; sabato + 21]
  ∧ map (λ a, autisti_reali r.2 !! a_giorno a) r.1
    = [Some None; Some None; Some None; Some None]
  ∧ map _turno_incompleto r.1 = [false; false; false; false].
Proof.
  intros self sabato r.
  split; [vm_compute; reflexivity |]. split; [vm_compute; reflexivity |].
  split; [vm_compute; reflexivity |]. split; [vm_compute; reflexivity |].
  split; vm_compute; reflexivity.
Qed.




(** ** The rule table *)

Lemma merge_with_defaults_lookup custom k :
  merge_with_defaults custom !! k
  = if bool_decide (k ∈ ["min_senior"; "weekly_cap"; "summer_exclusion";
                          "varchi_rotation"]%string)
    then Some {| mode := from_option mode HARD (custom !! k);
                 value := if bool_decide (k = "min_senior"%string)
                          then Some (default 1 (custom !! k ≫= value))
                          else None |}
    else None.
Proof.
  unfold merge_with_defaults. cbv zeta. case_bool_decide as Hsize.
  - apply map_size_empty_iff in Hsize. subst custom.
    rewrite !(lookup_empty (M:=gmap string)). cbn [from_option mbind option_bind].
    unfold build_default_rules, RULE_DEFINITIONS.
    cbn [map key default_mode has_value default_value].
    cbn [list_to_map foldr uncurry fst snd].
    repeat match goal with
           | |- context [<[?k' := _]> _ !! k] =>
               destruct (decide (k = k')) as [-> | ?];
               [ rewrite lookup_insert_eq; reflexivity
               | rewrite lookup_insert_ne by done ]
           end.
    rewrite (lookup_empty (M:=gmap string)). rewrite bool_decide_eq_false_2; [done |].
    rewrite !elem_of_cons, elem_of_nil. intros [? | [? | [? | [? | []]]]]; done.
  - unfold RULE_DEFINITIONS.
    cbn [map key default_mode has_value default_value andb].
    assert (Hdef : ∀ k', k' ∈ ["min_senior"; "weekly_cap"; "summer_exclusion";
                                 "varchi_rotation"]%string →
              build_default_rules !!! k'
              = {| mode := HARD;
                   value := if bool_decide (k' = "min_senior"%string)
                            then Some 1 else None |}).
    { intros k' Hk'. rewrite !elem_of_cons, elem_of_nil in Hk'.
      destruct Hk' as [-> | [-> | [-> | [-> | []]]]]; vm_compute; reflexivity. }
    rewrite !Hdef by (rewrite !elem_of_cons; tauto).
    destruct (custom !! "min_senior"%string) as [[m1 v1] |] eqn:E1;
      destruct (custom !! "weekly_cap"%string) as [[m2 v2] |] eqn:E2;
      destruct (custom !! "summer_exclusion"%string) as [[m3 v3] |] eqn:E3;
      destruct (custom !! "varchi_rotation"%string) as [[m4 v4] |] eqn:E4;
      cbn [list_to_map foldr uncurry fst snd mode value];
      repeat match goal with
             | |- context [<[?k' := _]> _ !! k] =>
                 destruct (decide (k = k')) as [-> | ?];
                 [ rewrite lookup_insert_eq, ?E1, ?E2, ?E3, ?E4;
                   try destruct v1; reflexivity
                 | rewrite lookup_insert_ne by done ]
             end;
      rewrite (lookup_empty (M:=gmap string));
      (rewrite bool_decide_eq_false_2; [done |]);
      rewrite !elem_of_cons, elem_of_nil; intros [? | [? | [? | [? | []]]]]; done.
Qed.

(** X1: merging the configured rules with the defaults always yields exactly
    the four rules of the table. A key of the custom dictionary that is not in
    the table is dropped; a rule keeps its configured mode, and is hard when
    it is not configured; [min_senior] always carries a value (the configured
    one, 1 when there is none) and the other three rules never carry one. *)
Theorem merge_with_defaults_regole custom :
  let merged := merge_with_defaults custom in
  dom merged = list_to_set (map key RULE_DEFINITIONS)
  ∧ ∀ k cfg, merged !! k = Some cfg →
      mode cfg = from_option mode HARD (custom !! k)
      ∧ value cfg = if bool_decide (k = "min_senior"%string)
                    then Some (default 1 (custom !! k ≫= value)) else None.
Proof.
  intros merged. split.
  - apply set_eq. intros k. rewrite elem_of_dom. unfold merged.
    rewrite merge_with_defaults_lookup, elem_of_list_to_set.
    change (map key RULE_DEFINITIONS)
      with ["min_senior"; "weekly_cap"; "summer_exclusion"; "varchi_rotation"]%string.
    case_bool_decide; split; try done; by intros [? [=]].
  - intros k cfg. unfold merged. rewrite merge_with_defaults_lookup.
    case_bool_decide; [| done]. by intros [= <-].
Qed.

(** X2: merging is idempotent: rules that went through the merge once pass
    through it unchanged. *)
Theorem merge_with_defaults_idempotente custom :
  merge_with_defaults (merge_with_defaults custom) = merge_with_defaults custom.
Proof.
  apply map_eq. intros k.
  rewrite (merge_with_defaults_lookup (merge_with_defaults custom)).
  rewrite !merge_with_defaults_lookup.
  case_bool_decide as Hk; [| done].
  cbn [from_option mbind option_bind mode value]. f_equal. f_equal.
  by case_bool_decide.
Qed.

(** X3: the minimum number of seniors the scheduler enforces is the value of
    the [min_senior] rule, 1 when the rule is not configured or has no value,
    and never less than 0. The field [min_esperti] of the configuration is
    never used. *)
Theorem min_esperti_dalla_regola anno config months :
  min_esperti (Scheduler_init anno config months)
  = Z.max 0 (default 1 (cfg_generation_rules config !! "min_senior"%string ≫= value)).
Proof.
  unfold Scheduler_init. cbv zeta. cbn [min_esperti].
  rewrite lookup_total_alt, merge_with_defaults_lookup.
  rewrite !bool_decide_eq_true_2 by (rewrite ?elem_of_cons; tauto).
  done.
Qed.

(** ** The months of the command line *)

Lemma _parse_months_fold values mesi :
  fold_left
    (λ (acc : Esito (list Z)) raw,
       match acc with
       | inl errore => inl errore
       | inr mesi =>
           if (raw <? 1) || (12 <? raw)
           then inl "I mesi devono essere compresi tra 1 e 12."%string
           else inr (if bool_decide (raw ∈ mesi) then mesi else mesi ++ [raw])
       end)
    values (inr mesi)
  = if forallb (λ raw, (1 <=? raw) && (raw <=? 12)) values
    then inr (fold_left passo_mese values mesi)
    else inl "I mesi devono essere compresi tra 1 e 12."%string.
Proof.
  revert mesi. induction values as [| raw values IH]; intros mesi; [done |].
  cbn [fold_left forallb].
  destruct (Z.ltb_spec raw 1), (Z.ltb_spec 12 raw),
    (Z.leb_spec 1 raw), (Z.leb_spec raw 12); try lia; cbn [orb andb].
  - clear. induction values; [done | by cbn].
  - clear. induction values; [done | by cbn].
  - apply IH.
Qed.

Lemma fold_passo_mese values :
  let r := fold_left passo_mese values [] in
  (∀ m, m ∈ r ↔ m ∈ values) ∧ reverse r = remove_dups (reverse values).
Proof.
  induction values as [| raw values IH] using rev_ind; [done |].
  cbv zeta in *. destruct IH as [Hel Hrev].
  rewrite fold_left_app. cbn [fold_left]. unfold passo_mese at 1 3.
  rewrite reverse_app. cbn [reverse rev_append app remove_dups].
  change (rev_append [raw] []) with [raw]. cbn [app remove_dups].
  destruct (decide_rel elem_of raw (reverse values)) as [Hd | Hd];
    rewrite elem_of_reverse, <- Hel in Hd.
  - rewrite bool_decide_eq_true_2 by done. split; [| done].
    intros m. rewrite Hel, elem_of_app, list_elem_of_singleton.
    split; [tauto |]. intros [? | ->]; [done | by apply Hel].
  - rewrite bool_decide_eq_false_2 by done. split.
    + intros m. rewrite !elem_of_app, Hel. done.
    + by rewrite reverse_app, Hrev.
Qed.

(** X4: [_parse_months] accepts a non-empty list of months between 1 and 12
    and returns it without repetitions, each month at the place where it
    first occurs; the scheduler then plans exactly the months given. With no
    list, or an empty one, it returns [None] and the scheduler plans all
    twelve months. Any value outside 1..12 ends the program with a usage
    error. *)
Theorem _parse_months_spec values :
  match _parse_months values with
  | inr None =>
      (values = None ∨ values = Some [])
      ∧ ∀ anno config, active_months (Scheduler_init anno config None) = range_1_13
  | inr (Some mesi) =>
      ∃ vs, values = Some vs ∧ vs ≠ []
            ∧ Forall (λ m, 1 ≤ m ≤ 12) vs
            ∧ NoDup mesi
            ∧ mesi = reverse (remove_dups (reverse vs))
            ∧ ∀ anno config,
                active_months (Scheduler_init anno config (Some mesi)) = list_to_set vs
  | inl _ => ∃ vs, values = Some vs ∧ Exists (λ m, m < 1 ∨ 12 < m) vs
  end.
Proof.
  destruct values as [[| v vs] |]; cbn [_parse_months].
  - split; [by right | done].
  - rewrite _parse_months_fold.
    destruct (forallb _ (v :: vs)) eqn:Hall.
    + pose proof (fold_passo_mese (v :: vs)) as [Hel Hrev]. cbv zeta in *.
      set (mesi := fold_left passo_mese (v :: vs) []) in *.
      assert (Hvalid : Forall (λ m, 1 ≤ m ≤ 12) (v :: vs)).
      { apply Forall_forall. intros m Hm.
        rewrite forallb_forall in Hall. apply list_elem_of_In in Hm.
        specialize (Hall m Hm). apply andb_true_iff in Hall. lia. }
      assert (Hmesi : mesi = reverse (remove_dups (reverse (v :: vs)))).
      { by rewrite <- Hrev, reverse_involutive. }
      exists (v :: vs). split; [done |]. split; [done |]. split; [done |].
      split; [rewrite Hmesi, reverse_Permutation; apply NoDup_remove_dups |].
      split; [done |]. intros anno config.
      unfold Scheduler_init. cbv zeta. cbn [active_months].
      assert (Hne : mesi ≠ []).
      { intros E. assert (v ∈ mesi) as Hv by (apply Hel; by left).
        rewrite E in Hv. by apply not_elem_of_nil in Hv. }
      assert (Hset : (list_to_set (filter (λ m, 1 ≤ m ≤ 12) mesi) : gset Z)
                     = list_to_set (v :: vs)).
      { apply set_eq. intros m.
        rewrite !elem_of_list_to_set, list_elem_of_filter, Hel.
        split; [tauto |]. intros Hm. split; [| done].
        rewrite Forall_forall in Hvalid. by apply Hvalid. }
      destruct mesi as [| m0 mesi']; [done |].
      rewrite Hset. rewrite bool_decide_eq_false_2; [done |].
      intros E. assert (v ∈ (∅ : gset Z)) as Hv; [| by apply not_elem_of_empty in Hv].
      rewrite <- E, elem_of_list_to_set. by left.
    + eexists. split; [done |]. apply Exists_exists.
      clear -Hall. induction (v :: vs) as [| m l IH]; [done |].
      cbn [forallb] in Hall. apply andb_false_iff in Hall as [Hm | Hl].
      * exists m. split; [by left |]. apply andb_false_iff in Hm. lia.
      * destruct (IH Hl) as (m' & Hm' & Hbad). exists m'. split; [by right | done].
  - split; [by left | done].
Qed.

(** ** The preferred partners of a driver *)

Lemma preferenze_fold hard regole (iniziale : gmap string (gset string)) a v :
  v ∈ default ∅ (fold_left
                   (λ (target : gmap string (gset string)) rule,
                      if bool_decide (pr_is_hard rule = hard)
                      then <[pr_autista rule :=
                               default ∅ (target !! pr_autista rule)
                               ∪ {[pr_vigile rule]}]> target
                      else target)
                   regole iniziale !! a)
  ↔ v ∈ default (∅ : gset string) (iniziale !! a)
    ∨ ∃ rule, rule ∈ regole ∧ pr_is_hard rule = hard
              ∧ pr_autista rule = a ∧ pr_vigile rule = v.
Proof.
  revert iniziale. induction regole as [| r regole IH]; intros iniziale; cbn [fold_left].
  - split; [by left |]. intros [H | (rule & ?%not_elem_of_nil & _)]; done.
  - rewrite IH. setoid_rewrite elem_of_cons.
    case_bool_decide as Eh.
    + destruct (decide (pr_autista r = a)) as [Ea | Ea].
      * rewrite Ea, lookup_insert_eq. cbn [default from_option id].
        rewrite elem_of_union, elem_of_singleton. split.
        -- intros [[H | ->] | (rule & Hin & H)]; [by left | |].
           ++ right. exists r. auto.
           ++ right. exists rule. auto.
        -- intros [H | (rule & [-> | Hin] & Hh & Hau & Hv)].
           ++ left. by left.
           ++ left. by right.
           ++ right. by exists rule.
      * rewrite lookup_insert_ne by done. split.
        -- intros [H | (rule & Hin & H)]; [by left |]. right. exists rule. auto.
        -- intros [H | (rule & [-> | Hin] & Hh & Hau & Hv)]; [by left | done |].
           right. by exists rule.
    + split.
      * intros [H | (rule & Hin & H)]; [by left |]. right. exists rule. auto.
      * intros [H | (rule & [-> | Hin] & Hh & Hau & Hv)]; [by left | done |].
        right. by exists rule.
Qed.

(** X5: the partners the scheduler holds for a driver are read off the
    configured preference rules: a crew member is a mandatory partner of
    [autista] exactly when some rule marked hard pairs them, and a preferred
    one exactly when some rule not marked hard does; a missing or empty
    driver name has no partners. *)
Theorem preferenze_dalle_regole anno config months autista v :
  let self := Scheduler_init anno config months in
  let regola hard a rule :=
    rule ∈ cfg_coppie_preferite config ∧ pr_is_hard rule = hard
    ∧ pr_autista rule = a ∧ pr_vigile rule = v in
  (v ∈ _preferenze_obbligatorie self autista
   ↔ ∃ a, autista = Some a ∧ a ≠ "" ∧ ∃ rule, regola true a rule)
  ∧ (v ∈ _preferenze_soft self autista
     ↔ ∃ a, autista = Some a ∧ a ≠ "" ∧ ∃ rule, regola false a rule).
Proof.
  intros self regola.
  assert (H : ∀ hard a,
            v ∈ default ∅ (preferenze hard (cfg_coppie_preferite config) !! a)
            ↔ ∃ rule, regola hard a rule).
  { intros hard a. unfold preferenze. rewrite preferenze_fold.
    rewrite (lookup_empty (M:=gmap string)). cbn [default from_option].
    split; [intros [?%not_elem_of_empty | H]; done | by right]. }
  unfold _preferenze_obbligatorie, _preferenze_soft.
  split.
  - destruct autista as [a |].
    + unfold truthy. destruct (decide (a = "")) as [-> | Ha].
      * cbn. split; [by intros ?%not_elem_of_empty |].
        intros (a & [= <-] & Hne & _). done.
      * destruct a as [| c a]; [done |]. cbn [negb String.eqb].
        change (preferenze_hard self) with (preferenze true (cfg_coppie_preferite config)).
        rewrite H. split.
        -- intros Hr. exists (String c a). auto.
        -- by intros (a' & [= <-] & _ & Hr).
    + split; [by intros ?%not_elem_of_empty |]. by intros (a & [=] & _).
  - destruct autista as [a |].
    + unfold truthy. destruct (decide (a = "")) as [-> | Ha].
      * cbn. split; [by intros ?%not_elem_of_empty |].
        intros (a & [= <-] & Hne & _). done.
      * destruct a as [| c a]; [done |]. cbn [negb String.eqb].
        change (preferenze_soft self) with (preferenze false (cfg_coppie_preferite config)).
        rewrite H. split.
        -- intros Hr. exists (String c a). auto.
        -- by intros (a' & [= <-] & _ & Hr).
    + split; [by intros ?%not_elem_of_empty |]. by intros (a & [=] & _).
Qed.

(** ** The generated calendar *)

Lemma _days_before_year_succ year :
  _days_before_year (year + 1)
  = _days_before_year year + 365 + (if _is_leap year then 1 else 0).
Proof.
  unfold _days_before_year, _is_leap. cbv zeta.
  replace (year + 1 - 1) with year by lia.
  destruct (Z.eqb_spec (year mod 4) 0), (Z.eqb_spec (year mod 100) 0),
    (Z.eqb_spec (year mod 400) 0); cbn [andb orb negb];
    Z.div_mod_to_equations; lia.
Qed.

Lemma _ymd2ord_san_silvestro year :
  _ymd2ord year 12 31 = _days_before_year (year + 1).
Proof.
  rewrite _days_before_year_succ. unfold _ymd2ord, _days_before_month.
  cbn [_DAYS_BEFORE_MONTH Z.ltb Z.compare Pos.compare Pos.compare_cont andb].
  destruct (_is_leap year); lia.
Qed.

Lemma _days_before_year_mono y1 y2 :
  y1 ≤ y2 → _days_before_year y1 ≤ _days_before_year y2.
Proof.
  intros H. unfold _days_before_year. cbv zeta.
  Z.div_mod_to_equations. lia.
Qed.

(** The dates of a year are the ordinals from its 1 January to its
    31 December. *)
Lemma date_year_range d anno :
  date_year d = anno ↔ _ymd2ord anno 1 1 ≤ d ≤ _ymd2ord anno 12 31.
Proof.
  rewrite _ymd2ord_capodanno, _ymd2ord_san_silvestro.
  pose proof (date_year_bounds d) as Hb. split.
  - intros <-. lia.
  - intros Hd.
    destruct (Z.lt_trichotomy (date_year d) anno) as [Hlt | [-> | Hgt]]; [| done |].
    + pose proof (_days_before_year_mono (date_year d + 1) anno). lia.
    + pose proof (_days_before_year_mono (anno + 1) (date_year d)). lia.
Qed.

Lemma weekday_bounds d : 0 ≤ weekday d ≤ 6.
Proof. unfold weekday. Z.div_mod_to_equations. lia. Qed.

Lemma date_month_bounds d : 1 ≤ date_month d ≤ 12.
Proof.
  unfold date_month, _ord2ymd. cbv zeta.
  destruct (_ || _); [simpl; lia |].
  match goal with
  | |- context [Z.shiftr (?n + 50) 5] => set (n0 := n)
  end.
  assert (Hn : 0 ≤ n0 < 365) by (subst n0; Z.div_mod_to_equations; lia).
  rewrite Z.shiftr_div_pow2 by lia. change (2 ^ 5) with 32.
  set (month := (n0 + 50) / 32).
  assert (Hm : 1 ≤ month ≤ 12) by (subst month; Z.div_mod_to_equations; lia).
  assert (Hc : month = 1 ∨ month = 2 ∨ month = 3 ∨ month = 4 ∨ month = 5 ∨ month = 6
               ∨ month = 7 ∨ month = 8 ∨ month = 9 ∨ month = 10 ∨ month = 11
               ∨ month = 12) by lia.
  assert (H1 : month = 1 → 32 ≤ n0 + 50) by (subst month; Z.div_mod_to_equations; lia).
  clearbody month n0.
  destruct Hc as [-> | [-> | [-> | [-> | [-> | [-> | [-> | [-> | [-> | [-> | [-> | ->]]]]]]]]]]];
    match goal with
    | |- context [if ?b then (_, _, _) else _] => destruct b eqn:E
    end; cbn [fst snd Z.sub Z.add Z.opp Z.pos_sub Pos.pred_double]; try lia.
  cbn in E. apply Z.ltb_lt in E. lia.
Qed.

Lemma date_attive_loop_elem giorni mesi n giorno d :
  d ∈ date_attive_loop giorni mesi giorno n
  ↔ giorno ≤ d < giorno + Z.of_nat n ∧ weekday d ∈ giorni ∧ date_month d ∈ mesi.
Proof.
  revert giorno. induction n as [| n IH]; intros giorno.
  - cbn [date_attive_loop]. rewrite elem_of_nil. lia.
  - cbn [date_attive_loop]. rewrite elem_of_app, IH.
    destruct (decide (d = giorno)) as [-> | Hne].
    + do 2 case_bool_decide; cbn [andb];
        rewrite ?list_elem_of_singleton, ?elem_of_nil; intuition lia.
    + do 2 case_bool_decide; cbn [andb];
        rewrite ?list_elem_of_singleton, ?elem_of_nil; intuition lia.
Qed.

(** X6: for a year from 1 to 9998 (for any other year the code raises an
    error and returns nothing), [date_attive_anno] returns, in strictly
    increasing order, exactly the dates of the year whose weekday is one of
    the given weekdays and whose month is one of the given months. When no
    given weekday lies in 0..6 the weekdays are Friday, Saturday and Sunday;
    when no months are given, or none of them lies in 1..12, every month
    counts. *)
Theorem date_attive_anno_spec anno weekdays months :
  1 ≤ anno ≤ 9998 →
  let validi : gset Z := filter (λ g, 0 ≤ g ≤ 6) weekdays in
  let mesi : gset Z := filter (λ m, 1 ≤ m ≤ 12) (default ∅ months) in
  StronglySorted Z.lt (date_attive_anno anno weekdays months)
  ∧ ∀ d, d ∈ date_attive_anno anno weekdays months ↔
      date_year d = anno
      ∧ weekday d ∈ (if bool_decide (validi = ∅) then DEFAULT_ACTIVE_WEEKDAYS
                     else weekdays)
      ∧ (mesi = ∅ ∨ date_month d ∈ default ∅ months).
Proof.
  intros _ validi mesi. split; [apply date_attive_anno_sorted |].
  intros d. unfold date_attive_anno. cbv zeta.
  rewrite date_attive_loop_elem, date_year_range.
  assert (Hlen : 0 ≤ _ymd2ord anno 12 31 - _ymd2ord anno 1 1 + 1).
  { rewrite _ymd2ord_capodanno, _ymd2ord_san_silvestro, _days_before_year_succ.
    destruct (_is_leap anno); lia. }
  rewrite Z2Nat.id by done.
  pose proof (weekday_bounds d) as Hw. pose proof (date_month_bounds d) as Hm.
  fold validi.
  assert (Hgiorni : weekday d ∈ (if bool_decide (validi = ∅)
                                  then DEFAULT_ACTIVE_WEEKDAYS else validi)
                    ↔ weekday d ∈ (if bool_decide (validi = ∅)
                                    then DEFAULT_ACTIVE_WEEKDAYS else weekdays)).
  { case_bool_decide; [done |]. unfold validi. rewrite elem_of_filter. tauto. }
  assert (Hmesi : date_month d
                  ∈ match months with
                    | Some ms =>
                        if bool_decide (ms = ∅) then range_1_13
                        else if bool_decide (filter (λ m, 1 ≤ m ≤ 12) ms = ∅)
                             then range_1_13 else filter (λ m, 1 ≤ m ≤ 12) ms
                    | None => range_1_13
                    end
                  ↔ mesi = ∅ ∨ date_month d ∈ default ∅ months).
  { clear Hgiorni. assert (Hall : date_month d ∈ range_1_13).
    { unfold range_1_13. rewrite elem_of_list_to_set, elem_of_seqZ. lia. }
    unfold mesi. destruct months as [ms |]; cbn [default].
    - case_bool_decide as He.
      + rewrite He. split; [| done]. intros _. left. set_solver.
      + case_bool_decide as Hf; [tauto |].
        rewrite elem_of_filter. tauto.
    - split; [| done]. intros _. left. set_solver. }
  rewrite Hgiorni, Hmesi. intuition lia.
Qed.

(** The statement of X6 for the Fridays, Saturdays and Sundays of January
    2024. *)
Lemma date_attive_anno_spec_witness :
  let weekdays : gset Z := {[4; 5; 6]} in
  let months : option (gset Z) := Some {[1]} in
  let validi : gset Z := filter (λ g, 0 ≤ g ≤ 6) weekdays in
  let mesi : gset Z := filter (λ m, 1 ≤ m ≤ 12) (default ∅ months) in
  StronglySorted Z.lt (date_attive_anno 2024 weekdays months)
  ∧ ∀ d, d ∈ date_attive_anno 2024 weekdays months ↔
      date_year d = 2024
      ∧ weekday d ∈ (if bool_decide (validi = ∅) then DEFAULT_ACTIVE_WEEKDAYS
                     else weekdays)
      ∧ (mesi = ∅ ∨ date_month d ∈ default ∅ months).
Proof.
  apply (date_attive_anno_spec 2024 {[4; 5; 6]} (Some {[1]})). lia.
Defined.

(** ** The readings of the load tracker *)

Lemma tot_annuale_eq c p : tot_annuale c p = default 0 (annuale c !! p).
Proof.
  unfold tot_annuale, assicura_persona. cbn [annuale].
  by rewrite se_assente_lookup_total.
Qed.

Lemma tot_mese_eq c p m :
  tot_mese c p m = default (zeri (seqZ 1 12)) (per_mese c !! p) !!! m.
Proof.
  unfold tot_mese, assicura_persona. cbn [per_mese].
  by rewrite se_assente_lookup_total.
Qed.

Lemma tot_mese_giorno_eq c p m dow :
  tot_mese_giorno c p m dow
  = (default (list_to_map (map (λ mese, (mese, zeri (seqZ 0 7))) (seqZ 1 12)))
       (per_mese_giorno c !! p) !!! m) !!! dow.
Proof.
  unfold tot_mese_giorno, assicura_persona. cbn [per_mese_giorno].
  by rewrite se_assente_lookup_total.
Qed.

Lemma tot_giorno_anno_eq c p dow :
  tot_giorno_anno c p dow = default (zeri (seqZ 0 7)) (per_giorno_anno c !! p) !!! dow.
Proof.
  unfold tot_giorno_anno, assicura_persona. cbn [per_giorno_anno].
  by rewrite se_assente_lookup_total.
Qed.

Lemma ultimo_dow_eq c p : ultimo_dow c p = default None (ultimo_giorno c !! p).
Proof.
  unfold ultimo_dow, assicura_persona. cbn [ultimo_giorno].
  by rewrite se_assente_lookup_total.
Qed.

Lemma tot_annuale_aggiungi c x g p :
  tot_annuale (aggiungi x g c) p
  = tot_annuale c p + (if bool_decide (p = x) then 1 else 0).
Proof.
  rewrite !tot_annuale_eq. unfold aggiungi, assicura_persona. cbn.
  rewrite se_assente_lookup_total.
  case_bool_decide as E.
  - subst p. by rewrite lookup_insert_eq.
  - rewrite lookup_insert_ne, se_assente_lookup_ne by done. lia.
Qed.

Lemma tot_mese_aggiungi c x g p m :
  tot_mese (aggiungi x g c) p m
  = tot_mese c p m + (if bool_decide (p = x ∧ m = date_month g) then 1 else 0).
Proof.
  rewrite !tot_mese_eq. unfold aggiungi, assicura_persona. cbn.
  rewrite se_assente_lookup_total.
  destruct (decide (p = x)) as [-> | Hne].
  - rewrite lookup_insert_eq. cbn [default from_option id].
    destruct (decide (m = date_month g)) as [-> | Hm].
    + rewrite lookup_total_insert_eq, bool_decide_eq_true_2 by done. done.
    + rewrite lookup_total_insert_ne by done.
      rewrite bool_decide_eq_false_2 by (intros [_ ?]; done). lia.
  - rewrite lookup_insert_ne, se_assente_lookup_ne by done.
    rewrite bool_decide_eq_false_2 by (intros [? _]; done). lia.
Qed.

Lemma tot_mese_giorno_aggiungi c x g p m dow :
  tot_mese_giorno (aggiungi x g c) p m dow
  = tot_mese_giorno c p m dow
    + (if bool_decide (p = x ∧ m = date_month g ∧ dow = weekday g) then 1 else 0).
Proof.
  rewrite !tot_mese_giorno_eq. unfold aggiungi, assicura_persona. cbn.
  rewrite se_assente_lookup_total.
  destruct (decide (p = x)) as [-> | Hne].
  - rewrite lookup_insert_eq. cbn [default from_option id].
    destruct (decide (m = date_month g)) as [-> | Hm].
    + rewrite lookup_total_insert_eq.
      destruct (decide (dow = weekday g)) as [-> | Hd].
      * rewrite lookup_total_insert_eq, bool_decide_eq_true_2 by done. done.
      * rewrite lookup_total_insert_ne by done.
        rewrite bool_decide_eq_false_2 by (intros (_ & _ & ?); done). lia.
    + rewrite lookup_total_insert_ne by done.
      rewrite bool_decide_eq_false_2 by (intros (_ & ? & _); done). lia.
  - rewrite lookup_insert_ne, se_assente_lookup_ne by done.
    rewrite bool_decide_eq_false_2 by (intros [? _]; done). lia.
Qed.

Lemma tot_giorno_anno_aggiungi c x g p dow :
  tot_giorno_anno (aggiungi x g c) p dow
  = tot_giorno_anno c p dow
    + (if bool_decide (p = x ∧ dow = weekday g) then 1 else 0).
Proof.
  rewrite !tot_giorno_anno_eq. unfold aggiungi, assicura_persona. cbn.
  rewrite se_assente_lookup_total.
  destruct (decide (p = x)) as [-> | Hne].
  - rewrite lookup_insert_eq. cbn [default from_option id].
    destruct (decide (dow = weekday g)) as [-> | Hm].
    + rewrite lookup_total_insert_eq, bool_decide_eq_true_2 by done. done.
    + rewrite lookup_total_insert_ne by done.
      rewrite bool_decide_eq_false_2 by (intros [_ ?]; done). lia.
  - rewrite lookup_insert_ne, se_assente_lookup_ne by done.
    rewrite bool_decide_eq_false_2 by (intros [? _]; done). lia.
Qed.

Lemma ultimo_dow_aggiungi c x g p :
  ultimo_dow (aggiungi x g c) p
  = if bool_decide (p = x) then Some (weekday g) else ultimo_dow c p.
Proof.
  rewrite !ultimo_dow_eq. unfold aggiungi, assicura_persona. cbn.
  case_bool_decide as E.
  - subst p. by rewrite lookup_insert_eq.
  - by rewrite lookup_insert_ne, se_assente_lookup_ne.
Qed.

(** X7: recording a shift of [nome] on [giorno] adds one to the annual total
    of [nome], to the totals of the month, of the month and weekday, of the
    weekday and of the ISO week of [giorno], and makes the weekday of
    [giorno] the last one served; every other reading of the tracker, for
    other months, weekdays and weeks and for every other person, stays as it
    was. *)
Theorem aggiungi_letture nome giorno c p :
  let c' := aggiungi nome giorno c in
  tot_annuale c' p = tot_annuale c p + (if bool_decide (p = nome) then 1 else 0)
  ∧ (∀ m, 1 ≤ m ≤ 12 →
       tot_mese c' p m
       = tot_mese c p m
         + (if bool_decide (p = nome ∧ m = date_month giorno) then 1 else 0))
  ∧ (∀ m dow, 1 ≤ m ≤ 12 → 0 ≤ dow ≤ 6 →
       tot_mese_giorno c' p m dow
       = tot_mese_giorno c p m dow
         + (if bool_decide (p = nome ∧ m = date_month giorno ∧ dow = weekday giorno)
            then 1 else 0))
  ∧ (∀ dow, 0 ≤ dow ≤ 6 →
       tot_giorno_anno c' p dow
       = tot_giorno_anno c p dow
         + (if bool_decide (p = nome ∧ dow = weekday giorno) then 1 else 0))
  ∧ (∀ w, tot_settimana c' p w
          = tot_settimana c p w
            + (if bool_decide (p = nome ∧ w = _week_key giorno) then 1 else 0))
  ∧ ultimo_dow c' p
    = if bool_decide (p = nome) then Some (weekday giorno) else ultimo_dow c p.
Proof.
  intros c'.
  split; [apply tot_annuale_aggiungi |].
  split; [intros; apply tot_mese_aggiungi |].
  split; [intros; apply tot_mese_giorno_aggiungi |].
  split; [intros; apply tot_giorno_anno_aggiungi |].
  split; [intros; apply tot_settimana_aggiungi |].
  apply ultimo_dow_aggiungi.
Qed.

(** ** Stable sorting by a key *)

Section Ordinamento.

Context {A : Type} (leb : A → A → bool).
Hypothesis leb_total : ∀ a b, leb a b = true ∨ leb b a = true.
Hypothesis leb_trans : ∀ a b c, leb a b = true → leb b c = true → leb a c = true.

Lemma inserisci_sorted x l :
  StronglySorted (λ a b, leb a b = true) l →
  StronglySorted (λ a b, leb a b = true) (inserisci leb x l).
Proof.
  induction 1 as [| y l Hs IH Hy]; simpl; [repeat constructor |].
  destruct (leb x y) eqn:E.
  - constructor; [by constructor |]. constructor; [done |].
    eapply Forall_impl; [exact Hy |]. simpl. intros. by eapply leb_trans.
  - constructor; [done |]. rewrite inserisci_perm. constructor; [| done].
    destruct (leb_total x y); congruence.
Qed.

Lemma sorted_py_sorted l :
  StronglySorted (λ a b, leb a b = true) (sorted_py leb l).
Proof.
  unfold sorted_py. induction l as [| x l IH]; simpl; [constructor |].
  by apply inserisci_sorted.
Qed.

(** The first element of a sorted list is at most every element. *)
Lemma sorted_py_primo l y resto :
  sorted_py leb l = y :: resto → y ∈ l ∧ ∀ x, x ∈ l → leb y x = true.
Proof.
  intros E. pose proof (sorted_py_sorted l) as Hs.
  pose proof (sorted_py_perm leb l) as Hp. rewrite E in Hs, Hp.
  split; [rewrite <- Hp; by left |].
  intros x. rewrite <- Hp. intros [-> | Hx]%elem_of_cons.
  - destruct (leb_total y y); done.
  - apply StronglySorted_inv in Hs as [_ Hall].
    rewrite Forall_forall in Hall. by apply Hall.
Qed.

End Ordinamento.

Lemma tuple_leb_total a b : tuple_leb a b = true ∨ tuple_leb b a = true.
Proof.
  revert b. induction a as [| x a IH]; intros [| y b]; simpl; auto.
  destruct (Z.ltb_spec x y), (Z.ltb_spec y x), (Z.eqb_spec x y), (Z.eqb_spec y x);
    simpl; auto; try lia.
Qed.

Lemma tuple_leb_trans a b c :
  tuple_leb a b = true → tuple_leb b c = true → tuple_leb a c = true.
Proof.
  revert b c. induction a as [| x a IH]; intros [| y b] [| z c]; simpl; try done.
  destruct (Z.ltb_spec x y), (Z.ltb_spec y z), (Z.ltb_spec x z),
    (Z.eqb_spec x y), (Z.eqb_spec y z), (Z.eqb_spec x z); simpl; try done; try lia.
  apply IH.
Qed.

(** Comparing two keys of the same length that were extended by one more
    component compares the keys first. *)
Lemma tuple_leb_prefisso a b x y :
  length a = length b →
  tuple_leb (a ++ [x]) (b ++ [y]) = true → tuple_leb a b = true.
Proof.
  revert b. induction a as [| u a IH]; intros [| v b]; simpl; try done.
  intros [= Hlen].
  destruct (Z.ltb_spec u v), (Z.eqb_spec u v); simpl; try done. by apply IH.
Qed.

(** ** The choice of the driver *)

Lemma list_to_map_funzione {V} (h : string → V) (l : list (string * V)) x :
  (∀ e, e ∈ l → e.2 = h e.1) → x ∈ map fst l →
  (list_to_map l : gmap string V) !! x = Some (h x).
Proof.
  induction l as [| [k v] l IH]; intros Hh Hx; [by apply not_elem_of_nil in Hx |].
  cbn [list_to_map foldr uncurry fst snd].
  destruct (decide (x = k)) as [-> | Hne].
  - rewrite lookup_insert_eq. f_equal. apply (Hh (k, v)). by left.
  - rewrite lookup_insert_ne by done. apply IH.
    + intros e He. apply Hh. by right.
    + cbn [map fst] in Hx. apply elem_of_cons in Hx as [? | ?]; done.
Qed.

Section SceltaAutista.

Variable casuale : nat → Z.
Variable self : Scheduler.

Lemma ciclo_chiavi_elem {A} (chiave : A → list Z) l acc st e :
  e ∈ (ciclo (λ x acc, r ← random_random casuale; mret (acc ++ [(chiave x ++ [r], x)]))
         l acc st).1 →
  e ∈ acc ∨ ∃ r, e.1 = chiave e.2 ++ [r].
Proof.
  revert acc st. induction l as [| x l IH]; intros acc st; simpl; [by left |].
  unfold mbind, M_bind, random_random, mret, M_ret. simpl.
  intros [[H | H]%elem_of_app | H]%IH; [by left | | by right].
  apply list_elem_of_singleton in H as ->. right. by eexists.
Qed.

(** The element a keyed sort puts first has the least key. *)
Lemma sort_con_chiave_primo {A} (chiave : A → list Z) l st s resto :
  (∀ x y, length (chiave x) = length (chiave y)) →
  (sort_con_chiave casuale chiave l st).1 = s :: resto →
  s ∈ l ∧ ∀ x, x ∈ l → tuple_leb (chiave s) (chiave x) = true.
Proof.
  intros Hlen. unfold sort_con_chiave, mbind, M_bind.
  pose proof (ciclo_chiavi casuale chiave l [] st) as Hsnd.
  pose proof (λ e, ciclo_chiavi_elem chiave l [] st e) as Hel.
  destruct (ciclo _ l [] st) as [chiavi st']. cbn [fst snd mret M_ret] in *.
  change (map snd [] ++ l) with l in Hsnd.
  destruct (sorted_py _ chiavi) as [| [k s'] ordinati] eqn:E; [done |].
  cbn [map snd]. intros [= -> <-].
  apply (sorted_py_primo (λ a b : list Z * A, tuple_leb a.1 b.1)) in E
    as [Hin Hmin].
  2: { intros a b. apply tuple_leb_total. }
  2: { intros a b c. apply tuple_leb_trans. }
  destruct (Hel _ Hin) as [H | [r Hk]]; [by apply not_elem_of_nil in H |].
  cbn [fst snd] in Hk. subst k. split.
  - rewrite <- Hsnd, map_fmap. apply list_elem_of_fmap.
    by exists (chiave s ++ [r], s).
  - intros x Hx. rewrite <- Hsnd, map_fmap in Hx.
    apply list_elem_of_fmap in Hx as ([kx x'] & -> & Hx).
    destruct (Hel _ Hx) as [H | [rx Hkx]]; [by apply not_elem_of_nil in H |].
    cbn [fst snd] in *. subst kx.
    specialize (Hmin _ Hx). cbn [fst] in Hmin.
    by eapply tuple_leb_prefisso.
Qed.

Lemma candidati_info_eq cont giorno esclusioni l :
  flat_map
    (λ nome,
       if bool_decide (nome ∈ esclusioni) then []
       else if _in_ferie self nome giorno then []
       else if bool_decide (mode (rule_weekly_cap self) = HARD)
               && _limite_raggiunto_raw self cont nome giorno then []
       else [(nome, _limite_raggiunto_raw self cont nome giorno)])
    l
  = map (λ nome, (nome, _limite_raggiunto_raw self cont nome giorno))
      (filter (λ nome, autista_idoneo self cont giorno esclusioni nome = true) l).
Proof.
  induction l as [| x l IH]; [done |].
  cbn [flat_map]. rewrite filter_cons, IH.
  pose proof (eq_refl (autista_idoneo self cont giorno esclusioni x)) as E.
  unfold autista_idoneo at 2 in E.
  destruct (bool_decide (x ∈ esclusioni)); cbn [negb andb] in E;
    [by rewrite decide_False by (by rewrite E) |].
  destruct (_in_ferie self x giorno); cbn [negb andb] in E;
    [by rewrite decide_False by (by rewrite E) |].
  destruct (bool_decide (mode (rule_weekly_cap self) = HARD)
            && _limite_raggiunto_raw self cont x giorno); cbn [negb andb] in E;
    [by rewrite decide_False by (by rewrite E) | by rewrite decide_True by done].
Qed.

Lemma scegli_autista_scelta giorno esclusioni st :
  match (_scegli_autista casuale self giorno esclusioni st).1 with
  | None =>
      filter (λ nome, autista_idoneo self (cont_aut st) giorno esclusioni nome = true)
        (autisti self) = []
  | Some scelto =>
      scelto ∈ pool_autisti self (cont_aut st) giorno esclusioni
      ∧ ∀ x, x ∈ pool_autisti self (cont_aut st) giorno esclusioni →
          tuple_leb (chiave_autista self (cont_aut st) giorno scelto)
            (chiave_autista self (cont_aut st) giorno x) = true
  end.
Proof.
  change (spec (_scegli_autista casuale self giorno esclusioni) st
            (λ r _, match r with
                    | None =>
                        filter (λ nome, autista_idoneo self (cont_aut st) giorno
                                          esclusioni nome = true) (autisti self) = []
                    | Some scelto =>
                        scelto ∈ pool_autisti self (cont_aut st) giorno esclusioni
                        ∧ ∀ x, x ∈ pool_autisti self (cont_aut st) giorno esclusioni →
                            tuple_leb (chiave_autista self (cont_aut st) giorno scelto)
                              (chiave_autista self (cont_aut st) giorno x) = true
                    end)).
  unfold _scegli_autista, pool_autisti. cbv zeta. apply spec_bind, spec_leggi.
  rewrite candidati_info_eq.
  set (idonei := filter _ (autisti self)).
  pose (raw := λ nome, _limite_raggiunto_raw self (cont_aut st) nome giorno).
  change (map _ idonei) with (map (λ nome, (nome, raw nome)) idonei).
  clearbody idonei. destruct idonei as [| i0 idonei'] eqn:Eid.
  { cbn [map]. apply spec_bind, spec_log, spec_ret. done. }
  rewrite <- Eid.
  assert (Hne : idonei ≠ []) by (by rewrite Eid).
  clear Eid i0 idonei'.
  destruct (map _ idonei) as [| p0 info] eqn:Einfo.
  { destruct idonei; done. }
  rewrite <- Einfo.
  assert (Hfst : map fst (map (λ nome, (nome, raw nome)) idonei) = idonei).
  { clear. induction idonei as [| x l IH]; [done |]. cbn. by rewrite IH. }
  rewrite Hfst.
  set (limit_map := list_to_map (reverse (map (λ nome, (nome, raw nome)) idonei))).
  assert (Hlim : ∀ x, x ∈ idonei → limit_map !!! x = raw x).
  { intros x Hx. unfold limit_map. rewrite lookup_total_alt.
    rewrite (list_to_map_funzione raw); [done | |].
    - intros e. rewrite elem_of_reverse, map_fmap, list_elem_of_fmap.
      by intros (n & -> & _).
    - rewrite map_fmap, fmap_reverse, <- map_fmap, Hfst. by apply elem_of_reverse. }
  clearbody limit_map. clear Einfo p0 info Hfst.
  set (liberi := filter _ idonei).
  set (pool := match liberi with [] => idonei | _ :: _ => liberi end).
  assert (Hpool_sub : ∀ x, x ∈ pool → x ∈ idonei).
  { intros x. unfold pool. destruct liberi eqn:E; [done |]. rewrite <- E.
    unfold liberi. by intros [_ ?]%list_elem_of_filter. }
  assert (Hpool_ne : pool ≠ []).
  { unfold pool. by destruct liberi. }
  apply spec_bind.
  apply (spec_mono _ _ (λ p _, p = pool)).
  { unfold pool. destruct liberi.
    - by apply spec_bind, spec_log, spec_ret.
    - by apply spec_ret. }
  intros ? st1 ->. clearbody pool. apply spec_bind.
  match goal with
  | |- spec (sort_con_chiave _ ?k _) _ _ => set (chiave := k)
  end.
  assert (Hchiave : ∀ x, x ∈ idonei →
            chiave x = chiave_autista self (cont_aut st) giorno x).
  { intros x Hx. unfold chiave, chiave_autista. by rewrite (Hlim x Hx). }
  unfold spec at 1.
  pose proof (sort_con_chiave_perm casuale chiave pool st1) as Hperm.
  pose proof (sort_con_chiave_primo chiave pool st1) as Hprimo.
  destruct (sort_con_chiave casuale chiave pool st1) as [ordinati st2].
  cbn [fst snd] in *.
  destruct ordinati as [| scelto resto].
  { apply Permutation_nil_l in Hperm. done. }
  destruct (Hprimo scelto resto) as [Hin Hmin]; [done | done |].
  apply spec_bind.
  apply (spec_mono _ _ (λ _ _, True)); [done |].
  intros _ st3 _. apply spec_bind, spec_modifica, spec_ret.
  split; [done |]. intros x Hx.
  rewrite <- !Hchiave by auto. by apply Hmin.
Qed.

End SceltaAutista.

(** ** The constraints on the chosen crew *)

Lemma coppie_elem {A} (l : list A) a b :
  (a, b) ∈ coppie l → a ∈ l ∧ b ∈ l.
Proof.
  induction l as [| x l IH]; cbn [coppie]; [by intros ?%not_elem_of_nil |].
  rewrite elem_of_app, map_fmap, list_elem_of_fmap.
  intros [(y & [= -> ->] & Hy) | H].
  - split; [by left | by right].
  - destruct (IH H). split; by right.
Qed.

Lemma coppie_completo {A} (l : list A) a b :
  a ∈ l → b ∈ l → a ≠ b → (a, b) ∈ coppie l ∨ (b, a) ∈ coppie l.
Proof.
  induction l as [| x l IH]; [by intros ?%not_elem_of_nil |].
  cbn [coppie]. rewrite !elem_of_app, !map_fmap, !list_elem_of_fmap.
  intros [-> | Ha]%elem_of_cons [-> | Hb]%elem_of_cons Hne; try done.
  - left. left. by exists b.
  - right. left. by exists a.
  - destruct (IH Ha Hb Hne); [left | right]; by right.
Qed.

Section Vincoli.

Variable casuale : nat → Z.
Variable iter_set : gset string → list string.
Variable self : Scheduler.

Lemma valuta_combinazione_filtri giorno aut obbl senior extra acc st :
  let r := (valuta_combinazione casuale self giorno aut obbl senior extra acc st).1 in
  r.1 = acc.1
  ∨ ∃ s, r.1 = acc.1 ++ [s] ∧ sol_team s = obbl ++ extra
         ∧ filtri_superati self senior (obbl ++ extra).
Proof.
  unfold valuta_combinazione, filtri_superati. cbv zeta. destruct acc as [soluzioni flag].
  destruct (existsb _ _) eqn:Hvietate; [by left |].
  unfold mbind, M_bind, quando, _log, modifica, leggi, random_random, mret, M_ret.
  destruct ((0 <? min_esperti self) && senior
            && (conta (is_senior self) (obbl ++ extra) <? min_esperti self)) eqn:Hcar.
  - case_bool_decide as Hm; cbn [negb andb].
    + repeat match goal with
             | |- context [if ?b then _ else _] => destruct b
             end; cbn; right; eexists; (split; [done |]); (split; [done |]);
        by split.
    + repeat match goal with
             | |- context [if ?b then _ else _] => destruct b
             end; cbn; by left.
  - cbn [andb].
    repeat match goal with
           | |- context [if ?b then _ else _] => destruct b
           end; cbn; right; eexists; (split; [done |]); (split; [done |]);
      by split.
Qed.

Lemma ciclo_valuta_filtri giorno aut obbl senior l acc st :
  let r := (ciclo (valuta_combinazione casuale self giorno aut obbl senior) l acc st).1 in
  ∀ s, s ∈ r.1 →
       s ∈ acc.1
       ∨ ∃ extra, extra ∈ l ∧ sol_team s = obbl ++ extra
                  ∧ filtri_superati self senior (obbl ++ extra).
Proof.
  revert acc st. induction l as [| x l IH]; intros acc st; simpl.
  - intros s Hs. by left.
  - unfold mbind, M_bind.
    pose proof (valuta_combinazione_filtri giorno aut obbl senior x acc st) as Hv.
    destruct (valuta_combinazione _ _ _ _ _ _ x acc st) as [acc' st']. simpl in Hv.
    intros s Hs. destruct (IH acc' st' s Hs) as [Hin | (extra & He & Ht)].
    + destruct Hv as [Hv | (s' & Hv & Ht & Hf)]; rewrite Hv in Hin; [by left |].
      apply elem_of_app in Hin as [Hin | ->%list_elem_of_singleton]; [by left |].
      right. exists x. split; [by left | done].
    + right. exists extra. split; [by right | done].
Qed.

Lemma scegli_squadra_vincoli giorno n aut escl st :
  0 < n →
  match (_scegli_squadra_vigili casuale iter_set self giorno n aut escl st).1 with
  | Some team => squadra_valida iter_set self (cont_vig st) giorno n aut escl team
  | None => True
  end.
Proof.
  intros Hn.
  change (spec (_scegli_squadra_vigili casuale iter_set self giorno n aut escl) st
            (λ r _, match r with
                    | Some team =>
                        squadra_valida iter_set self (cont_vig st) giorno n aut escl team
                    | None => True
                    end)).
  unfold _scegli_squadra_vigili. destruct (Z.leb_spec n 0) as [? | _]; [lia |].
  apply spec_bind, spec_leggi. cbv zeta.
  set (c := raccogli_candidati self (cont_vig st) giorno escl).
  assert (Hbase : ∀ x, x ∈ candidati_base c
            ↔ x ∈ vigili self
              ∧ ammesso self (cont_vig st) giorno escl x = true
              ∧ in_deroga self (cont_vig st) giorno x = false).
  { intros x. unfold c. rewrite raccogli_candidati_base, list_elem_of_filter.
    rewrite andb_true_iff, negb_true_iff. tauto. }
  assert (Hlbase : candidati_base c
            = filter (λ x, ammesso self (cont_vig st) giorno escl x
                           && negb (in_deroga self (cont_vig st) giorno x) = true)
                (vigili self)) by apply raccogli_candidati_base.
  clearbody c. apply spec_bind.
  apply (spec_mono _ _
    (λ disp _, (∀ x, x ∈ candidati_base c → x ∈ disp)
               ∧ (n ≤ Z.of_nat (length (candidati_base c)) →
                  disp = candidati_base c))).
  { unfold spec, candidati_disponibili.
    destruct (Z.ltb_spec (Z.of_nat (length (candidati_base c))) n); cbn [andb].
    - destruct (negb _); cbn [fst mbind M_bind];
        (split; [| lia]); [| done].
      intros x Hx. unfold mbind, M_bind, _log, modifica, mret, M_ret. cbn [fst].
      apply elem_of_app. by left.
    - by split. }
  intros disponibili st1 [Hdisp Hsolo].
  destruct (Z.ltb_spec (Z.of_nat (length disponibili)) n) as [Hlen | Hlen].
  { by apply spec_bind, spec_log, spec_ret. }
  set (obbligatori := iter_set (_preferenze_obbligatorie self aut)).
  set (obbl0 := filter (λ nome, nome ∈ disponibili) obbligatori).
  apply spec_bind. apply (spec_mono _ _ (λ _ _, True)); [done |].
  intros _ st2 _. apply spec_bind. apply (spec_mono _ _ (λ _ _, True)); [done |].
  intros _ st3 _.
  set (obbl := if n <? Z.of_nat (length obbl0) then take (Z.to_nat n) obbl0 else obbl0).
  assert (Hobbl : Z.of_nat (length obbligatori) ≤ n → obbl = obbl0).
  { intros Hle. unfold obbl. destruct (Z.ltb_spec n (Z.of_nat (length obbl0))); [| done].
    pose proof (length_filter (λ nome, nome ∈ disponibili) obbligatori).
    fold obbl0 in H0. lia. }
  assert (Hobbl_in : ∀ x, x ∈ obbl → x ∈ disponibili).
  { intros x Hx. assert (Hx0 : x ∈ obbl0).
    { revert Hx. unfold obbl. destruct (_ <? _); [| done].
      intros Hx. eapply elem_of_sublist; [exact Hx | apply sublist_take]. }
    by apply list_elem_of_filter in Hx0 as [? _]. }
  clearbody obbl.
  set (slot := Z.max 0 (n - Z.of_nat (length obbl))).
  set (residui := filter (λ nome, nome ∉ obbl) disponibili).
  destruct (Z.ltb_spec (Z.of_nat (length residui)) slot) as [Hres | Hres].
  { by apply spec_bind, spec_log, spec_ret. }
  set (combinazioni := if 0 <? slot then combinations residui (Z.to_nat slot) else [[]]).
  assert (Hcomb : ∀ extra x, extra ∈ combinazioni → x ∈ extra → x ∈ disponibili).
  { intros extra x He Hx. assert (Hs : extra `sublist_of` residui).
    { revert He. unfold combinazioni. destruct (0 <? slot).
      - by intros [_ ?]%combinations_spec.
      - intros ->%list_elem_of_singleton. apply sublist_nil_l. }
    eapply elem_of_sublist in Hx; [| exact Hs].
    by apply list_elem_of_filter in Hx as [_ ?]. }
  clearbody combinazioni. apply spec_bind.
  set (senior := existsb (is_senior self) disponibili).
  apply (spec_mono _ _
    (λ r _, ∀ s, s ∈ r.1 → ∃ extra, extra ∈ combinazioni
                                    ∧ sol_team s = obbl ++ extra
                                    ∧ filtri_superati self senior (obbl ++ extra))).
  { unfold spec. intros s Hs.
    destruct (ciclo_valuta_filtri giorno aut obbl senior
                combinazioni ([], false) st3 s Hs) as [H | (extra & H)].
    - by apply not_elem_of_nil in H.
    - by exists extra. }
  intros [soluzioni flag] st4 Hsol. cbn [fst] in Hsol.
  pose proof (sorted_py_perm (λ a b, tuple_leb (punteggio a) (punteggio b)) soluzioni)
    as Hperm.
  destruct (sorted_py _ soluzioni) as [| migliore resto].
  { by apply spec_bind, spec_log, spec_ret. }
  assert (Hmig : migliore ∈ soluzioni) by (rewrite <- Hperm; by left).
  destruct (Hsol _ Hmig) as (extra & Hextra & Hteam & Hvietate & Hsenior).
  apply spec_bind. apply (spec_mono _ _ (λ _ _, True)); [done |].
  intros _ st5 _. apply spec_bind, spec_leggi. apply spec_bind.
  apply (spec_mono _ _ (λ _ _, True)); [done |].
  intros _ st6 _. apply spec_bind. apply (spec_mono _ _ (λ _ _, True)); [done |].
  intros _ st7 _. apply spec_bind. apply (spec_mono _ _ (λ _ _, True)); [done |].
  intros _ st8 _. apply spec_bind. apply (spec_mono _ _ (λ _ _, True)); [done |].
  intros _ st9 _. apply spec_bind, spec_modifica, spec_ret.
  rewrite Hteam. split; [| split; [| split]].
  - intros a b Ha Hb Hne Hin.
    assert (Hpair : ∀ p, p ∈ coppie (obbl ++ extra) →
              frozenset_pair p ∉ forbidden_hard self).
    { intros p Hp Hf. apply not_true_iff_false in Hvietate. apply Hvietate.
      apply existsb_exists. exists p. split; [by apply list_elem_of_In |].
      by apply bool_decide_eq_true. }
    destruct (coppie_completo _ a b Ha Hb Hne) as [H | H]; apply Hpair in H;
      apply H; unfold frozenset_pair; cbn [fst snd]; [done |].
    by rewrite (comm_L (∪) {[b]} {[a]}).
  - intros Hmode (x & Hv & Hs & Ha & Hd).
    assert (Hsen : senior = true).
    { unfold senior. apply existsb_exists. exists x. split; [| done].
      apply list_elem_of_In, Hdisp, Hbase. done. }
    rewrite Hsen in Hsenior.
    destruct (Z.ltb_spec 0 (min_esperti self)) as [Hpos | Hnon].
    + destruct (Z.ltb_spec (conta (is_senior self) (obbl ++ extra)) (min_esperti self))
        as [Hlt | Hge]; [| done].
      destruct Hmode. by apply Hsenior.
    + unfold conta. lia.
  - intros Hle x Hx Hv Ha Hd. apply elem_of_app. left.
    rewrite (Hobbl Hle). apply list_elem_of_filter. split; [| done].
    apply Hdisp, Hbase. done.
  - intros Hle x Hx. rewrite <- Hlbase in Hle. rewrite (Hsolo Hle) in *.
    assert (Hxb : x ∈ candidati_base c).
    { apply elem_of_app in Hx as [Hx | Hx]; [by apply Hobbl_in | by eapply Hcomb]. }
    by apply Hbase in Hxb as (_ & _ & ?).
Qed.

End Vincoli.

(** X8: the choice of the driver. [_scegli_autista] returns no driver only
    when every driver is excluded, on vacation or, with the weekly-cap rule
    in mode hard, at the weekly cap. Otherwise it returns a driver who passes
    these filters; one who has not yet served on that weekday in that month
    whenever some driver who passes them has not; and, among the drivers it
    chooses from, one whose key (at the cap, shifts of the week, of the
    month, of the year, on that weekday, same weekday as the last shift) is
    the least in lexicographic order. *)
Theorem scegli_autista_sceglie casuale self giorno esclusioni st :
  let cont := cont_aut st in
  let idoneo nome :=
    nome ∈ autisti self ∧ nome ∉ esclusioni ∧ _in_ferie self nome giorno = false
    ∧ ¬ (mode (rule_weekly_cap self) = HARD
         ∧ _limite_raggiunto_raw self cont nome giorno = true) in
  let libero nome :=
    tot_mese_giorno cont nome (date_month giorno) (weekday giorno) < 1 in
  match (_scegli_autista casuale self giorno esclusioni st).1 with
  | None => ∀ nome, ¬ idoneo nome
  | Some scelto =>
      idoneo scelto
      ∧ ∀ x, idoneo x →
          (libero x → libero scelto)
          ∧ ((libero scelto → libero x) →
             tuple_leb (chiave_autista self cont giorno scelto)
               (chiave_autista self cont giorno x) = true)
  end.
Proof.
  intros cont idoneo libero.
  assert (Hid : ∀ x, idoneo x ↔
            x ∈ filter (λ nome, autista_idoneo self cont giorno esclusioni nome = true)
                  (autisti self)).
  { intros x. unfold idoneo. rewrite list_elem_of_filter. unfold autista_idoneo.
    rewrite !andb_true_iff, !negb_true_iff, andb_false_iff.
    rewrite !bool_decide_eq_false.
    destruct (_limite_raggiunto_raw self cont x giorno); intuition congruence. }
  pose proof (scegli_autista_scelta casuale self giorno esclusioni st) as H.
  fold cont in H.
  destruct (_scegli_autista casuale self giorno esclusioni st).1 as [scelto |].
  - destruct H as [Hin Hmin]. unfold pool_autisti in Hin, Hmin. cbv zeta in Hin, Hmin.
    set (idonei := filter _ (autisti self)) in *.
    destruct (filter _ idonei) as [| l0 liberi] eqn:E.
    + split; [by apply Hid |]. intros x Hx. apply Hid in Hx. split.
      * intros Hl. assert (Hxl : x ∈ filter (λ nome, tot_mese_giorno cont nome
                              (date_month giorno) (weekday giorno) < 1) idonei).
        { by apply list_elem_of_filter. }
        rewrite E in Hxl. by apply not_elem_of_nil in Hxl.
      * intros _. by apply Hmin.
    + rewrite <- E in Hin, Hmin. apply list_elem_of_filter in Hin as [Hl Hin].
      split; [by apply Hid |]. intros x Hx. apply Hid in Hx. split; [done |].
      intros Himp. apply Hmin. apply list_elem_of_filter. split; [| done].
      by apply Himp.
  - intros nome Hn. apply Hid in Hn. rewrite H in Hn. by apply not_elem_of_nil in Hn.
Qed.

(** X9: the choice of the crew. A team returned by [_scegli_squadra_vigili]
    has as many members as slots were asked for, all of them crew members who
    pass the filters (not excluded, not on vacation, not blocked by a hard
    summer or cap rule); with no slot to fill the call never fails. For a
    positive number of slots: no two members form a hard forbidden pair;
    unless the minimum-seniors rule is soft, the team has the minimum number
    of seniors whenever a senior is among the regular candidates; when the
    driver's hard-preferred partners are not more than the slots, each of
    them who is a regular candidate is in the team; and when the regular
    candidates are enough to fill the slots, nobody who is at the weekly cap
    or blocked by the summer rule is in the team. *)
Theorem scegli_squadra_rispetta_vincoli casuale iter_set self giorno n autista
    esclusioni st :
  let cont := cont_vig st in
  let regolare x :=
    ammesso self cont giorno esclusioni x && negb (in_deroga self cont giorno x) in
  let obbligatori := iter_set (_preferenze_obbligatorie self autista) in
  match (_scegli_squadra_vigili casuale iter_set self giorno n autista esclusioni st).1
  with
  | None => 0 < n
  | Some team =>
      Z.of_nat (length team) = Z.max 0 n
      ∧ (∀ x, x ∈ team →
           x ∈ vigili self ∧ ammesso self cont giorno esclusioni x = true)
      ∧ (0 < n →
         (∀ a b, a ∈ team → b ∈ team → a ≠ b → {[a; b]} ∉ forbidden_hard self)
         ∧ (mode (rule_min_senior self) ≠ SOFT →
            (∃ x, x ∈ vigili self ∧ regolare x = true ∧ is_senior self x = true) →
            min_esperti self ≤ conta (is_senior self) team)
         ∧ (Z.of_nat (length obbligatori) ≤ n →
            ∀ x, x ∈ obbligatori → x ∈ vigili self → regolare x = true → x ∈ team)
         ∧ (n ≤ Z.of_nat (length (filter (λ x, regolare x = true) (vigili self))) →
            ∀ x, x ∈ team → in_deroga self cont giorno x = false))
  end.
Proof.
  intros cont regolare obbligatori.
  pose proof (scegli_squadra_spec casuale iter_set self giorno n autista esclusioni st)
    as Hspec.
  pose proof (scegli_squadra_vincoli casuale iter_set self giorno n autista
                esclusioni st) as Hvinc.
  unfold spec in Hspec.
  destruct (_scegli_squadra_vigili casuale iter_set self giorno n autista esclusioni st)
    as [[team |] st'] eqn:E; cbn [fst snd] in *.
  - destruct Hspec as (_ & _ & _ & _ & Hlen & Hmem & _).
    split; [done |]. split; [done |]. intros Hn.
    destruct (Hvinc Hn) as (H1 & H2 & H3 & H4).
    split; [done |]. split; [| split; [| done]].
    + intros Hm (x & Hv & [Ha Hd%negb_true_iff]%andb_true_iff & Hs).
      apply H2; [done |]. by exists x.
    + intros Hle x Hx Hv [Ha Hd%negb_true_iff]%andb_true_iff. by apply H3.
  - destruct (Z.leb_spec n 0) as [Hle | Hlt]; [| done].
    exfalso. revert E. unfold _scegli_squadra_vigili.
    destruct (Z.leb_spec n 0) as [_ | ?]; [| lia]. done.
Qed.

(** ** The raw cap in the crew selector when the weekly-cap rule is off *)

(** After listing the available candidates, the crew selector only adds to
    the log. *)
Lemma scegli_squadra_log casuale iter_set self giorno n aut escl st :
  0 < n →
  estende
    (candidati_disponibili giorno n
       (raccogli_candidati self (cont_vig st) giorno escl) st).2
    (_scegli_squadra_vigili casuale iter_set self giorno n aut escl st).2.
Proof.
  intros Hn.
  change (spec (_scegli_squadra_vigili casuale iter_set self giorno n aut escl) st
            (λ _ st',
               estende
                 (candidati_disponibili giorno n
                    (raccogli_candidati self (cont_vig st) giorno escl) st).2 st')).
  unfold _scegli_squadra_vigili. destruct (Z.leb_spec n 0) as [? | _]; [lia |].
  apply spec_bind, spec_leggi. cbv zeta. apply spec_bind.
  unfold spec at 1.
  apply (spec_conserva avanza); [| by intros a st' [_ H]].
  conserva_carico.
Qed.

(** C10: with the weekly-cap rule off, a crew member who passes the other
    filters and has reached the raw weekly cap is put among the fallback
    candidates and not among the base ones, and is among the available
    candidates exactly when the base candidates are fewer than the crew size
    asked for. [_scegli_squadra_vigili] obeys this: when the base candidates
    are too few, the first entry it adds to the log is the relaxation entry
    that names the weekly limit and lists the fallback candidates; when the
    base candidates suffice, the team it returns never holds the member. So
    the raw cap decides who is chosen although the rule is off. *)
Theorem C10_limite_raw_con_regola_off casuale iter_set self giorno n autista esclusioni st nome :
  mode (rule_weekly_cap self) = OFF →
  nome ∈ vigili self →
  nome ∉ esclusioni →
  _in_ferie self nome giorno = false →
  ¬ (mode (rule_summer self) = HARD
     ∧ summer_block self nome (date_month giorno) = true) →
  _limite_raggiunto_raw self (cont_vig st) nome giorno = true →
  let c := raccogli_candidati self (cont_vig st) giorno esclusioni in
  let d := candidati_disponibili giorno n c st in
  let r :=
    _scegli_squadra_vigili casuale iter_set self giorno n autista esclusioni st in
  nome ∈ fallback_candidates c
  ∧ (nome ∉ candidati_base c)
  ∧ (nome ∈ d.1 ↔ Z.of_nat (length (candidati_base c)) < n)
  ∧ (Z.of_nat (length (candidati_base c)) < n →
     ∃ estiva altre,
       log r.2
       = log st
         ++ voce giorno VIGILI (DerogaCandidati true estiva (fallback_candidates c))
            :: altre)
  ∧ (n ≤ Z.of_nat (length (candidati_base c)) →
     ∀ team, r.1 = Some team → nome ∉ team).
Proof.
  intros Hoff Hin Hex Hferie Hsummer Hraw c d r.
  destruct (limite_raw_con_regola_off_candidati self (cont_vig st) giorno esclusioni nome
              Hoff Hin Hex Hferie Hsummer Hraw) as (Hfb & Hnb & Hd).
  fold c in Hfb, Hnb, Hd. destruct (Hd n st) as [Hiff Hlog]. fold d in Hiff, Hlog.
  split; [done |]. split; [done |]. split; [done |]. split.
  - intros Hlt. destruct (Hlog (proj2 Hiff Hlt)) as (estiva & Elog).
    assert (Hn : 0 < n) by lia.
    destruct (scegli_squadra_log casuale iter_set self giorno n autista esclusioni
                st Hn) as (altre & E & _).
    fold c d r in E. exists estiva, altre. by rewrite E, Elog, <- app_assoc.
  - intros Hle team Hteam Hx.
    assert (Hder : in_deroga self (cont_vig st) giorno nome = true).
    { unfold in_deroga. rewrite Hraw. apply orb_true_r. }
    destruct (Z.leb_spec n 0) as [Hn | Hn].
    + pose proof (scegli_squadra_spec casuale iter_set self giorno n autista
                    esclusioni st) as Hspec.
      unfold spec in Hspec. fold r in Hspec. rewrite Hteam in Hspec.
      destruct Hspec as (_ & _ & _ & _ & Hlen & _).
      destruct team; [by apply not_elem_of_nil in Hx | cbn in Hlen; lia].
    + pose proof (scegli_squadra_vincoli casuale iter_set self giorno n autista
                    esclusioni st Hn) as Hv.
      fold r in Hv. rewrite Hteam in Hv. destruct Hv as (_ & _ & _ & Hsolo).
      rewrite <- (raccogli_candidati_base self (cont_vig st) giorno esclusioni)
        in Hsolo.
      specialize (Hsolo Hle nome Hx). congruence.
Qed.

(** The statement of C10 for Neri on Sunday 7 January 2024, after a shift on
    the Saturday before, with the default cap of one shift per week, when a
    crew of four is asked for and Rossi drives. *)
Lemma C10_witness :
  let self := Scheduler_init 2024 (config_cap_default OFF) None in
  let giorno := _ymd2ord 2024 1 7 in
  let st :=
    set_cont_vig (aggiungi "Neri" (_ymd2ord 2024 1 6) Conteggi_vuoto)
      (Stato_init self) in
  let autista := Some "Rossi"%string in
  let c := raccogli_candidati self (cont_vig st) giorno ∅ in
  let d := candidati_disponibili giorno 4 c st in
  let r := _scegli_squadra_vigili (λ _, 0) ordine_alfabetico self giorno 4 autista ∅ st in
  "Neri"%string ∈ fallback_candidates c
  ∧ ("Neri"%string ∉ candidati_base c)
  ∧ ("Neri"%string ∈ d.1 ↔ Z.of_nat (length (candidati_base c)) < 4)
  ∧ (Z.of_nat (length (candidati_base c)) < 4 →
     ∃ estiva altre,
       log r.2
       = log st
         ++ voce giorno VIGILI (DerogaCandidati true estiva (fallback_candidates c))
            :: altre)
  ∧ (4 ≤ Z.of_nat (length (candidati_base c)) →
     ∀ team, r.1 = Some team → "Neri"%string ∉ team).
Proof.
  apply (C10_limite_raw_con_regola_off (λ _, 0) ordine_alfabetico
           (Scheduler_init 2024 (config_cap_default OFF) None)
           (_ymd2ord 2024 1 7) 4 (Some "Rossi"%string) ∅
           (set_cont_vig (aggiungi "Neri" (_ymd2ord 2024 1 6) Conteggi_vuoto)
              (Stato_init (Scheduler_init 2024 (config_cap_default OFF) None)))
           "Neri"%string).
  - reflexivity.
  - calcola.
  - apply not_elem_of_empty.
  - reflexivity.
  - intros [_ H]. vm_compute in H. discriminate.
  - vm_compute. reflexivity.
Defined.

(** ** The composition of one date, whatever the state *)

Section Composto.

Variable casuale : nat → Z.
Variable iter_set : gset string → list string.
Variable self : Scheduler.

Lemma pool_autisti_idoneo cont giorno esclusioni x :
  x ∈ pool_autisti self cont giorno esclusioni →
  x ∈ autisti self ∧ autista_idoneo self cont giorno esclusioni x = true.
Proof.
  unfold pool_autisti. cbv zeta.
  set (idonei := filter _ (autisti self)).
  assert (H : ∀ y, y ∈ idonei →
            y ∈ autisti self ∧ autista_idoneo self cont giorno esclusioni y = true).
  { intros y. unfold idonei. rewrite list_elem_of_filter. tauto. }
  destruct (filter _ idonei) as [| l0 liberi] eqn:E; [apply H |].
  rewrite <- E. intros [_ Hx]%list_elem_of_filter. by apply H.
Qed.

Lemma scegli_autista_idoneo giorno esclusioni st s :
  (_scegli_autista casuale self giorno esclusioni st).1 = Some s →
  s ∈ autisti self ∧ s ∉ esclusioni ∧ _in_ferie self s giorno = false.
Proof.
  intros E. pose proof (scegli_autista_scelta casuale self giorno esclusioni st) as H.
  rewrite E in H. destruct H as [Hin _].
  apply pool_autisti_idoneo in Hin as [Ha Hi]. split; [done |].
  unfold autista_idoneo in Hi.
  apply andb_true_iff in Hi as [Hi _]. apply andb_true_iff in Hi as [H1 H2].
  apply negb_true_iff in H1, H2. by apply bool_decide_eq_false in H1.
Qed.

Lemma ammesso_ferie cont giorno escl x :
  ammesso self cont giorno escl x = true → _in_ferie self x giorno = false.
Proof.
  unfold ammesso. intros H.
  apply andb_true_iff in H as [H _]. apply andb_true_iff in H as [H _].
  apply andb_true_iff in H as [_ H]. by apply negb_true_iff in H.
Qed.

Lemma ammesso_estate cont giorno escl x :
  ammesso self cont giorno escl x = true →
  mode (rule_summer self) = HARD →
  summer_block self x (date_month giorno) = false.
Proof.
  unfold ammesso. intros H Hm.
  apply andb_true_iff in H as [H _]. apply andb_true_iff in H as [_ H].
  rewrite Hm, (bool_decide_eq_true_2 (HARD = HARD)) in H by done.
  by apply negb_true_iff in H.
Qed.

Lemma aggiungi_varchi_val giorno squadra st :
  let r := (_aggiungi_varchi_venerdi self giorno squadra st).1 in
  r = squadra
  ∨ ∃ v, autista_varchi self = Some v ∧ _in_ferie self v giorno = false
         ∧ Some v ∉ squadra ∧ r = squadra ++ [Some v].
Proof.
  unfold _aggiungi_varchi_venerdi.
  destruct (autista_varchi self) as [v |] eqn:Hv; [| by left].
  destruct (negb (truthy (Some v))); [by left |].
  case_bool_decide as Hin; [by left |].
  destruct (_in_ferie self v giorno) eqn:Hf; [by left |].
  unfold mbind, M_bind, leggi, modifica, _log, mret, M_ret.
  destruct (_ha_raggiunto_limite self (cont_vig st) v giorno); [by left |].
  right. by exists v.
Qed.

Lemma costruisci_per_data_internal_composto giorno assegnazioni sabato apply_varchi st :
  composto iter_set self apply_varchi giorno sabato
    (_costruisci_per_data_internal casuale iter_set self giorno assegnazioni sabato
       apply_varchi st).1.
Proof.
  change (spec (_costruisci_per_data_internal casuale iter_set self giorno
                  assegnazioni sabato apply_varchi) st
            (λ r _, composto iter_set self apply_varchi giorno sabato r)).
  unfold _costruisci_per_data_internal. cbv zeta.
  apply spec_bind. apply (spec_mono _ _ (λ _ _, True)); [done |].
  intros _ st1 _. apply spec_bind.
  match goal with
  | |- spec (_scegli_autista _ _ _ ?e) _ _ => set (esclusioni_autista := e)
  end.
  apply (spec_mono _ _
    (λ autista _, ∀ s, autista = Some s →
       s ∈ autisti self ∧ s ∉ esclusioni_autista ∧ _in_ferie self s giorno = false)).
  { unfold spec. intros s Hs. by eapply scegli_autista_idoneo. }
  intros autista st2 Haut.
  apply spec_bind. apply (spec_mono _ _ (λ _ _, True)); [done |].
  intros _ st3 _. apply spec_bind.
  match goal with
  | |- context [if ?b then _aggiungi_varchi_venerdi _ _ _ else _] =>
      set (include_varchi := b)
  end.
  match goal with
  | |- spec (_scegli_squadra_vigili _ _ _ _ ?n _ ?e) _ _ =>
      set (vigili_base := n); set (esclusioni_vigili := e)
  end.
  match goal with
  | |- context [Build_Assegnazione _ (if ?b then _ else _) _] =>
      set (sostituisci := b)
  end.
  assert (Hbase : 0 < vigili_base).
  { unfold vigili_base, _numero_vigili_previsti. destruct include_varchi; lia. }
  pose (speciale := apply_varchi && truthy (autista_varchi self)).
  assert (Hdriver : ∀ s, autista = Some s →
            s ∈ autisti self ∧ _in_ferie self s giorno = false
            ∧ (speciale = true → autista_varchi self = Some s →
               weekday giorno = 4
               ∧ ¬ (truthy (autista_pogliani self) = true
                    ∧ sabato = autista_pogliani self))).
  { intros s Hs. destruct (Haut s Hs) as (H1 & H2 & H3).
    split; [done |]. split; [done |]. intros Hsp Hv.
    unfold speciale in Hsp. apply andb_true_iff in Hsp as [Happ Htr].
    unfold esclusioni_autista in H2. rewrite Happ, Htr, Hv in H2. cbn [andb opt_set] in H2.
    destruct (Z.eqb_spec (weekday giorno) 4) as [Hd | Hd]; cbn [negb] in H2.
    - split; [done |]. intros [Hp Hsab]. rewrite Hp in H2.
      rewrite (bool_decide_eq_true_2 _ Hsab) in H2. cbn [andb] in H2.
      apply H2. set_solver.
    - destruct H2. set_solver. }
  assert (Hdisplay : (if sostituisci then autista_varchi self else autista) = autista
            ∨ (speciale = true ∧ varchi_is_senior self = true ∧ weekday giorno = 5
               ∧ autista = autista_pogliani self
               ∧ (if sostituisci then autista_varchi self else autista)
                 = autista_varchi self)).
  { destruct sostituisci eqn:Hs; [| by left]. right. unfold sostituisci in Hs.
    apply andb_true_iff in Hs as [Hs H5]. apply andb_true_iff in Hs as [Hs H4].
    apply andb_true_iff in Hs as [Hs H3]. apply andb_true_iff in Hs as [H1 H2].
    apply bool_decide_eq_true in H4. apply Z.eqb_eq in H3.
    unfold speciale. rewrite H1, H5. done. }
  unfold spec at 1.
  pose proof (scegli_squadra_spec casuale iter_set self giorno vigili_base autista
                esclusioni_vigili st3) as Hspec.
  pose proof (scegli_squadra_vincoli casuale iter_set self giorno vigili_base autista
                esclusioni_vigili st3 Hbase) as Hvinc.
  unfold spec in Hspec.
  destruct (_scegli_squadra_vigili casuale iter_set self giorno vigili_base autista
              esclusioni_vigili st3) as [squadra st4].
  cbn [fst snd] in *.
  destruct squadra as [team |].
  2: { apply spec_bind, spec_log, spec_ret. unfold composto.
       cbn [fst snd a_giorno a_autista a_vigili].
       split; [done |]. split; [exact Hdriver |]. split; [by left | by left]. }
  destruct Hspec as (_ & _ & _ & _ & Hlen & Hmem & Hnd).
  destruct Hvinc as (Hcoppie & _).
  assert (Hteam : ∀ x, x ∈ team →
            x ∈ vigili self ∧ _in_ferie self x giorno = false
            ∧ (truthy autista = true → autista ≠ Some x)
            ∧ (speciale = true → autista_varchi self ≠ Some x)
            ∧ (mode (rule_summer self) = HARD →
               summer_block self x (date_month giorno) = false)).
  { intros x Hx. destruct (Hmem x Hx) as [Hv Ha].
    split; [done |]. split; [by eapply ammesso_ferie |].
    pose proof (ammesso_non_escluso self _ _ _ _ Ha) as Hne.
    split; [| split].
    - intros Ht ->. apply Hne. unfold esclusioni_vigili. rewrite Ht.
      cbn [opt_set]. set_solver.
    - intros Hsp Hv'. apply Hne. unfold esclusioni_vigili. fold speciale.
      rewrite Hsp, Hv'. cbn [opt_set]. set_solver.
    - by eapply ammesso_estate. }
  destruct include_varchi eqn:Hinc.
  - assert (Hlen3 : length team = 3%nat).
    { unfold vigili_base, _numero_vigili_previsti in Hlen. lia. }
    assert (Hcond : speciale = true ∧ varchi_is_senior self = true
              ∧ weekday giorno = 4
              ∧ (autista_pogliani self = None ∨ sabato ≠ autista_pogliani self)).
    { unfold include_varchi in Hinc.
      apply andb_true_iff in Hinc as [Hinc H5]. apply andb_true_iff in Hinc as [Hinc H4].
      apply andb_true_iff in Hinc as [Hinc H3]. apply andb_true_iff in Hinc as [H1 H2].
      apply Z.eqb_eq in H3. unfold speciale. rewrite H1, H4.
      split; [done |]. split; [done |]. split; [done |].
      apply orb_true_iff in H5 as [H5 | H5].
      - left. by apply bool_decide_eq_true in H5.
      - right. apply negb_true_iff in H5. by apply bool_decide_eq_false in H5. }
    apply spec_bind. unfold spec at 1.
    pose proof (aggiungi_varchi_val giorno (map Some team) st4) as Hbonus.
    destruct (_aggiungi_varchi_venerdi self giorno (map Some team) st4) as [sl st5].
    cbn [fst snd] in *. apply spec_ret.
    unfold composto. cbn [fst snd a_giorno a_autista a_vigili].
    split; [done |]. split; [exact Hdriver |]. split; [exact Hdisplay |].
    right. exists team.
    destruct Hbonus as [-> | (v & Hv & Hf & Hnin & ->)].
    + exists [None]. rewrite take_tre by (by rewrite length_map).
      split; [done |]. split; [done |]. split; [done |]. split; [done |].
      right. split; [done |]. destruct Hcond as (? & ? & ? & ?).
      repeat (split; [done |]). by left.
    + exists [Some v].
      rewrite take_completa by (rewrite length_app, length_map; simpl; lia).
      split; [done |]. split; [done |]. split; [done |]. split; [done |].
      right. split; [done |]. destruct Hcond as (? & ? & ? & ?).
      repeat (split; [done |]). right. by exists v.
  - assert (Hlen4 : length team = 4%nat).
    { unfold vigili_base, _numero_vigili_previsti in Hlen. lia. }
    apply spec_bind, spec_ret, spec_ret.
    unfold composto. cbn [fst snd a_giorno a_autista a_vigili].
    rewrite take_completa by (by rewrite length_map).
    split; [done |]. split; [exact Hdriver |]. split; [exact Hdisplay |].
    right. exists team, []. rewrite app_nil_r.
    split; [done |]. split; [done |]. split; [done |]. split; [done |]. by left.
Qed.

End Composto.

(** ** One date of the run, in full *)

Section DataPiena.

Variable casuale : nat → Z.
Variable iter_set : gset string → list string.
Variable self : Scheduler.

Lemma costruisci_per_data_eq giorno assegnazioni st :
  let sabato := _trova_autista_settimanale (autisti_reali st) assegnazioni giorno 5 in
  let r1 :=
    _costruisci_per_data_internal casuale iter_set self giorno assegnazioni sabato
      (enable_varchi_rule self) st in
  let riprovo :=
    enable_varchi_rule self && bool_decide (mode (rule_varchi self) = SOFT)
    && _turno_incompleto r1.1.1 in
  let r2 :=
    if riprovo
    then _costruisci_per_data_internal casuale iter_set self giorno assegnazioni
           sabato false
           (set_log (log r1.2 ++ [voce giorno AUTISTA DerogaRegolaVarchi]) r1.2)
    else r1 in
  _costruisci_per_data casuale iter_set self giorno assegnazioni st
  = (r2.1.1, set_autisti_reali (<[giorno := r2.1.2]> (autisti_reali r2.2)) r2.2).
Proof.
  cbv zeta. unfold _costruisci_per_data, mbind, M_bind, leggi.
  destruct (_costruisci_per_data_internal casuale iter_set self giorno assegnazioni
              _ (enable_varchi_rule self) st) as [[a1 reale1] st1].
  cbn [fst snd].
  destruct (_ && _ && _turno_incompleto a1).
  - unfold _log, modifica at 1. cbn [fst snd].
    change {| log_giorno := giorno; log_categoria := AUTISTA;
              log_messaggio := DerogaRegolaVarchi |}
      with (voce giorno AUTISTA DerogaRegolaVarchi).
    destruct (_costruisci_per_data_internal casuale iter_set self giorno assegnazioni
                _ false _) as [[a2 reale2] st2].
    done.
  - done.
Qed.

Lemma costruisci_per_data_pieno giorno assegnazioni st :
  spec (_costruisci_per_data casuale iter_set self giorno assegnazioni) st
    (esito_data_pieno iter_set self giorno assegnazioni st).
Proof.
  unfold spec. rewrite costruisci_per_data_eq. cbv zeta.
  set (sabato := _trova_autista_settimanale (autisti_reali st) assegnazioni giorno 5).
  pose proof (costruisci_per_data_internal_spec casuale iter_set self giorno
                assegnazioni sabato (enable_varchi_rule self) st) as H1.
  pose proof (costruisci_per_data_internal_composto casuale iter_set self giorno
                assegnazioni sabato (enable_varchi_rule self) st) as C1.
  unfold spec in H1.
  destruct (_costruisci_per_data_internal casuale iter_set self giorno assegnazioni
              sabato (enable_varchi_rule self) st) as [[a1 reale1] st1].
  cbn [fst snd] in *.
  destruct H1 as (_ & _ & R1 & (n1 & L1 & _) & A1 & _ & V1 & _).
  cbn [fst snd] in *.
  destruct (enable_varchi_rule self && bool_decide (mode (rule_varchi self) = SOFT)
            && _turno_incompleto a1) eqn:Hretry.
  - set (st1' := set_log (log st1 ++ [voce giorno AUTISTA DerogaRegolaVarchi]) st1).
    pose proof (costruisci_per_data_internal_spec casuale iter_set self giorno
                  assegnazioni sabato false st1') as H2.
    pose proof (costruisci_per_data_internal_composto casuale iter_set self giorno
                  assegnazioni sabato false st1') as C2.
    unfold spec in H2.
    destruct (_costruisci_per_data_internal casuale iter_set self giorno assegnazioni
                sabato false st1') as [[a2 reale2] st2].
    cbn [fst snd] in *.
    destruct H2 as (_ & _ & R2 & (n2 & L2 & _) & A2 & _ & V2 & _).
    subst st1'.
    cbn [fst snd autisti_reali cont_aut cont_vig log set_log set_autisti_reali] in *.
    unfold esito_data_pieno.
    cbn [fst snd autisti_reali cont_aut cont_vig log set_log set_autisti_reali].
    exists reale2, true, (option_list reale1), (omap id (a_vigili a1)).
    apply andb_true_iff in Hretry as [Hretry _].
    apply andb_true_iff in Hretry as [He Hm]. apply bool_decide_eq_true in Hm.
    split; [by rewrite R2, R1 |]. split; [done |].
    split; [by rewrite registra_app, A2, A1 |].
    split; [by rewrite registra_app, V2, V1 |].
    split.
    { exists (n1 ++ [voce giorno AUTISTA DerogaRegolaVarchi] ++ n2).
      rewrite L2, L1. by rewrite <- !app_assoc. }
    split; [done |]. split; [done |].
    rewrite L2. apply elem_of_app. left. apply elem_of_app. right. by left.
  - unfold esito_data_pieno.
    cbn [fst snd autisti_reali cont_aut cont_vig log set_autisti_reali].
    exists reale1, false, [], [].
    split; [by rewrite R1 |]. split; [done |].
    split; [done |]. split; [done |]. split; [by exists n1 | done].
Qed.

End DataPiena.

(** ** An invariant of the whole run *)

Section InvarianteCorsa.

Variable casuale : nat → Z.
Variable iter_set : gset string → list string.
Variable self : Scheduler.
Variable I : list date → list (date * Assegnazione) → Stato → Prop.

Hypothesis I_inizio : I [] [] (Stato_init self).
Hypothesis I_passo : ∀ fatti giorno resto acc st,
  ordine_elaborazione (date_attive self) = fatti ++ giorno :: resto →
  giorno ∉ fatti → map fst acc = fatti → I fatti acc st →
  let r := _costruisci_per_data casuale iter_set self giorno acc st in
  I (fatti ++ [giorno]) (acc ++ [(giorno, r.1)]) r.2.

(** A property of the dictionary of Assignments and of the state that holds
    at the start and is kept by the composition of each date holds when the
    run ends; the list returned is the dictionary's values rearranged. *)
Lemma corsa_inv :
  NoDup (date_attive self) →
  let r := costruisci casuale iter_set self (Stato_init self) in
  ∃ acc, map fst acc = ordine_elaborazione (date_attive self)
         ∧ r.1 = in_ordine_di_data acc
         ∧ r.1 ≡ₚ map snd acc
         ∧ I (ordine_elaborazione (date_attive self)) acc r.2.
Proof.
  intros Hnd r. subst r. rewrite costruisci_ciclo.
  assert (Hn : NoDup (ordine_elaborazione (date_attive self))).
  { by rewrite ordine_elaborazione_perm. }
  pose proof (ciclo_inv (passo_data casuale iter_set self)
                (λ fatti acc st, map fst acc = fatti ∧ I fatti acc st)
                (ordine_elaborazione (date_attive self))) as H.
  cbv beta in H.
  destruct (ciclo (passo_data casuale iter_set self)
              (ordine_elaborazione (date_attive self)) [] (Stato_init self))
    as [acc st'] eqn:E.
  cbn [fst snd]. exists acc.
  assert (Hfin : map fst acc = ordine_elaborazione (date_attive self)
                 ∧ I (ordine_elaborazione (date_attive self)) acc st').
  { assert (Hstep : ∀ fatti x resto acc st,
              ordine_elaborazione (date_attive self) = fatti ++ x :: resto →
              map fst acc = fatti ∧ I fatti acc st →
              map fst (passo_data casuale iter_set self x acc st).1 = fatti ++ [x]
              ∧ I (fatti ++ [x]) (passo_data casuale iter_set self x acc st).1
                  (passo_data casuale iter_set self x acc st).2).
    { intros fatti x resto acc1 st Ht [Hk HI].
      assert (Hfresh : x ∉ fatti).
      { rewrite Ht in Hn. apply NoDup_app in Hn as (_ & Hn & _).
        intros Hx. apply (Hn x Hx). by left. }
      unfold passo_data, mbind, M_bind.
      pose proof (I_passo fatti x resto acc1 st Ht Hfresh Hk HI) as HI'.
      cbv zeta in HI'.
      destruct (_costruisci_per_data casuale iter_set self x acc1 st) as [a st1].
      cbn [fst snd mret M_ret] in *.
      rewrite dict_set_fresh by (by rewrite Hk).
      split; [| done]. rewrite map_app, Hk. done. }
    specialize (H Hstep [] (Stato_init self) (conj eq_refl I_inizio)).
    by rewrite E in H. }
  destruct Hfin as [Hk HI]. split; [done |]. split; [done |]. split; [| done].
  apply in_ordine_di_data_perm. by rewrite Hk.
Qed.

End InvarianteCorsa.

(** ** The order of composition *)

Lemma StronglySorted_filter {A} (R : relation A) (P : A → Prop)
    `{∀ x, Decision (P x)} l :
  StronglySorted R l → StronglySorted R (filter P l).
Proof.
  induction 1 as [| x l Hs IH Hx]; [constructor |].
  rewrite filter_cons. destruct (decide (P x)); [| done].
  constructor; [done |]. apply Forall_forall. intros y [_ Hy]%list_elem_of_filter.
  rewrite Forall_forall in Hx. by apply Hx.
Qed.

Lemma StronglySorted_impl {A} (R R' : relation A) (P : A → Prop) l :
  (∀ a b, P a → P b → R a b → R' a b) →
  Forall P l → StronglySorted R l → StronglySorted R' l.
Proof.
  intros HR HP Hs. induction Hs as [| x l Hs IH Hx]; [constructor |].
  apply Forall_cons in HP as [Hpx HP]. constructor; [by apply IH |].
  rewrite Forall_forall in *. intros y Hy. apply HR; auto.
Qed.

Lemma StronglySorted_NoDup_stretto {A B} (R : relation A) (f : A → B) l :
  StronglySorted R l → NoDup (map f l) →
  StronglySorted (λ a b, R a b ∧ f a ≠ f b) l.
Proof.
  induction 1 as [| x l Hs IH Hx]; intros Hnd; [constructor |].
  cbn [map] in Hnd. apply NoDup_cons in Hnd as [Hx' Hnd].
  constructor; [by apply IH |]. rewrite Forall_forall in *.
  intros y Hy. split; [by apply Hx |]. intros E. apply Hx'. rewrite E.
  rewrite map_fmap. apply list_elem_of_fmap. by exists y.
Qed.

Lemma StronglySorted_flat_map {A B} (R' : relation A) (R : relation B)
    (f : A → list B) l :
  StronglySorted R' l →
  (∀ x, x ∈ l → StronglySorted R (f x)) →
  (∀ x y u v, x ∈ l → y ∈ l → R' x y → u ∈ f x → v ∈ f y → R u v) →
  StronglySorted R (flat_map f l).
Proof.
  induction 1 as [| x l Hs IH Hx]; intros Hf HR; [constructor |].
  cbn [flat_map]. apply StronglySorted_app. split; [| split].
  - intros u v Hu Hv. rewrite flat_map_bind in Hv.
    apply list_elem_of_bind in Hv as (y & Hv & Hy).
    rewrite Forall_forall in Hx. apply (HR x y); auto; [by left | by right].
  - apply Hf. by left.
  - apply IH.
    + intros y Hy. apply Hf. by right.
    + intros y z u v Hy Hz. apply HR; by right.
Qed.

Lemma StronglySorted_omap {A B} (R : relation A) (R' : relation B)
    (f : A → option B) l :
  (∀ a b u v, R a b → f a = Some u → f b = Some v → R' u v) →
  StronglySorted R l → StronglySorted R' (omap f l).
Proof.
  intros HR. induction 1 as [| x l Hs IH Hx]; [constructor |].
  assert (Ec : omap f (x :: l)
               = match f x with Some u => u :: omap f l | None => omap f l end)
    by done.
  rewrite Ec. destruct (f x) as [u |] eqn:E; [| done].
  constructor; [done |]. apply Forall_forall.
  intros v (y & Hy & Hv)%list_elem_of_omap.
  rewrite Forall_forall in Hx. apply (HR x y); auto.
Qed.

Lemma week_key_leb_stretto k1 k2 :
  week_key_leb k1 k2 = true → k1 ≠ k2 → settimana_prima k1 k2.
Proof.
  destruct k1 as [y1 w1], k2 as [y2 w2]. unfold week_key_leb, settimana_prima.
  cbn [fst snd tuple_leb]. intros H Hne.
  destruct (Z.ltb_spec y1 y2); [by left |].
  destruct (Z.eqb_spec y1 y2) as [-> | ?]; [| done]. cbn in H.
  destruct (Z.ltb_spec w1 w2); [by right |].
  destruct (Z.eqb_spec w1 w2) as [-> | ?]; done.
Qed.

Lemma _ordine_giorni_sorted (m : gmap Z date) :
  (∀ w d, m !! w = Some d → weekday d = w) →
  StronglySorted (λ a b, rango a < rango b) (_ordine_giorni m).
Proof.
  intros Hm. unfold _ordine_giorni. apply StronglySorted_app. split; [| split].
  - intros a b [_ Ha]%list_elem_of_filter [Hb Hin]%list_elem_of_filter.
    rewrite sorted_py_perm, elem_of_elements, elem_of_dom in Hin.
    destruct Hin as [d Hd]. apply Hm in Hd. pose proof (weekday_bounds d).
    assert (Hb' : b ≠ 4 ∧ b ≠ 5 ∧ b ≠ 6).
    { rewrite !elem_of_cons, elem_of_nil in Hb. lia. }
    rewrite !elem_of_cons, elem_of_nil in Ha. unfold rango.
    destruct (Z.eqb_spec b 5), (Z.eqb_spec b 4), (Z.eqb_spec b 6); try lia.
    destruct Ha as [-> | [-> | [-> | []]]]; cbn; lia.
  - apply StronglySorted_filter. repeat constructor; cbn; lia.
  - apply (StronglySorted_impl Z.lt _ (λ w, w ∉ [4; 5; 6])).
    + intros a b Ha Hb Hab. rewrite !elem_of_cons, elem_of_nil in Ha, Hb.
      unfold rango.
      destruct (Z.eqb_spec a 5), (Z.eqb_spec a 4), (Z.eqb_spec a 6),
        (Z.eqb_spec b 5), (Z.eqb_spec b 4), (Z.eqb_spec b 6); lia.
    + apply Forall_forall. by intros w [? _]%list_elem_of_filter.
    + apply StronglySorted_filter.
      eapply (StronglySorted_impl (λ a b, a ≤ b ∧ id a ≠ id b) _ (λ _, True)).
      * intros a b _ _ [? ?]. unfold id in *. lia.
      * by apply Forall_forall.
      * apply StronglySorted_NoDup_stretto; [apply sorted_py_Z_sorted |].
        rewrite map_id, sorted_py_perm. apply NoDup_elements.
Qed.

Lemma giorni_in_ordine_sorted g :
  StronglySorted (λ d1 d2, rango (weekday d1) < rango (weekday d2))
    (giorni_in_ordine g)
  ∧ ∀ d, d ∈ giorni_in_ordine g → d ∈ g.
Proof.
  unfold giorni_in_ordine. cbv zeta.
  set (m := fold_left (λ m d, <[weekday d := d]> m) g ∅).
  assert (Hm : ∀ w d, m !! w = Some d → d ∈ g ∧ weekday d = w).
  { intros w d [H | H]%giorni_per_dow_lookup; [done | by rewrite lookup_empty in H]. }
  split.
  - eapply StronglySorted_omap; [| apply _ordine_giorni_sorted].
    + intros a b u v Hab Hu Hv. cbv beta in *.
      apply Hm in Hu as [_ ->]. apply Hm in Hv as [_ ->]. done.
    + intros w d Hd. by apply Hm in Hd as [_ ?].
  - intros d (w & _ & Hd)%list_elem_of_omap. by apply Hm in Hd as [? _].
Qed.

(** The dates are composed week by week in the order of the ISO weeks, and
    inside a week by the rank of their weekday. *)
Lemma ordine_elaborazione_sorted l :
  StronglySorted precede (ordine_elaborazione l).
Proof.
  unfold ordine_elaborazione.
  destruct (raggruppa_per_settimana_spec l) as [[Hk1 Hk2] _].
  set (G := raggruppa_per_settimana l) in *.
  set (S := sorted_py (λ a b : (Z * Z) * list date, week_key_leb a.1 b.1) G).
  assert (HS : ∀ x, x ∈ S → x ∈ G) by (intros x; unfold S; by rewrite sorted_py_perm).
  apply (StronglySorted_flat_map
           (λ a b : (Z * Z) * list date, settimana_prima a.1 b.1)).
  - apply (StronglySorted_impl
             (λ a b : (Z * Z) * list date, week_key_leb a.1 b.1 = true ∧ a.1 ≠ b.1)
             _ (λ _, True)).
    + intros a b _ _ [Hle Hne]. by apply week_key_leb_stretto.
    + by apply Forall_forall.
    + apply (StronglySorted_NoDup_stretto _ fst).
      * apply (sorted_py_sorted (λ a b : (Z * Z) * list date, week_key_leb a.1 b.1)).
        -- intros a b. apply tuple_leb_total.
        -- intros a b c. apply tuple_leb_trans.
      * unfold S. by rewrite sorted_py_perm.
  - intros [k g] Hin. cbn [snd].
    destruct (giorni_in_ordine_sorted g) as [Hs Hsub].
    eapply (StronglySorted_impl _ _ (λ d, d ∈ g)); [| by apply Forall_forall | exact Hs].
    intros d1 d2 H1 H2 Hr. right. split; [| done].
    by rewrite (Hk2 k g d1), (Hk2 k g d2) by auto.
  - intros [k1 g1] [k2 g2] u v H1 H2 Hlt Hu Hv. cbn [fst snd] in *. left.
    apply giorni_in_ordine_sorted in Hu, Hv.
    by rewrite (Hk2 k1 g1 u), (Hk2 k2 g2 v) by auto.
Qed.

(** ** Every Assignment of a run *)

Section CorsaComposta.

Variable casuale : nat → Z.
Variable iter_set : gset string → list string.
Variable self : Scheduler.

(** The driver [_trova_autista_settimanale] finds for a date of the week that
    was already composed. *)
Lemma _trova_autista_settimanale_fatto reali (acc : list (date * Assegnazione))
    giorno dow s v :
  s ∈ map fst acc → _week_key s = _week_key giorno → weekday s = dow →
  reali !! s = Some v →
  _trova_autista_settimanale reali acc giorno dow = v.
Proof.
  intros Hin Hk Hw Hv. unfold _trova_autista_settimanale. cbv zeta.
  assert (Hall : ∀ item, item ∈ filter (λ item : date * Assegnazione,
                    _week_key item.1 = _week_key giorno ∧ weekday item.1 = dow) acc →
                  item.1 = s).
  { intros item [[H1 H2] _]%list_elem_of_filter.
    apply week_key_weekday_inj; congruence. }
  destruct (filter _ acc) as [| [data ass] resto] eqn:E.
  - rewrite map_fmap in Hin. apply list_elem_of_fmap in Hin as ([d a] & -> & Hin).
    assert (Hf : (d, a) ∈ filter (λ item : date * Assegnazione,
                    _week_key item.1 = _week_key giorno ∧ weekday item.1 = dow) acc).
    { apply list_elem_of_filter. done. }
    rewrite E in Hf. by apply not_elem_of_nil in Hf.
  - specialize (Hall (data, ass) (list_elem_of_here _ _)). cbn [fst] in Hall.
    subst data. by rewrite Hv.
Qed.

Lemma precede_sabato_venerdi s d :
  _week_key s = _week_key d → weekday s = 5 → weekday d = 4 → ¬ precede d s.
Proof.
  intros Hk Hs Hd [[H | [_ H]] | [_ H]].
  - rewrite Hk in H. lia.
  - rewrite Hk in H. lia.
  - rewrite Hs, Hd in H. cbn in H. lia.
Qed.

Lemma inv_composto_passo fatti giorno resto acc st :
  NoDup (date_attive self) →
  ordine_elaborazione (date_attive self) = fatti ++ giorno :: resto →
  giorno ∉ fatti → map fst acc = fatti → inv_composto iter_set self fatti acc st →
  let r := _costruisci_per_data casuale iter_set self giorno acc st in
  inv_composto iter_set self (fatti ++ [giorno]) (acc ++ [(giorno, r.1)]) r.2.
Proof.
  intros Hnd Hord Hfresh Hk HI r.
  pose proof (costruisci_per_data_pieno casuale iter_set self giorno acc st) as H.
  unfold spec in H. fold r in H.
  destruct H as (reale & riprovato & sa & sv & R & C & _ & _ & (nuove & L) & Hr).
  pose proof (ordine_elaborazione_sorted (date_attive self)) as Hs.
  rewrite Hord in Hs. apply StronglySorted_app in Hs as (Hprima & _ & Hdopo).
  apply StronglySorted_inv in Hdopo as [_ Hdopo]. rewrite Forall_forall in Hdopo.
  assert (Hfatti : ∀ s, s ∈ date_attive self → s ≠ giorno → ¬ precede giorno s →
            s ∈ fatti).
  { intros s Hin Hne Hnp.
    rewrite <- (ordine_elaborazione_perm _ Hnd), Hord in Hin.
    apply elem_of_app in Hin as [? | [? | Hin]%elem_of_cons]; [done | done |].
    destruct Hnp. by apply Hdopo. }
  intros d a [Hin | [= -> ->]%list_elem_of_singleton]%elem_of_app.
  - destruct (HI d a Hin) as (reale' & rip' & sab' & R' & C' & Hr' & Hsab').
    exists reale', rip', sab'.
    assert (Hd : d ∈ fatti).
    { rewrite <- Hk, map_fmap. apply list_elem_of_fmap. by exists (d, a). }
    assert (d ≠ giorno) by (by intros ->).
    split; [by rewrite R, lookup_insert_ne |]. split; [done |]. split.
    + intros E. destruct (Hr' E) as [Hm Hv]. split; [done |].
      rewrite L. apply elem_of_app. by left.
    + intros Hdow s Hs Hks Hws. rewrite R.
      rewrite lookup_insert_ne; [by apply Hsab' |].
      intros <-. eapply precede_sabato_venerdi; [exact Hks | done | done |].
      apply Hprima; [done | by left].
  - exists reale, riprovato, (_trova_autista_settimanale (autisti_reali st) acc giorno 5).
    split; [by rewrite R, lookup_insert_eq |]. split; [done |]. split.
    + intros ->. by destruct Hr as (_ & ? & ?).
    + intros Hdow s Hs Hks Hws.
      assert (Hne : s ≠ giorno) by (intros ->; lia).
      assert (Hsf : s ∈ fatti).
      { apply Hfatti; [done | done |]. by apply precede_sabato_venerdi. }
      rewrite R, lookup_insert_ne by done.
      assert (Hsome : ∃ v, autisti_reali st !! s = Some v).
      { rewrite <- Hk, map_fmap in Hsf.
        apply list_elem_of_fmap in Hsf as ([d' a'] & -> & Hin).
        destruct (HI d' a' Hin) as (v & _ & _ & Hv & _). by exists v. }
      destruct Hsome as [v Hv]. rewrite Hv. f_equal. symmetry.
      eapply _trova_autista_settimanale_fatto; [by rewrite Hk | done | done | done].
Qed.

(** Every Assignment a run returns was composed as [composto] says. *)
Lemma corsa_composta :
  NoDup (date_attive self) →
  let r := costruisci casuale iter_set self (Stato_init self) in
  ∀ a, a ∈ r.1 →
    ∃ (reale : option string) (riprovato : bool) (sabato : option string),
      autisti_reali r.2 !! a_giorno a = Some reale
      ∧ composto iter_set self
          (if riprovato then false else enable_varchi_rule self)
          (a_giorno a) sabato (a, reale)
      ∧ (riprovato = true →
         mode (rule_varchi self) = SOFT ∧ voce_retry (a_giorno a) ∈ log r.2)
      ∧ sabato_della_settimana self (autisti_reali r.2) (a_giorno a) sabato.
Proof.
  intros Hnd r a Ha.
  destruct (corsa_inv casuale iter_set self (inv_composto iter_set self))
    as (acc & Hk & _ & Hp & HI);
    [| intros fatti giorno resto acc st; by apply inv_composto_passo | done |].
  { by intros d a' ?%not_elem_of_nil. }
  fold r in Hp, HI. rewrite Hp, map_fmap in Ha.
  apply list_elem_of_fmap in Ha as ([d a'] & -> & Hin). cbn [snd].
  destruct (HI d a' Hin) as (reale & rip & sab & R & C & Hr).
  assert (a_giorno a' = d) as -> by (by destruct C).
  by exists reale, rip, sab.
Qed.

End CorsaComposta.

(** ** What [Scheduler.__init__] derives from the configuration *)

Lemma vigili_init anno config months x :
  x ∈ vigili (Scheduler_init anno config months) ↔ x ∈ cfg_vigili config.
Proof. unfold Scheduler_init. cbn [vigili]. by rewrite sorted_py_perm. Qed.

Lemma autisti_init anno config months x :
  x ∈ autisti (Scheduler_init anno config months) ↔ x ∈ cfg_autisti config.
Proof. unfold Scheduler_init. cbn [autisti]. by rewrite sorted_py_perm. Qed.

Lemma NoDup_vigili_init anno config months :
  NoDup (cfg_vigili config) → NoDup (vigili (Scheduler_init anno config months)).
Proof. unfold Scheduler_init. cbn [vigili]. by rewrite sorted_py_perm. Qed.

Lemma autista_varchi_init anno config months v :
  autista_varchi (Scheduler_init anno config months) = Some v →
  cfg_autista_varchi config = Some v
  ∧ enable_varchi_rule (Scheduler_init anno config months) = true.
Proof.
  unfold Scheduler_init. cbv zeta. cbn [autista_varchi enable_varchi_rule].
  match goal with
  | |- (if ?b then _ else _) = _ → _ => destruct b
  end; [by intros -> | done].
Qed.

Lemma varchi_is_senior_init anno config months :
  varchi_is_senior (Scheduler_init anno config months) = true →
  ∃ v, autista_varchi (Scheduler_init anno config months) = Some v
       ∧ v ∈ vigili (Scheduler_init anno config months).
Proof.
  unfold Scheduler_init. cbv zeta. cbn [varchi_is_senior autista_varchi vigili].
  match goal with
  | |- ?b && _ = true → _ => destruct b
  end; [| done]. cbn [andb].
  destruct (cfg_autista_varchi config) as [v |]; [| done].
  intros [H _]%andb_true_iff. exists v. split; [done |].
  by apply bool_decide_eq_true in H.
Qed.

Lemma forbidden_hard_init anno config months rule :
  rule ∈ cfg_coppie_vietate config → cr_is_hard rule = true →
  {[primo rule; secondo rule]} ∈ forbidden_hard (Scheduler_init anno config months).
Proof.
  intros Hin Hh. unfold Scheduler_init. cbn [forbidden_hard].
  rewrite elem_of_list_to_set, map_fmap, list_elem_of_fmap. exists rule.
  split; [| by apply list_elem_of_filter].
  unfold frozenset_pair, as_sorted_tuple. destruct (String.leb _ _); cbn [fst snd].
  - done.
  - by rewrite (comm_L (∪) {[secondo rule]}).
Qed.

Lemma _in_ferie_init anno config months p d :
  _in_ferie (Scheduler_init anno config months) p d = false ↔
  ∀ vac, vac ∈ default [] (cfg_ferie config !! p) →
         ¬ (start vac ≤ d ≤ end_ vac).
Proof.
  unfold _in_ferie, Scheduler_init. cbn [ferie].
  generalize (default [] (cfg_ferie config !! p)). intros l.
  induction l as [| vac l IH]; cbn [existsb].
  - split; [by intros _ ? ?%not_elem_of_nil | done].
  - rewrite orb_false_iff, IH, andb_false_iff, Z.leb_gt, Z.leb_gt. split.
    + intros [Hv Hl] vac' [-> | Hin]%elem_of_cons; [lia | by apply Hl].
    + intros H. split.
      * specialize (H vac (list_elem_of_here _ _)). lia.
      * intros vac' Hin. apply H. by right.
Qed.

Lemma elem_of_map_Some (l : list string) p : Some p ∈ map Some l ↔ p ∈ l.
Proof.
  rewrite map_fmap, list_elem_of_fmap. split.
  - by intros (x & [= ->] & ?).
  - intros ?. by exists p.
Qed.

Lemma corsa_composta_init casuale iter_set anno config months :
  let self := Scheduler_init anno config months in
  let r := costruisci casuale iter_set self (Stato_init self) in
  ∀ a, a ∈ r.1 →
    ∃ (reale : option string) (riprovato : bool) (sabato : option string),
      autisti_reali r.2 !! a_giorno a = Some reale
      ∧ composto iter_set self
          (if riprovato then false else enable_varchi_rule self)
          (a_giorno a) sabato (a, reale)
      ∧ (riprovato = true →
         mode (rule_varchi self) = SOFT ∧ voce_retry (a_giorno a) ∈ log r.2)
      ∧ sabato_della_settimana self (autisti_reali r.2) (a_giorno a) sabato.
Proof.
  intros self r. apply corsa_composta.
  apply StronglySorted_lt_NoDup, date_attive_init_sorted.
Qed.

(** X10: a run only assigns people of the roster. Every crew member of every
    Assignment is one of the configured crew members, the driver the load is
    attributed to is one of the configured drivers, and the driver shown is
    a configured driver or the configured rotation driver. *)
Theorem corsa_nomi_del_roster casuale iter_set anno config months :
  let self := Scheduler_init anno config months in
  let r := costruisci casuale iter_set self (Stato_init self) in
  Forall (λ a,
    (∀ p, Some p ∈ a_vigili a → p ∈ cfg_vigili config)
    ∧ (∀ s, autisti_reali r.2 !! a_giorno a = Some (Some s) → s ∈ cfg_autisti config)
    ∧ (∀ s, a_autista a = Some s →
         s ∈ cfg_autisti config ∨ cfg_autista_varchi config = Some s)) r.1.
Proof.
  intros self r. apply Forall_forall. intros a Ha.
  destruct (corsa_composta_init casuale iter_set anno config months a Ha)
    as (reale & rip & sab & R & (_ & Hd & Hdisp & Hv) & _).
  fold self r in R. cbn [fst snd] in *.
  assert (Hreale : ∀ s, reale = Some s → s ∈ cfg_autisti config).
  { intros s Hs. destruct (Hd s Hs) as [H _]. by apply autisti_init in H. }
  split; [| split].
  - intros p Hp. destruct Hv as [Hv | (team & bonus & Hv & Hteam & _ & _ & Hb)].
    { rewrite Hv in Hp. repeat (apply elem_of_cons in Hp as [[=] | Hp]).
      by apply not_elem_of_nil in Hp. }
    rewrite Hv in Hp. apply elem_of_app in Hp as [Hp | Hp].
    + apply elem_of_map_Some in Hp. destruct (Hteam p Hp) as [H _].
      by apply vigili_init in H.
    + destruct Hb as [[_ ->] | (_ & _ & Hsen & _ & _ & [-> | (v & Hv' & _ & ->)])].
      * by apply not_elem_of_nil in Hp.
      * by apply list_elem_of_singleton in Hp.
      * apply list_elem_of_singleton in Hp as [= ->].
        destruct (varchi_is_senior_init _ _ _ Hsen) as (v' & Hv'' & Hin).
        assert (E : Some v' = Some v) by (by rewrite <- Hv', <- Hv'').
        injection E as ->.
        by apply vigili_init in Hin.
  - intros s Hs. rewrite R in Hs. injection Hs as ->. by apply Hreale.
  - intros s Hs. destruct Hdisp as [Hdisp | (_ & _ & _ & _ & Hdisp)].
    + left. apply Hreale. by rewrite <- Hdisp.
    + right. rewrite Hdisp in Hs. by apply autista_varchi_init in Hs as [? _].
Qed.

(** X11: nobody serves while on vacation. In every Assignment of a run, no
    crew member, the Friday bonus member included, and no driver the load is
    attributed to has a vacation that contains the date, bounds included. *)
Theorem corsa_nessuno_in_ferie casuale iter_set anno config months :
  let self := Scheduler_init anno config months in
  let r := costruisci casuale iter_set self (Stato_init self) in
  Forall (λ a,
    ∀ p, Some p ∈ a_vigili a ∨ autisti_reali r.2 !! a_giorno a = Some (Some p) →
      ∀ vac, vac ∈ default [] (cfg_ferie config !! p) →
        ¬ (start vac ≤ a_giorno a ≤ end_ vac)) r.1.
Proof.
  intros self r. apply Forall_forall. intros a Ha.
  destruct (corsa_composta_init casuale iter_set anno config months a Ha)
    as (reale & rip & sab & R & (_ & Hd & _ & Hv) & _).
  fold self r in R. cbn [fst snd] in *.
  intros p Hp. apply _in_ferie_init with (anno := anno) (months := months).
  fold self. destruct Hp as [Hp | Hp].
  - destruct Hv as [Hv | (team & bonus & Hv & Hteam & _ & _ & Hb)].
    { rewrite Hv in Hp. repeat (apply elem_of_cons in Hp as [[=] | Hp]).
      by apply not_elem_of_nil in Hp. }
    rewrite Hv in Hp. apply elem_of_app in Hp as [Hp | Hp].
    + apply elem_of_map_Some in Hp. by destruct (Hteam p Hp) as (_ & ? & _).
    + destruct Hb as [[_ ->] | (_ & _ & _ & _ & _ & [-> | (v & _ & Hf & ->)])].
      * by apply not_elem_of_nil in Hp.
      * by apply list_elem_of_singleton in Hp.
      * by apply list_elem_of_singleton in Hp as [= ->].
  - rewrite R in Hp. injection Hp as ->. by destruct (Hd p eq_refl) as (_ & ? & _).
Qed.

(** X12: two crew members that form a hard forbidden pair are never in the
    same crew, with one exception: on a Friday, when one of the two is the
    rotation driver, who is appended to the crew as its bonus member without
    that check. *)
Theorem corsa_coppie_vietate casuale iter_set anno config months :
  let self := Scheduler_init anno config months in
  let r := costruisci casuale iter_set self (Stato_init self) in
  Forall (λ a,
    ∀ rule, rule ∈ cfg_coppie_vietate config → cr_is_hard rule = true →
      primo rule ≠ secondo rule →
      Some (primo rule) ∈ a_vigili a → Some (secondo rule) ∈ a_vigili a →
      weekday (a_giorno a) = 4
      ∧ (cfg_autista_varchi config = Some (primo rule)
         ∨ cfg_autista_varchi config = Some (secondo rule))) r.1.
Proof.
  intros self r. apply Forall_forall. intros a Ha.
  destruct (corsa_composta_init casuale iter_set anno config months a Ha)
    as (reale & rip & sab & R & (_ & _ & _ & Hv) & _).
  cbn [fst snd] in *.
  intros rule Hrule Hhard Hne H1 H2.
  pose proof (forbidden_hard_init anno config months rule Hrule Hhard) as Hf.
  fold self in Hf.
  destruct Hv as [Hv | (team & bonus & Hv & _ & Hcoppie & _ & Hb)].
  { rewrite Hv in H1. repeat (apply elem_of_cons in H1 as [[=] | H1]).
    by apply not_elem_of_nil in H1. }
  rewrite Hv in H1, H2.
  assert (Hbonus : ∀ p, Some p ∈ bonus →
            weekday (a_giorno a) = 4 ∧ cfg_autista_varchi config = Some p).
  { intros p Hp.
    destruct Hb as [[_ ->] | (_ & _ & _ & Hdow & _ & [-> | (v & Hv' & _ & ->)])].
    - by apply not_elem_of_nil in Hp.
    - by apply list_elem_of_singleton in Hp.
    - apply list_elem_of_singleton in Hp as [= ->]. split; [done |].
      by apply autista_varchi_init in Hv' as [? _]. }
  apply elem_of_app in H1 as [H1 | H1]; [| destruct (Hbonus _ H1); auto].
  apply elem_of_app in H2 as [H2 | H2]; [| destruct (Hbonus _ H2); auto].
  apply elem_of_map_Some in H1, H2.
  by destruct (Hcoppie _ _ H1 H2 Hne).
Qed.

(** X13: the driver shown in an Assignment is the driver the load is
    attributed to, recorded under the date, with one exception, on a Saturday
    while the rotation driver is a senior crew member: the rotation driver is
    shown when the second rotation driver drives, and also when no driver was
    found and no second rotation driver is configured. In this last case the
    Assignment shows a driver although the load of driving is attributed to
    nobody. *)
Theorem corsa_autista_visualizzato casuale iter_set anno config months :
  let self := Scheduler_init anno config months in
  let r := costruisci casuale iter_set self (Stato_init self) in
  Forall (λ a,
    ∃ reale, autisti_reali r.2 !! a_giorno a = Some reale
      ∧ (a_autista a = reale
         ∨ (weekday (a_giorno a) = 5
            ∧ varchi_is_senior self = true
            ∧ truthy (cfg_autista_varchi config) = true
            ∧ a_autista a = cfg_autista_varchi config
            ∧ ((∃ p, reale = Some p ∧ cfg_autista_pogliani config = Some p)
               ∨ (reale = None ∧ cfg_autista_pogliani config = None))))) r.1.
Proof.
  intros self r. apply Forall_forall. intros a Ha.
  destruct (corsa_composta_init casuale iter_set anno config months a Ha)
    as (reale & rip & sab & R & (_ & _ & Hdisp & _) & _).
  cbn [fst snd] in *. exists reale. split; [done |].
  destruct Hdisp as [? | (Hsp & Hsen & Hdow & Hr & Hd)]; [by left |]. right.
  apply andb_true_iff in Hsp as [Happ Htr].
  assert (Hen : enable_varchi_rule self = true).
  { destruct rip; [done | exact Happ]. }
  assert (Hv : autista_varchi self = cfg_autista_varchi config
               ∧ autista_pogliani self = cfg_autista_pogliani config).
  { revert Hen. unfold self, Scheduler_init. cbv zeta.
    cbn [autista_varchi autista_pogliani enable_varchi_rule]. by intros ->. }
  destruct Hv as [Hv Hp]. rewrite <- Hv, <- Hp.
  split; [done |]. split; [done |]. split; [done |]. split; [done |].
  change (reale = autista_pogliani self) in Hr. rewrite Hr.
  destruct (autista_pogliani self) as [p |]; [left; by exists p | by right].
Qed.

(** X14: the rotation driver serves on Fridays only. An Assignment of another
    weekday has the rotation driver neither as the driver the load is
    attributed to nor in its crew, unless the rotation rule is soft and the
    date was composed again without the rule, which the log reports. *)
Theorem corsa_varchi_solo_venerdi casuale iter_set anno config months :
  let self := Scheduler_init anno config months in
  let r := costruisci casuale iter_set self (Stato_init self) in
  Forall (λ a,
    ∀ v, autista_varchi self = Some v → v ≠ ""%string →
      autisti_reali r.2 !! a_giorno a = Some (Some v) ∨ Some v ∈ a_vigili a →
      weekday (a_giorno a) = 4
      ∨ (mode (rule_varchi self) = SOFT ∧ voce_retry (a_giorno a) ∈ log r.2)) r.1.
Proof.
  intros self r. apply Forall_forall. intros a Ha.
  destruct (corsa_composta_init casuale iter_set anno config months a Ha)
    as (reale & rip & sab & R & (_ & Hd & _ & Hv) & Hr & _).
  fold self r in R, Hr. cbn [fst snd] in *.
  intros v Hvarchi Hne Hserve.
  destruct rip; [right; by apply Hr |]. left.
  assert (Hen : enable_varchi_rule self = true).
  { by apply autista_varchi_init in Hvarchi as [_ ?]. }
  assert (Hsp : enable_varchi_rule self && truthy (autista_varchi self) = true).
  { rewrite Hen, Hvarchi. cbn. by destruct (String.eqb_spec v ""). }
  destruct Hserve as [Hs | Hs].
  - rewrite R in Hs. injection Hs as ->.
    destruct (Hd v eq_refl) as (_ & _ & H). by destruct (H Hsp Hvarchi).
  - destruct Hv as [Hv | (team & bonus & Hv & Hteam & _ & _ & Hb)].
    { rewrite Hv in Hs. repeat (apply elem_of_cons in Hs as [[=] | Hs]).
      by apply not_elem_of_nil in Hs. }
    rewrite Hv in Hs. apply elem_of_app in Hs as [Hs | Hs].
    + apply elem_of_map_Some in Hs. destruct (Hteam v Hs) as (_ & _ & _ & H & _).
      by destruct (H Hsp).
    + destruct Hb as [[_ ->] | (_ & _ & _ & Hdow & _)]; [| done].
      by apply not_elem_of_nil in Hs.
Qed.

(** X15: with the summer rule in mode hard, the crew member excluded in
    summer is in no crew of a summer month, with one exception: on a Friday,
    when the excluded member is also the rotation driver, who is appended to
    the crew as its bonus member without that check. *)
Theorem corsa_esclusione_estiva casuale iter_set anno config months :
  let self := Scheduler_init anno config months in
  let r := costruisci casuale iter_set self (Stato_init self) in
  Forall (λ a,
    ∀ x, mode (rule_summer self) = HARD →
      cfg_vigile_escluso_estate config = Some x → x ≠ ""%string →
      date_month (a_giorno a) ∈ SUMMER_EXCLUDED_MONTHS →
      Some x ∈ a_vigili a →
      weekday (a_giorno a) = 4 ∧ cfg_autista_varchi config = Some x) r.1.
Proof.
  intros self r. apply Forall_forall. intros a Ha.
  destruct (corsa_composta_init casuale iter_set anno config months a Ha)
    as (reale & rip & sab & R & (_ & _ & _ & Hv) & _).
  cbn [fst snd] in *.
  intros x Hhard Hx Hne Hmese Hin.
  assert (Hesc : vigile_escluso_estate self = Some x).
  { revert Hhard. unfold self, Scheduler_init. cbv zeta.
    cbn [vigile_escluso_estate rule_summer]. intros ->. by rewrite Hx. }
  destruct Hv as [Hv | (team & bonus & Hv & Hteam & _ & _ & Hb)].
  { rewrite Hv in Hin. repeat (apply elem_of_cons in Hin as [[=] | Hin]).
    by apply not_elem_of_nil in Hin. }
  rewrite Hv in Hin. apply elem_of_app in Hin as [Hin | Hin].
  - apply elem_of_map_Some in Hin.
    destruct (Hteam x Hin) as (_ & _ & _ & _ & Hs). specialize (Hs Hhard).
    exfalso. revert Hs. clear -Hesc Hhard Hne Hmese. subst self.
    unfold summer_block. rewrite Hesc, Hhard.
    rewrite !bool_decide_eq_true_2 by done.
    rewrite bool_decide_eq_false_2 by done.
    cbn. by destruct (String.eqb_spec x "").
  - destruct Hb as [[_ ->] | (_ & _ & _ & Hdow & _ & [-> | (v & Hv' & _ & ->)])].
    + by apply not_elem_of_nil in Hin.
    + by apply list_elem_of_singleton in Hin.
    + apply list_elem_of_singleton in Hin as [= ->]. split; [done |].
      by apply autista_varchi_init in Hv' as [? _].
Qed.

Lemma NoDup_ordine_alfabetico X : NoDup (ordine_alfabetico X).
Proof. unfold ordine_alfabetico. rewrite sorted_py_perm. apply NoDup_elements. Qed.

Lemma omap_id_app (l1 l2 : list (option string)) :
  omap id (l1 ++ l2) = omap id l1 ++ omap id l2.
Proof. apply omap_app. Qed.

(** X16: when the configured crew members are pairwise distinct (and a set of
    names is iterated without repetitions), no name occurs twice in the crew
    of an Assignment, and the driver the load is attributed to is not in the
    crew, with one exception: on a Friday the rotation driver may drive and
    also be the bonus member of the crew. A driver whose name is the empty
    string is not kept out of the crew. *)
Theorem corsa_squadra_senza_ripetizioni casuale iter_set anno config months :
  let self := Scheduler_init anno config months in
  let r := costruisci casuale iter_set self (Stato_init self) in
  NoDup (cfg_vigili config) →
  (∀ X, NoDup (iter_set X)) →
  Forall (λ a,
    NoDup (omap id (a_vigili a))
    ∧ ∀ s, s ≠ ""%string →
        autisti_reali r.2 !! a_giorno a = Some (Some s) →
        Some s ∈ a_vigili a →
        weekday (a_giorno a) = 4 ∧ cfg_autista_varchi config = Some s) r.1.
Proof.
  intros self r Hnd Hiter. apply Forall_forall. intros a Ha.
  destruct (corsa_composta_init casuale iter_set anno config months a Ha)
    as (reale & rip & sab & R & (_ & _ & _ & Hv) & _).
  fold self r in R. cbn [fst snd] in *.
  destruct Hv as [Hv | (team & bonus & Hv & Hteam & _ & Hnodup & Hb)].
  { rewrite Hv. split; [constructor |]. intros s _ _ Hs.
    repeat (apply elem_of_cons in Hs as [[=] | Hs]). by apply not_elem_of_nil in Hs. }
  assert (Hnt : NoDup team).
  { apply Hnodup; [by apply NoDup_vigili_init | apply Hiter]. }
  rewrite Hv, omap_id_app, omap_id_Some. split.
  - destruct Hb as [[_ ->] | (_ & Hsp & _ & _ & _ & [-> | (v & Hv' & _ & ->)])].
    + by rewrite app_nil_r.
    + by rewrite app_nil_r.
    + change (omap id [Some v]) with [v]. apply NoDup_app. split; [done |].
      split; [| apply NoDup_singleton].
      intros x Hx ->%list_elem_of_singleton.
      destruct (Hteam v Hx) as (_ & _ & _ & H & _). by destruct (H Hsp).
  - intros s Hne Hs Hin. rewrite R in Hs. injection Hs as ->.
    apply elem_of_app in Hin as [Hin | Hin].
    + apply elem_of_map_Some in Hin. destruct (Hteam s Hin) as (_ & _ & H & _).
      destruct H; [| done]. cbn. by destruct (String.eqb_spec s "").
    + destruct Hb as [[_ ->] | (_ & _ & _ & Hdow & _ & [-> | (v & Hv' & _ & ->)])].
      * by apply not_elem_of_nil in Hin.
      * by apply list_elem_of_singleton in Hin.
      * apply list_elem_of_singleton in Hin as [= ->]. split; [done |].
        by apply autista_varchi_init in Hv' as [? _].
Qed.

(** The statement of X16 for the roster with two hard-preferred crew members,
    January 2024, names iterated in alphabetical order. *)
Lemma corsa_squadra_senza_ripetizioni_witness :
  let self := Scheduler_init 2024 config_preferiti gennaio in
  let r := costruisci (λ _, 0) ordine_alfabetico self (Stato_init self) in
  Forall (λ a,
    NoDup (omap id (a_vigili a))
    ∧ ∀ s, s ≠ ""%string →
        autisti_reali r.2 !! a_giorno a = Some (Some s) →
        Some s ∈ a_vigili a →
        weekday (a_giorno a) = 4 ∧ cfg_autista_varchi config_preferiti = Some s) r.1.
Proof.
  apply (corsa_squadra_senza_ripetizioni (λ _, 0) ordine_alfabetico 2024
           config_preferiti gennaio).
  - calcola.
  - apply NoDup_ordine_alfabetico.
Defined.

(** ** Agreement of the totals of a tracker *)

Lemma somma_ext {A} (f g : A → Z) l :
  (∀ x, x ∈ l → f x = g x) → somma f l = somma g l.
Proof.
  induction l as [| x l IH]; intros H; cbn [somma foldr]; [done |].
  unfold somma in IH. rewrite IH by (intros; apply H; by right).
  rewrite (H x) by (by left). done.
Qed.

Lemma somma_cons {A} (f : A → Z) x l : somma f (x :: l) = f x + somma f l.
Proof. done. Qed.

(** Adding one at a single place of a list without repetitions adds one to
    the sum. *)
Lemma somma_piu_uno (f : Z → Z) (k : Z) (P : Prop) `{Decision P} l :
  NoDup l →
  somma (λ x, f x + (if bool_decide (P ∧ x = k) then 1 else 0)) l
  = somma f l + (if bool_decide (P ∧ k ∈ l) then 1 else 0).
Proof.
  induction 1 as [| x l Hx Hnd IH].
  - cbn. rewrite bool_decide_eq_false_2; [done |]. intros [_ ?%not_elem_of_nil]. done.
  - rewrite !somma_cons, IH.
    destruct (decide P) as [HP | HP].
    + destruct (decide (x = k)) as [-> | Hne].
      * rewrite (bool_decide_eq_true_2 (P ∧ k = k)) by done.
        rewrite (bool_decide_eq_false_2 (P ∧ k ∈ l)) by (intros [_ ?]; done).
        rewrite (bool_decide_eq_true_2 (P ∧ k ∈ k :: l)) by (split; [done | by left]).
        lia.
      * rewrite (bool_decide_eq_false_2 (P ∧ x = k)) by (intros [_ ?]; done).
        destruct (decide (k ∈ l)) as [Hk | Hk].
        -- rewrite (bool_decide_eq_true_2 (P ∧ k ∈ l)) by done.
           rewrite (bool_decide_eq_true_2 (P ∧ k ∈ x :: l)) by (split; [done | by right]).
           lia.
        -- rewrite (bool_decide_eq_false_2 (P ∧ k ∈ l)) by (intros [_ ?]; done).
           rewrite (bool_decide_eq_false_2 (P ∧ k ∈ x :: l)); [lia |].
           intros [_ [? | ?]%elem_of_cons]; done.
    + rewrite !bool_decide_eq_false_2 by (intros [? _]; done). lia.
Qed.

Lemma zeri_lookup_total l m : m ∈ l → zeri l !!! m = 0.
Proof.
  unfold zeri. induction l as [| k l IH]; [by intros ?%not_elem_of_nil |].
  cbn [map list_to_map foldr uncurry fst snd]. intros Hm.
  destruct (decide (k = m)) as [-> | Hne].
  - by rewrite lookup_total_insert_eq.
  - rewrite lookup_total_insert_ne by done. apply IH.
    by apply elem_of_cons in Hm as [-> | ?].
Qed.

Lemma somma_zero {A} (f : A → Z) l : (∀ x, x ∈ l → f x = 0) → somma f l = 0.
Proof.
  induction l as [| x l IH]; intros H; [done |].
  rewrite somma_cons, H, IH; [done | | by left]. intros. apply H. by right.
Qed.

Lemma coerente_vuoto : coerente Conteggi_vuoto.
Proof.
  intros p.
  assert (Ha : tot_annuale Conteggi_vuoto p = 0) by (by rewrite tot_annuale_eq).
  assert (Hm : ∀ m, m ∈ seqZ 1 12 → tot_mese Conteggi_vuoto p m = 0).
  { intros m Hm. rewrite tot_mese_eq. cbn [per_mese Conteggi_vuoto].
    rewrite (lookup_empty (M:=gmap string)). by apply zeri_lookup_total. }
  assert (Hg : ∀ d, d ∈ seqZ 0 7 → tot_giorno_anno Conteggi_vuoto p d = 0).
  { intros d Hd. rewrite tot_giorno_anno_eq. cbn [per_giorno_anno Conteggi_vuoto].
    rewrite (lookup_empty (M:=gmap string)). by apply zeri_lookup_total. }
  assert (Hmg : ∀ m d, m ∈ seqZ 1 12 → d ∈ seqZ 0 7 →
            tot_mese_giorno Conteggi_vuoto p m d = 0).
  { intros m d Hm' Hd. rewrite tot_mese_giorno_eq. cbn [per_mese_giorno Conteggi_vuoto].
    rewrite (lookup_empty (M:=gmap string)). cbn [default from_option id].
    assert (E : (list_to_map (map (λ mese, (mese, zeri (seqZ 0 7))) (seqZ 1 12))
                  : gmap Z (gmap Z Z)) !!! m = zeri (seqZ 0 7)).
    { revert Hm'. generalize (seqZ 1 12). intros l.
      induction l as [| k l IH]; [by intros ?%not_elem_of_nil |].
      cbn [map list_to_map foldr uncurry fst snd]. intros Hk.
      destruct (decide (k = m)) as [-> | Hne].
      - by rewrite lookup_total_insert_eq.
      - rewrite lookup_total_insert_ne by done. apply IH.
        by apply elem_of_cons in Hk as [-> | ?]. }
    rewrite E. by apply zeri_lookup_total. }
  rewrite Ha. split; [by rewrite somma_zero |]. split; [by rewrite somma_zero |].
  intros m Hm'. rewrite Hm by (rewrite elem_of_seqZ; lia).
  rewrite somma_zero; [done |]. intros d Hd. apply Hmg; [| done].
  rewrite elem_of_seqZ. lia.
Qed.

(** Initialising a person changes no reading. *)
Lemma assicura_persona_letture x c p :
  tot_annuale (assicura_persona x c) p = tot_annuale c p
  ∧ (∀ m, tot_mese (assicura_persona x c) p m = tot_mese c p m)
  ∧ (∀ m d, tot_mese_giorno (assicura_persona x c) p m d = tot_mese_giorno c p m d)
  ∧ (∀ d, tot_giorno_anno (assicura_persona x c) p d = tot_giorno_anno c p d).
Proof.
  assert (H : ∀ {V} (v : V) (d : gmap string V),
            default v (se_assente x v d !! p) = default v (d !! p)).
  { intros V v d. unfold se_assente. destruct (d !! x) eqn:E; [done |].
    destruct (decide (x = p)) as [-> | Hne].
    - by rewrite lookup_insert_eq, E.
    - by rewrite lookup_insert_ne. }
  split; [| split; [| split]]; intros;
    rewrite ?tot_annuale_eq, ?tot_mese_eq, ?tot_mese_giorno_eq, ?tot_giorno_anno_eq;
    unfold assicura_persona; cbn [annuale per_mese per_mese_giorno per_giorno_anno];
    by rewrite H.
Qed.

Lemma coerente_assicura_persona x c : coerente c → coerente (assicura_persona x c).
Proof.
  intros Hc p. destruct (assicura_persona_letture x c p) as (Ea & Em & Emg & Eg).
  destruct (Hc p) as (H1 & H2 & H3). rewrite Ea. split; [| split].
  - rewrite H1. apply somma_ext. intros. by rewrite Em.
  - rewrite H2. apply somma_ext. intros. by rewrite Eg.
  - intros m Hm. rewrite Em, H3 by done. apply somma_ext. intros. by rewrite Emg.
Qed.

Lemma coerente_aggiungi x g c : coerente c → coerente (aggiungi x g c).
Proof.
  intros Hc p. destruct (Hc p) as (H1 & H2 & H3).
  pose proof (date_month_bounds g) as Hm. pose proof (weekday_bounds g) as Hw.
  assert (Hmesi : date_month g ∈ seqZ 1 12) by (rewrite elem_of_seqZ; lia).
  assert (Hdow : weekday g ∈ seqZ 0 7) by (rewrite elem_of_seqZ; lia).
  rewrite tot_annuale_aggiungi. split; [| split].
  - rewrite (somma_ext _ (λ m, tot_mese c p m
                                + if bool_decide (p = x ∧ m = date_month g)
                                  then 1 else 0))
      by (intros; apply tot_mese_aggiungi).
    rewrite (somma_piu_uno _ _ (p = x)) by apply NoDup_seqZ.
    rewrite H1. do 2 case_bool_decide; try lia; tauto.
  - rewrite (somma_ext _ (λ d, tot_giorno_anno c p d
                                + if bool_decide (p = x ∧ d = weekday g)
                                  then 1 else 0))
      by (intros; apply tot_giorno_anno_aggiungi).
    rewrite (somma_piu_uno _ _ (p = x)) by apply NoDup_seqZ.
    rewrite H2. do 2 case_bool_decide; try lia; tauto.
  - intros m Hm'. rewrite tot_mese_aggiungi.
    rewrite (somma_ext _ (λ d, tot_mese_giorno c p m d
                                + if bool_decide ((p = x ∧ m = date_month g)
                                                  ∧ d = weekday g)
                                  then 1 else 0)).
    2: { intros d _. rewrite tot_mese_giorno_aggiungi.
         do 2 case_bool_decide; try lia; tauto. }
    rewrite (somma_piu_uno _ _ (p = x ∧ m = date_month g)) by apply NoDup_seqZ.
    rewrite H3 by done. do 2 case_bool_decide; try lia; tauto.
Qed.

Lemma coerente_registra g c l : coerente c → coerente (registra g c l).
Proof.
  unfold registra. revert c. induction l as [| x l IH]; intros c Hc; [done |].
  cbn [foldl]. by apply IH, coerente_aggiungi.
Qed.

Lemma coerente_init nomi :
  coerente (foldl (λ c nome, assicura_persona nome c) Conteggi_vuoto nomi).
Proof.
  assert (H : ∀ c, coerente c →
            coerente (foldl (λ c nome, assicura_persona nome c) c nomi)).
  { induction nomi as [| x l IH]; intros c Hc; [done |].
    cbn [foldl]. by apply IH, coerente_assicura_persona. }
  apply H, coerente_vuoto.
Qed.

(** ** The trackers at the end of a run *)

Lemma conta_cons {A} (f : A → bool) x l :
  conta f (x :: l) = (if f x then 1 else 0) + conta f l.
Proof.
  unfold conta. rewrite filter_cons.
  destruct (f x); [rewrite decide_True by done | rewrite decide_False by done];
    cbn [length]; lia.
Qed.

Lemma conta_app {A} (f : A → bool) l1 l2 : conta f (l1 ++ l2) = conta f l1 + conta f l2.
Proof. unfold conta. rewrite filter_app, length_app. lia. Qed.

Lemma conta_perm {A} (f : A → bool) l1 l2 : l1 ≡ₚ l2 → conta f l1 = conta f l2.
Proof. intros H. unfold conta. by rewrite H. Qed.

Lemma somma_app {A} (f : A → Z) l1 l2 : somma f (l1 ++ l2) = somma f l1 + somma f l2.
Proof.
  induction l1 as [| x l1 IH]; [done |]. cbn [app]. rewrite !somma_cons, IH. lia.
Qed.

Lemma somma_perm {A} (f : A → Z) l1 l2 : l1 ≡ₚ l2 → somma f l1 = somma f l2.
Proof.
  induction 1 as [| x l1 l2 _ IH | x y l | l1 l2 l3 _ IH1 _ IH2];
    rewrite ?somma_cons; lia.
Qed.

Lemma tot_annuale_registra g c l p :
  tot_annuale (registra g c l) p
  = tot_annuale c p + conta (λ x, bool_decide (x = p)) l.
Proof.
  unfold registra. revert c. induction l as [| x l IH]; intros c.
  - cbn. unfold conta. simpl. lia.
  - cbn [foldl]. rewrite IH, tot_annuale_aggiungi, conta_cons.
    rewrite (bool_decide_ext (p = x) (x = p)) by done. lia.
Qed.

Lemma tot_mese_registra g c l p m :
  tot_mese (registra g c l) p m
  = tot_mese c p m
    + (if bool_decide (m = date_month g) then conta (λ x, bool_decide (x = p)) l
       else 0).
Proof.
  unfold registra. revert c. induction l as [| x l IH]; intros c.
  - cbn. unfold conta. simpl. case_bool_decide; lia.
  - cbn [foldl]. rewrite IH, tot_mese_aggiungi, conta_cons.
    repeat case_bool_decide; try lia; try tauto; try congruence; naive_solver.
Qed.

Lemma conta_omap_id (l : list (option string)) p :
  conta (λ x, bool_decide (x = p)) (omap id l)
  = conta (λ v, bool_decide (v = Some p)) l.
Proof.
  induction l as [| [x |] l IH]; [done | |].
  - change (omap id (Some x :: l)) with (x :: omap id l).
    rewrite !conta_cons, IH.
    rewrite (bool_decide_ext (Some x = Some p) (x = p)); [done |].
    split; [by intros [=] | by intros ->].
  - change (omap id (None :: l)) with (omap id l).
    rewrite conta_cons, IH. by rewrite bool_decide_eq_false_2.
Qed.

Lemma conta_option_list (reale : option string) p :
  conta (λ x, bool_decide (x = p)) (option_list reale)
  = if bool_decide (reale = Some p) then 1 else 0.
Proof.
  destruct reale as [s |].
  - change (option_list (Some s)) with [s]. rewrite conta_cons.
    change (conta _ []) with 0.
    rewrite (bool_decide_ext (Some s = Some p) (s = p)).
    + case_bool_decide; lia.
    + split; [by intros [=] | by intros ->].
  - by rewrite bool_decide_eq_false_2.
Qed.

Lemma guide_insert reali giorno reale p l :
  Forall (λ a, a_giorno a ≠ giorno) l →
  guide (<[giorno := reale]> reali) p l = guide reali p l.
Proof.
  unfold guide. induction 1 as [| a l Ha Hl IH]; [done |].
  rewrite !conta_cons, IH, lookup_insert_ne by done. done.
Qed.

Lemma Forall_del_mese (P : Assegnazione → Prop) m l :
  Forall P l → Forall P (del_mese m l).
Proof.
  intros H. unfold del_mese. apply Forall_forall. intros a [_ Ha]%list_elem_of_filter.
  rewrite Forall_forall in H. by apply H.
Qed.

Lemma del_mese_snoc m l a :
  del_mese m (l ++ [a])
  = del_mese m l ++ (if bool_decide (date_month (a_giorno a) = m) then [a] else []).
Proof.
  unfold del_mese. rewrite filter_app, filter_cons, filter_nil.
  case_bool_decide; [by rewrite decide_True | by rewrite decide_False].
Qed.

Lemma letture_init nomi p :
  let c := foldl (λ c nome, assicura_persona nome c) Conteggi_vuoto nomi in
  tot_annuale c p = 0 ∧ ∀ m, 1 ≤ m ≤ 12 → tot_mese c p m = 0.
Proof.
  assert (H : ∀ c0,
            (tot_annuale c0 p = 0 ∧ ∀ m, 1 ≤ m ≤ 12 → tot_mese c0 p m = 0) →
            let c := foldl (λ c nome, assicura_persona nome c) c0 nomi in
            tot_annuale c p = 0 ∧ ∀ m, 1 ≤ m ≤ 12 → tot_mese c p m = 0).
  { induction nomi as [| x l IH]; intros c0 Hc0; [done |].
    cbn [foldl]. apply IH.
    destruct (assicura_persona_letture x c0 p) as (Ea & Em & _).
    rewrite Ea. split; [by destruct Hc0 |]. intros m Hm. rewrite Em.
    by apply Hc0. }
  apply H. split; [by rewrite tot_annuale_eq |].
  intros m Hm. rewrite tot_mese_eq. cbn [per_mese Conteggi_vuoto].
  rewrite (lookup_empty (M:=gmap string)). apply zeri_lookup_total.
  rewrite elem_of_seqZ. lia.
Qed.

Section Conteggi.

Variable casuale : nat → Z.
Variable iter_set : gset string → list string.
Variable self : Scheduler.

Lemma inv_coerente_passo fatti giorno resto acc st :
  ordine_elaborazione (date_attive self) = fatti ++ giorno :: resto →
  giorno ∉ fatti → map fst acc = fatti → inv_coerente fatti acc st →
  let r := _costruisci_per_data casuale iter_set self giorno acc st in
  inv_coerente (fatti ++ [giorno]) (acc ++ [(giorno, r.1)]) r.2.
Proof.
  intros _ _ _ [Ha Hv] r.
  pose proof (costruisci_per_data_pieno casuale iter_set self giorno acc st) as H.
  unfold spec in H. fold r in H.
  destruct H as (reale & riprovato & sa & sv & _ & _ & A & V & _).
  split; [rewrite A | rewrite V]; by apply coerente_registra.
Qed.

Hypothesis senza_retry :
  enable_varchi_rule self = false ∨ mode (rule_varchi self) ≠ SOFT.

Lemma inv_conteggi_passo fatti giorno resto acc st :
  ordine_elaborazione (date_attive self) = fatti ++ giorno :: resto →
  giorno ∉ fatti → map fst acc = fatti → inv_conteggi fatti acc st →
  let r := _costruisci_per_data casuale iter_set self giorno acc st in
  inv_conteggi (fatti ++ [giorno]) (acc ++ [(giorno, r.1)]) r.2.
Proof.
  intros _ Hfresh Hk [Hg HI] r.
  pose proof (costruisci_per_data_pieno casuale iter_set self giorno acc st) as H.
  unfold spec in H. fold r in H.
  destruct H as (reale & riprovato & sa & sv & R & C & A & V & _ & Hr).
  destruct riprovato.
  { destruct Hr as (He & Hm & _). destruct senza_retry; congruence. }
  destruct Hr as [-> ->]. cbn [app] in A, V.
  assert (Hgiorno : a_giorno r.1 = giorno) by (by destruct C).
  assert (Hvecchi : Forall (λ a', a_giorno a' ≠ giorno) (map snd acc)).
  { apply Forall_forall. intros a' Ha'. rewrite map_fmap in Ha'.
    apply list_elem_of_fmap in Ha' as ([d a''] & -> & Hin). cbn [snd].
    rewrite (Hg _ _ Hin). intros ->. apply Hfresh.
    rewrite <- Hk, map_fmap. apply list_elem_of_fmap. by exists (giorno, a''). }
  split.
  { intros d a' [Hin | [= -> ->]%list_elem_of_singleton]%elem_of_app; [by apply Hg | done]. }
  intros p. destruct (HI p) as (I1 & I2 & I3).
  rewrite map_app. cbn [map snd]. rewrite R, A, V.
  split; [| split].
  - unfold presenze. rewrite somma_app, somma_cons. change (somma _ []) with 0.
    rewrite tot_annuale_registra, conta_omap_id, I1. unfold presenze. lia.
  - unfold guide at 1. rewrite conta_app, conta_cons. change (conta _ []) with 0.
    fold (guide (<[giorno := reale]> (autisti_reali st)) p (map snd acc)).
    rewrite guide_insert by done.
    rewrite Hgiorno, lookup_insert_eq.
    rewrite tot_annuale_registra, conta_option_list, I2.
    rewrite (bool_decide_ext (Some reale = Some (Some p)) (reale = Some p)).
    + case_bool_decide; lia.
    + split; [by intros [=] | by intros ->].
  - intros m Hm. destruct (I3 m Hm) as [J1 J2]. rewrite del_mese_snoc, Hgiorno. split.
    + unfold presenze. rewrite somma_app.
      rewrite tot_mese_registra, conta_omap_id, J1. unfold presenze.
      rewrite (bool_decide_ext (m = date_month giorno) (date_month giorno = m)) by done.
      case_bool_decide; [rewrite somma_cons |]; change (somma _ []) with 0; lia.
    + unfold guide at 1. rewrite conta_app.
      fold (guide (<[giorno := reale]> (autisti_reali st)) p
              (del_mese m (map snd acc))).
      rewrite guide_insert by (by apply Forall_del_mese).
      rewrite tot_mese_registra, conta_option_list, J2.
      rewrite (bool_decide_ext (m = date_month giorno) (date_month giorno = m)) by done.
      case_bool_decide as Em; [| change (conta _ []) with 0; lia].
      rewrite conta_cons. change (conta _ []) with 0.
      rewrite Hgiorno, lookup_insert_eq.
      rewrite (bool_decide_ext (Some reale = Some (Some p)) (reale = Some p)).
      * case_bool_decide; lia.
      * split; [by intros [=] | by intros ->].
Qed.

End Conteggi.

Lemma presenze_perm p l1 l2 : l1 ≡ₚ l2 → presenze p l1 = presenze p l2.
Proof. apply somma_perm. Qed.

Lemma guide_perm reali p l1 l2 : l1 ≡ₚ l2 → guide reali p l1 = guide reali p l2.
Proof. apply conta_perm. Qed.

Lemma del_mese_perm m l1 l2 : l1 ≡ₚ l2 → del_mese m l1 ≡ₚ del_mese m l2.
Proof. intros H. unfold del_mese. by rewrite H. Qed.

(** X17: at the end of a run the tracker of the drivers and the tracker of
    the crew members are both coherent: for every person the annual total is
    the sum of the twelve monthly totals and also the sum of the seven
    weekday totals, and each monthly total is the sum of that month's seven
    totals by weekday. *)
Theorem corsa_conteggi_coerenti casuale iter_set anno config months :
  let self := Scheduler_init anno config months in
  let r := costruisci casuale iter_set self (Stato_init self) in
  coerente (cont_aut r.2) ∧ coerente (cont_vig r.2).
Proof.
  intros self r.
  destruct (corsa_inv casuale iter_set self inv_coerente)
    as (acc & _ & _ & _ & HI); [| apply inv_coerente_passo | | done].
  - split; apply coerente_init.
  - apply StronglySorted_lt_NoDup, date_attive_init_sorted.
Qed.

(** X18: when no date can be composed a second time (the rotation rule is
    disabled, or its mode is not soft), the trackers agree with the
    Assignments returned: the annual total of a person in the crew tracker is
    the number of crew slots that hold the person, the annual total in the
    driver tracker is the number of Assignments whose load as driver is
    attributed to the person, and likewise month by month. *)
Theorem corsa_conteggi_esatti casuale iter_set anno config months :
  let self := Scheduler_init anno config months in
  let r := costruisci casuale iter_set self (Stato_init self) in
  enable_varchi_rule self = false ∨ mode (rule_varchi self) ≠ SOFT →
  ∀ p,
    tot_annuale (cont_vig r.2) p = presenze p r.1
    ∧ tot_annuale (cont_aut r.2) p = guide (autisti_reali r.2) p r.1
    ∧ ∀ m, 1 ≤ m ≤ 12 →
        tot_mese (cont_vig r.2) p m = presenze p (del_mese m r.1)
        ∧ tot_mese (cont_aut r.2) p m = guide (autisti_reali r.2) p (del_mese m r.1).
Proof.
  intros self r Hno p.
  destruct (corsa_inv casuale iter_set self inv_conteggi)
    as (acc & _ & _ & Hp & _ & HI); [| by apply inv_conteggi_passo | |].
  - split; [by intros ?? ?%not_elem_of_nil |]. intros q. cbn [Stato_init cont_vig cont_aut].
    destruct (letture_init (vigili self) q) as [V1 V2].
    destruct (letture_init (autisti self) q) as [A1 A2].
    cbv zeta in *. rewrite V1, A1. split; [done |]. split; [done |].
    intros m Hm. rewrite V2, A2 by done. done.
  - apply StronglySorted_lt_NoDup, date_attive_init_sorted.
  - fold r in Hp, HI. destruct (HI p) as (I1 & I2 & I3).
    rewrite (presenze_perm _ _ _ Hp), (guide_perm _ _ _ _ Hp).
    split; [done |]. split; [done |]. intros m Hm. destruct (I3 m Hm) as [J1 J2].
    rewrite (presenze_perm _ _ _ (del_mese_perm m _ _ Hp)).
    rewrite (guide_perm _ _ _ _ (del_mese_perm m _ _ Hp)). done.
Qed.

(** The statement of X18 for Bianchi in the roster of four crew members and
    one driver with the default rules, January 2024. *)
Lemma corsa_conteggi_esatti_witness :
  let self := Scheduler_init 2024 (config_cap_default HARD) gennaio in
  let r := costruisci (λ _, 0) ordine_alfabetico self (Stato_init self) in
  let p := "Bianchi"%string in
  tot_annuale (cont_vig r.2) p = presenze p r.1
  ∧ tot_annuale (cont_aut r.2) p = guide (autisti_reali r.2) p r.1
  ∧ ∀ m, 1 ≤ m ≤ 12 →
      tot_mese (cont_vig r.2) p m = presenze p (del_mese m r.1)
      ∧ tot_mese (cont_aut r.2) p m = guide (autisti_reali r.2) p (del_mese m r.1).
Proof.
  refine (corsa_conteggi_esatti (λ _, 0) ordine_alfabetico 2024
            (config_cap_default HARD) gennaio _ "Bianchi"%string).
  right. vm_compute. discriminate.
Defined.

(** X19: the rotation between the two special drivers. When the Saturday of
    an ISO week is in the calendar and the load of driving it is attributed
    to the second rotation driver, the rotation driver neither drives nor
    joins the crew on the Friday of that week, unless the rotation rule is
    soft and the Friday was composed again without the rule, which the log
    reports. *)
Theorem corsa_venerdi_dopo_sabato casuale iter_set anno config months :
  let self := Scheduler_init anno config months in
  let r := costruisci casuale iter_set self (Stato_init self) in
  Forall (λ a,
    ∀ s v p,
      weekday (a_giorno a) = 4 →
      s ∈ date_attive self → _week_key s = _week_key (a_giorno a) →
      weekday s = 5 →
      autista_varchi self = Some v → v ≠ ""%string →
      autista_pogliani self = Some p → p ≠ ""%string →
      autisti_reali r.2 !! s = Some (Some p) →
      (autisti_reali r.2 !! a_giorno a ≠ Some (Some v) ∧ Some v ∉ a_vigili a)
      ∨ (mode (rule_varchi self) = SOFT ∧ voce_retry (a_giorno a) ∈ log r.2)) r.1.
Proof.
  intros self r. apply Forall_forall. intros a Ha.
  destruct (corsa_composta_init casuale iter_set anno config months a Ha)
    as (reale & rip & sab & R & (_ & Hd & _ & Hv) & Hr & Hsab).
  fold self r in R, Hr, Hsab. cbn [fst snd] in *.
  intros s v p Hdow Hs Hk Hws Hvarchi Hne Hpogliani Hnp Hsat.
  destruct rip; [right; by apply Hr |]. left.
  assert (Hen : enable_varchi_rule self = true).
  { by apply autista_varchi_init in Hvarchi as [_ ?]. }
  assert (Hsp : enable_varchi_rule self && truthy (autista_varchi self) = true).
  { rewrite Hen, Hvarchi. cbn. by destruct (String.eqb_spec v ""). }
  assert (Hsabato : sab = autista_pogliani self).
  { specialize (Hsab Hdow s Hs Hk Hws). rewrite Hsat in Hsab.
    injection Hsab as <-. done. }
  assert (Htp : truthy (autista_pogliani self) = true).
  { rewrite Hpogliani. cbn. by destruct (String.eqb_spec p ""). }
  split.
  - rewrite R. intros [= ->].
    destruct (Hd v eq_refl) as (_ & _ & H). destruct (H Hsp Hvarchi) as [_ Hno].
    by apply Hno.
  - intros Hin.
    destruct Hv as [Hv | (team & bonus & Hv & Hteam & _ & _ & Hb)].
    { rewrite Hv in Hin. repeat (apply elem_of_cons in Hin as [[=] | Hin]).
      by apply not_elem_of_nil in Hin. }
    rewrite Hv in Hin. apply elem_of_app in Hin as [Hin | Hin].
    + apply elem_of_map_Some in Hin. destruct (Hteam v Hin) as (_ & _ & _ & H & _).
      by destruct (H Hsp).
    + destruct Hb as [[_ ->] | (_ & _ & _ & _ & [Hp | Hp] & _)].
      * by apply not_elem_of_nil in Hin.
      * change (autista_pogliani self = None) in Hp. by rewrite Hpogliani in Hp.
      * by apply Hp.
Qed.

(** X20: the order of composition. [costruisci] is a single loop over the
    dates of the calendar, each composed once, taken week by week in the
    order of the ISO weeks and, inside a week, Saturday first, then Friday,
    then Sunday, then Monday to Thursday. *)
Theorem costruisci_ordine casuale iter_set self st :
  costruisci casuale iter_set self st
  = (let '(assegnazioni, st') :=
       ciclo (passo_data casuale iter_set self)
         (ordine_elaborazione (date_attive self)) [] st in
     (in_ordine_di_data assegnazioni, st'))
  ∧ StronglySorted precede (ordine_elaborazione (date_attive self))
  ∧ map rango [5; 4; 6; 0; 1; 2; 3] = [0; 1; 2; 3; 4; 5; 6]
  ∧ (StronglySorted Z.lt (date_attive self) →
     ordine_elaborazione (date_attive self) ≡ₚ date_attive self).
Proof.
  split; [apply costruisci_ciclo |]. split; [apply ordine_elaborazione_sorted |].
  split; [done |]. intros Hs.
  by apply ordine_elaborazione_perm, StronglySorted_lt_NoDup.
Qed.

(** ** A date without a driver *)

Section SenzaAutista.

Variable casuale : nat → Z.
Variable iter_set : gset string → list string.
Variable self : Scheduler.

Lemma costruisci_per_data_internal_nessun_autista giorno assegnazioni sabato
    apply_varchi st :
  let r :=
    _costruisci_per_data_internal casuale iter_set self giorno assegnazioni sabato
      apply_varchi st in
  autisti_reali r.2 = autisti_reali st
  ∧ (r.1.2 = None → voce giorno AUTISTA NessunAutista ∈ log r.2).
Proof.
  cbv zeta. split.
  { by destruct (conserva_costruisci_per_data_internal (R := avanza) casuale
                   iter_set self giorno assegnazioni sabato apply_varchi st). }
  change (spec (_costruisci_per_data_internal casuale iter_set self giorno
                  assegnazioni sabato apply_varchi) st
            (λ r st', r.2 = None → voce giorno AUTISTA NessunAutista ∈ log st')).
  unfold _costruisci_per_data_internal. cbv zeta.
  apply spec_bind. eapply (spec_conserva estende).
  { apply conserva_quando, conserva_log. discriminate. }
  intros _ st1 _. apply spec_bind.
  eapply spec_mono; [apply scegli_autista_spec |].
  intros autista st2 (_ & _ & _ & _ & A5).
  assert (Hin : autista = None → voce giorno AUTISTA NessunAutista ∈ log st2).
  { intros ->. by destruct A5. }
  clear A5.
  apply spec_bind. eapply (spec_conserva estende).
  { apply conserva_quando, conserva_log. discriminate. }
  intros _ st3 E3. apply spec_bind.
  eapply (spec_conserva avanza); [apply conserva_scegli_squadra_vigili |].
  intros squadra st4 [_ E4].
  assert (Hin4 : autista = None → voce giorno AUTISTA NessunAutista ∈ log st4).
  { intros Ha. eapply estende_elem; [exact E4 |].
    eapply estende_elem; [exact E3 | by apply Hin]. }
  destruct squadra as [team |].
  - apply spec_bind.
    match goal with
    | |- context [if ?b then _aggiungi_varchi_venerdi _ _ _ else _] => destruct b
    end.
    + eapply (spec_conserva avanza); [apply conserva_aggiungi_varchi_venerdi |].
      intros l st5 [_ E5]. apply spec_ret. cbn [snd]. intros Ha.
      eapply estende_elem; [exact E5 | by apply Hin4].
    + apply spec_ret, spec_ret. cbn [snd]. done.
  - apply spec_bind, spec_log, spec_ret. cbn [snd log set_log]. intros Ha.
    apply elem_of_app. left. by apply Hin4.
Qed.

Lemma costruisci_per_data_nessun_autista giorno assegnazioni st :
  let r := _costruisci_per_data casuale iter_set self giorno assegnazioni st in
  ∃ reale, autisti_reali r.2 = <[giorno := reale]> (autisti_reali st)
           ∧ (reale = None → voce giorno AUTISTA NessunAutista ∈ log r.2).
Proof.
  cbv zeta. rewrite costruisci_per_data_eq. cbv zeta.
  set (sabato := _trova_autista_settimanale _ _ _ _).
  pose proof (costruisci_per_data_internal_nessun_autista giorno assegnazioni sabato
                (enable_varchi_rule self) st) as [R1 H1].
  cbv zeta in R1, H1.
  destruct (_ && _ && _turno_incompleto _).
  - match goal with
    | |- context [_costruisci_per_data_internal _ _ _ _ _ _ false ?s] =>
        pose proof (costruisci_per_data_internal_nessun_autista giorno assegnazioni
                      sabato false s) as [R2 H2]
    end.
    cbv zeta in R2, H2. cbn [autisti_reali set_log] in R2.
    eexists. split; [cbn [snd fst autisti_reali set_autisti_reali]; by rewrite R2, R1 |].
    done.
  - eexists. split; [cbn [snd fst autisti_reali set_autisti_reali]; by rewrite R1 |].
    done.
Qed.

Lemma inv_esito_passo fatti giorno acc st :
  giorno ∉ fatti → map fst acc = fatti → inv_esito fatti acc st →
  let r := _costruisci_per_data casuale iter_set self giorno acc st in
  inv_esito (fatti ++ [giorno]) (acc ++ [(giorno, r.1)]) r.2.
Proof.
  intros Hnuovo Hfst Hinv r.
  pose proof (costruisci_per_data_spec casuale iter_set self giorno acc st) as Hs.
  unfold spec in Hs. fold r in Hs.
  destruct Hs as (S1 & S2 & S3 & S4 & _).
  destruct (costruisci_per_data_nessun_autista giorno acc st) as (reale & R & Hr).
  fold r in R, Hr.
  intros d a [Hin | [= -> ->]%list_elem_of_singleton]%elem_of_app.
  - destruct (Hinv d a Hin) as (J1 & J2 & J3 & reale' & J4 & J5).
    assert (Hd : d ≠ giorno).
    { intros ->. apply Hnuovo. rewrite <- Hfst, map_fmap.
      apply list_elem_of_fmap. by exists (giorno, a). }
    split; [done |]. split; [done |].
    split; [intros ?; eapply segnalato_progredisce; eauto |].
    exists reale'. split; [by rewrite R, lookup_insert_ne |].
    intros E. destruct S3 as ((nuove & ->) & _).
    apply elem_of_app. left. by apply J5.
  - split; [done |]. split; [done |]. split; [done |].
    exists reale. split; [by rewrite R, lookup_insert_eq | done].
Qed.

End SenzaAutista.

(** X22: for a year that Python's [date] can represent together with the
    first day of the next year (1 to 9998), a run returns exactly one
    Assignment for each date of the generated calendar, in increasing order
    of date. Every Assignment has four crew slots; one that shows no driver
    or has an empty crew slot comes with a log entry of its date that
    reports the shortfall; and when no driver was found for a date (the load
    of driving it is attributed to nobody) the log has the entry of that
    date that says so, whatever driver the Assignment shows. *)
Theorem corsa_un_turno_per_data casuale iter_set anno config months :
  1 ≤ anno ≤ 9998 →
  let self := Scheduler_init anno config months in
  let r := costruisci casuale iter_set self (Stato_init self) in
  map a_giorno r.1 = date_attive self
  ∧ StronglySorted Z.lt (map a_giorno r.1)
  ∧ Forall (λ a,
      length (a_vigili a) = 4%nat
      ∧ (_turno_incompleto a = true → segnalato (a_giorno a) r.2)
      ∧ ∃ reale, autisti_reali r.2 !! a_giorno a = Some reale
                 ∧ (reale = None →
                    voce (a_giorno a) AUTISTA NessunAutista ∈ log r.2)) r.1.
Proof.
  intros _ self r.
  pose proof (date_attive_init_sorted anno config months) as Hs. fold self in Hs.
  pose proof (StronglySorted_lt_NoDup _ Hs) as Hnd.
  pose proof (ordine_elaborazione_perm _ Hnd) as Hp.
  assert (Hstep : ∀ fatti giorno resto acc st,
            ordine_elaborazione (date_attive self) = fatti ++ giorno :: resto →
            giorno ∉ fatti → map fst acc = fatti → inv_esito fatti acc st →
            let r := _costruisci_per_data casuale iter_set self giorno acc st in
            inv_esito (fatti ++ [giorno]) (acc ++ [(giorno, r.1)]) r.2).
  { intros fatti giorno resto acc st _. apply inv_esito_passo. }
  assert (Hzero : inv_esito [] [] (Stato_init self)).
  { by intros d a ?%not_elem_of_nil. }
  destruct (corsa_inv casuale iter_set self inv_esito Hzero Hstep Hnd)
    as (acc & A1 & A2 & A3 & A4).
  fold r in A2, A3, A4.
  assert (Hg : map a_giorno r.1 = date_attive self).
  { rewrite A2, in_ordine_di_data_giorni.
    - apply sorted_py_Z_unique; [done |]. by rewrite A1.
    - intros d a Hin. by destruct (A4 d a Hin). }
  split; [done |]. split; [by rewrite Hg |].
  apply Forall_forall. intros a Ha. rewrite A3, map_fmap in Ha.
  apply list_elem_of_fmap in Ha as ([d a'] & -> & Hin).
  destruct (A4 d a' Hin) as (J1 & J2 & J3 & J4). cbn [snd]. by rewrite J1.
Qed.

(** The statement of X22 for the roster of four crew members and one driver
    with the default rules, January 2024. *)
Lemma corsa_un_turno_per_data_witness :
  let self := Scheduler_init 2024 (config_cap_default HARD) gennaio in
  let r := costruisci (λ _, 0) ordine_alfabetico self (Stato_init self) in
  map a_giorno r.1 = date_attive self
  ∧ StronglySorted Z.lt (map a_giorno r.1)
  ∧ Forall (λ a,
      length (a_vigili a) = 4%nat
      ∧ (_turno_incompleto a = true → segnalato (a_giorno a) r.2)
      ∧ ∃ reale, autisti_reali r.2 !! a_giorno a = Some reale
                 ∧ (reale = None →
                    voce (a_giorno a) AUTISTA NessunAutista ∈ log r.2)) r.1.
Proof.
  apply (corsa_un_turno_per_data (λ _, 0) ordine_alfabetico 2024
           (config_cap_default HARD) gennaio).
  lia.
Defined.
